(** * Polymarket insider-detection core: a shallow embedding and its properties

    The Python sources under [src/insider_detection] are embedded as Rocq
    functions.  Python [float] is the kernel's binary64 type; Python [str] is
    [string]; a Python [dict] whose iteration order is observable is an
    insertion-ordered association list ([odict]); a [dict] that is only ever
    looked up is a [gmap]; a Python [set] of account identifiers is a
    [gset string]; object state that a method mutates is passed explicitly. *)

From Stdlib Require Import ZArith Floats Ascii String DecimalString.
From Stdlib Require DecimalNat.
From stdpp Require Import base option list sets gmap strings.

Set Warnings "-inexact-float,-clear-no-such-hyp".
Set Default Proof Using "Type".

Open Scope Z_scope.

(** ** Python numerics *)

Module Py.

(** An integer as an (unnormalised) binary floating-point datum. *)
Definition Z2SF (z : Z) (e : Z) : spec_float :=
  match z with
  | Z0 => S754_zero false
  | Zpos p => S754_finite false p e
  | Zneg p => S754_finite true p e
  end.

(** [int / int]: Python's true division of integers is correctly rounded
    (round to nearest, ties to even). *)
Definition int_truediv (a b : Z) : float :=
  SF2Prim (SFdiv prec emax (Z2SF a 0) (Z2SF b 0)).

(** [float(n)] for an integer [n]. *)
Definition float_of_int (n : Z) : float :=
  SF2Prim (binary_normalize prec emax n 0 false).

(** Truth value of a float: [if x:] is [x != 0.0]. *)
Definition truthy (x : float) : bool := negb (x =? 0)%float.

(** [max(a, b)] and [max(a, b, c)]: the builtin keeps the first maximal
    item, replacing it only by a strictly greater later one. *)
Definition max2 (a b : float) : float := if (a <? b)%float then b else a.
Definition max3 (a b c : float) : float := max2 (max2 a b) c.

(** [sum(xs)] over floats: plain left-to-right float addition from [0] (the
    builtin of CPython up to 3.11; later versions compensate the rounding
    of the partial sums). *)
Definition sum (xs : list float) : float :=
  fold_left (fun acc x => (acc + x)%float) xs 0%float.

(** The exact value of a finite float, in units of [2^-1074] (the least
    positive binary64 value); [None] for infinities and NaN. *)
Definition exact_units (x : float) : option Z :=
  match Prim2SF x with
  | S754_zero _ => Some 0
  | S754_finite s m e => Some (cond_Zopp s (Zpos m) * 2 ^ (e + 1074))
  | _ => None
  end.

Definition is_pos_inf (x : float) : bool := (x =? infinity)%float.
Definition is_neg_inf (x : float) : bool := (x =? neg_infinity)%float.

(** [statistics.mean(xs)] for a non-empty list of floats: the finite items
    are summed exactly as fractions and the quotient by [len(xs)] is rounded
    once; an infinity or a NaN among the items decides the result the way
    their float sum does. *)
Definition exact_total (xs : list float) : Z :=
  foldr (fun x acc => default 0 (exact_units x) + acc) 0 xs.

Definition mean (xs : list float) : float :=
  let has_nan := existsb is_nan xs in
  let has_pinf := existsb is_pos_inf xs in
  let has_ninf := existsb is_neg_inf xs in
  if has_nan || (has_pinf && has_ninf) then nan
  else if has_pinf then infinity
  else if has_ninf then neg_infinity
  else SF2Prim (SFdiv prec emax
                  (Z2SF (exact_total xs) (-1074))
                  (Z2SF (Z.of_nat (length xs)) 0)).

(** [timedelta.total_seconds()] of a difference of [us] microseconds. *)
Definition total_seconds (us : Z) : float := int_truediv us 1000000.

(** [s.lower()], on the ASCII letters. *)
Definition lower_ascii (c : ascii) : ascii :=
  let n := nat_of_ascii c in
  if (65 <=? n)%nat && (n <=? 90)%nat then ascii_of_nat (n + 32) else c.

Fixpoint lower (s : string) : string :=
  match s with
  | EmptyString => EmptyString
  | String c s' => String (lower_ascii c) (lower s')
  end.

(** [str(n)] for a natural number. *)
Definition str_of_nat (n : nat) : string :=
  NilEmpty.string_of_uint (Nat.to_uint n).

End Py.

(** ** Insertion-ordered dictionaries *)

Section odict.
Context {K V : Type} `{EqDecision K}.

(** [d.get(k)] *)
Fixpoint dget (d : list (K * V)) (k : K) : option V :=
  match d with
  | [] => None
  | (k', v) :: d' => if decide (k' = k) then Some v else dget d' k
  end.

(** [d[k] = v]: an existing key keeps its position, a new one goes last. *)
Fixpoint dset (d : list (K * V)) (k : K) (v : V) : list (K * V) :=
  match d with
  | [] => [(k, v)]
  | (k', v') :: d' =>
      if decide (k' = k) then (k', v) :: d' else (k', v') :: dset d' k v
  end.

Definition dkeys (d : list (K * V)) : list K := d.*1.
Definition dvalues (d : list (K * V)) : list V := d.*2.
End odict.

Abbreviation odict K V := (list (K * V)).

(** ** data_ingestion.py *)

(** A naive [datetime] is its count of microseconds since the first instant
    of the proleptic calendar. *)
Definition datetime := Z.

Definition us_per_day : Z := 86400 * 1000000.

(** [datetime.combine(ts.date(), time.min)] *)
Definition midnight_of (ts : datetime) : datetime := ts - ts mod us_per_day.

Record TradeEvent := {
  trade_id : string;
  account_id : string;
  market_id : string;
  timestamp : datetime;
  outcome : string;
  size : float;
  price : float
}.

(** ** feature_store.py *)

Record FeatureVector := {
  entity_id : string;
  features : odict string float;
  as_of : datetime
}.

Module FeatureStore.

(** The [storage] field: account identifier to the vectors stored for it
    (a [defaultdict(list)], only ever looked up by key). *)
Abbreviation storage := (gmap string (list FeatureVector)).

Definition _rolling_average (st : storage) (account : string) (new_value : float) : float :=
  let history := default [] (st !! account) in
  match last history with
  | None => new_value
  | Some v =>
      let last := default new_value (dget (features v) "avg_trade_size") in
      (0.5 * last + 0.5 * new_value)%float
  end.

Definition _profit_proxy (trade : TradeEvent) : float :=
  let o := Py.lower (outcome trade) in
  let direction :=
    if bool_decide (o = "yes") || bool_decide (o = "win") then 1%float else (-1)%float in
  (direction * (1 - price trade))%float.

Definition _time_to_resolution_proxy (trade : TradeEvent) : float :=
  let delta := timestamp trade - midnight_of (timestamp trade) in
  Py.max2 (Py.total_seconds delta) 1%float.

(** One iteration of the loop of [compute_features]: the vector of [trade]
    and the store with the vector appended to the account's history. *)
Definition compute_one (st : storage) (trade : TradeEvent) : FeatureVector * storage :=
  let feats :=
    [ ("avg_trade_size", _rolling_average st (account_id trade) (size trade));
      ("profit_proxy", _profit_proxy trade);
      ("time_to_resolution_est", _time_to_resolution_proxy trade) ] in
  let vector := Build_FeatureVector (account_id trade) feats (timestamp trade) in
  (vector, <[account_id trade := default [] (st !! account_id trade) ++ [vector]]> st).

Fixpoint compute_features (st : storage) (trades : list TradeEvent)
  : list FeatureVector * storage :=
  match trades with
  | [] => ([], st)
  | trade :: rest =>
      let '(vector, st1) := compute_one st trade in
      let '(computed, st2) := compute_features st1 rest in
      (vector :: computed, st2)
  end.

Definition latest_features (st : storage) (entity : string) : option FeatureVector :=
  last (default [] (st !! entity)).

(** The [avg_trade_size] entry of a vector. *)
Definition avg_trade_size (v : FeatureVector) : option float :=
  dget (features v) "avg_trade_size".

End FeatureStore.


(** ** model_zoo.py *)

Record ModelPrediction := {
  model_name : string;
  mp_entity_id : string;
  mp_score : float;
  metadata : odict string float
}.

(** A [ModelWrapper]: the wrapped model is its [predict_proba]. *)
Record ModelWrapper := {
  name : string;
  model : odict string float -> float;
  postprocess : option (float -> float)
}.

(** What a method call yields: a value or a raised exception. *)
Inductive result (E A : Type) :=
| Ok (a : A)
| Raise (e : E).
Arguments Ok {E A} a.
Arguments Raise {E A} e.

Inductive exn :=
| ValueError (msg : string)
| KeyError (key : string).

Module ModelZoo.

Definition predict (w : ModelWrapper) (fv : FeatureVector) : ModelPrediction :=
  let raw_score := model w (features fv) in
  let score := match postprocess w with Some f => f raw_score | None => raw_score end in
  {| model_name := name w; mp_entity_id := entity_id fv; mp_score := score;
     metadata := [("raw_score", raw_score)] |}.

(** The [_models] field: wrappers by name, iterated in registration order. *)
Abbreviation t := (odict string ModelWrapper).

(** [register] runs on the registry and leaves a registry behind, whether
    it returns or raises. *)
Definition register (zoo : t) (wrapper : ModelWrapper) : result exn unit * t :=
  if bool_decide (name wrapper ∈ dkeys zoo)
  then (Raise (ValueError ("Model " +:+ name wrapper +:+ " already registered")), zoo)
  else (Ok (), dset zoo (name wrapper) wrapper).

(** [__init__]: registers the given wrappers in turn, stopping at the
    first that raises. *)
Fixpoint init_from (zoo : t) (models : list ModelWrapper) : result exn unit * t :=
  match models with
  | [] => (Ok (), zoo)
  | m :: rest =>
      match register zoo m with
      | (Ok _, zoo') => init_from zoo' rest
      | (Raise e, zoo') => (Raise e, zoo')
      end
  end.

Definition iter_models (zoo : t) : list ModelWrapper := dvalues zoo.

Definition get (zoo : t) (n : string) : result exn ModelWrapper :=
  match dget zoo n with
  | Some w => Ok w
  | None => Raise (KeyError n)
  end.

End ModelZoo.

(** ** ensemble.py *)

Record EnsembleScore := {
  es_entity_id : string;
  es_score : float;
  breakdown : odict string float
}.

Module EnsembleCombiner.

(** The [weights] field, only ever read with [get]. *)
Abbreviation weights_t := (gmap string float).

Section with_weights.
Variable weights : weights_t.

(** The loop of [_weighted_average]: [(total_weight, weighted_sum)]. *)
Definition accumulate (model_scores : odict string float) : float * float :=
  fold_left
    (fun '(total_weight, weighted_sum) '(n, score) =>
       let weight := default 0%float (weights !! n) in
       ((total_weight + weight)%float, (weighted_sum + weight * score)%float))
    model_scores (0%float, 0%float).

Definition _weighted_average (model_scores : odict string float) : float :=
  match model_scores with
  | [] => 0%float
  | _ =>
      if bool_decide (weights = ∅ :> weights_t) then Py.mean (dvalues model_scores)
      else
        let '(total_weight, weighted_sum) := accumulate model_scores in
        if Py.truthy total_weight then (weighted_sum / total_weight)%float
        else Py.mean (dvalues model_scores)
  end.

(** The first loop of [combine]: scores by entity, then by model. *)
Definition group (predictions : list ModelPrediction)
  : odict string (odict string float) :=
  fold_left
    (fun grouped p =>
       dset grouped (mp_entity_id p)
         (dset (default [] (dget grouped (mp_entity_id p))) (model_name p) (mp_score p)))
    predictions [].

Definition combine (predictions : list ModelPrediction) : list EnsembleScore :=
  map (fun '(entity, model_scores) =>
         {| es_entity_id := entity;
            es_score := _weighted_average model_scores;
            breakdown := model_scores |})
      (group predictions).

(** The loop of [aggregate_statistics]: the scores of each model, in
    order of appearance. *)
Definition by_model (predictions : list ModelPrediction) : odict string (list float) :=
  fold_left
    (fun acc p =>
       dset acc (model_name p) (default [] (dget acc (model_name p)) ++ [mp_score p]))
    predictions [].

Definition aggregate_statistics (predictions : list ModelPrediction)
  : odict string float :=
  omap (fun '(n, scores) =>
          match scores with [] => None | _ => Some (n, Py.mean scores) end)
       (by_model predictions).
End with_weights.

End EnsembleCombiner.


(** ** interfaces/alerts.py *)

Record Alert := {
  al_entity_id : string;
  al_score : float;
  severity : string;
  message : string
}.

Record AlertDispatcher := {
  critical_threshold : float;
  high_threshold : float;
  sent_alerts : list Alert
}.

(** [AlertDispatcher()] with the default thresholds. *)
Definition default_dispatcher : AlertDispatcher :=
  {| critical_threshold := 0.9; high_threshold := 0.7; sent_alerts := [] |}.

Section alerts.
(** The builtin rendering [f"{x:.2f}"] of a float. *)
Variable format_2f : float -> string.

Definition _determine_severity (d : AlertDispatcher) (score : float) : string :=
  if (critical_threshold d <=? score)%float then "critical"
  else if (high_threshold d <=? score)%float then "high"
  else if (0.5 <=? score)%float then "medium"
  else "info".

Fixpoint create_alerts (d : AlertDispatcher) (ensemble_scores : list EnsembleScore)
  : list Alert :=
  match ensemble_scores with
  | [] => []
  | score :: rest =>
      let sev := _determine_severity d (es_score score) in
      if bool_decide (sev = "info") then create_alerts d rest
      else
        {| al_entity_id := es_entity_id score;
           al_score := es_score score;
           severity := sev;
           message := "Account " +:+ es_entity_id score +:+ " flagged with severity "
                      +:+ sev +:+ " (score=" +:+ format_2f (es_score score) +:+ ")." |}
        :: create_alerts d rest
  end.

Definition dispatch (d : AlertDispatcher) (alerts : list Alert) : AlertDispatcher :=
  {| critical_threshold := critical_threshold d;
     high_threshold := high_threshold d;
     sent_alerts := sent_alerts d ++ alerts |}.
End alerts.

(** ** graph_module.py *)

Record GraphEdge := {
  source : string;
  target : string;
  weight : float
}.

Module GraphModule.

Abbreviation adjacency_t := (odict string (odict string float)).
Abbreviation graph_t := (odict string (list GraphEdge)).

(** [GraphModule()] has threshold 0.7. *)
Definition default_threshold : float := 0.7.

Definition _co_trading_weight (a b : TradeEvent) : float :=
  let same_direction := if bool_decide (outcome a = outcome b) then 1%float else 0.5%float in
  let size_similarity :=
    (1 - abs (size a - size b) / Py.max3 (size a) (size b) 1)%float in
  let time_gap := (abs (Py.total_seconds (timestamp a - timestamp b)) + 1)%float in
  (same_direction * size_similarity / time_gap)%float.

(** [adjacency[a][b] += w] on nested [defaultdict]s. *)
Definition adj_add (adjacency : adjacency_t) (a b : string) (w : float) : adjacency_t :=
  let edges := default [] (dget adjacency a) in
  dset adjacency a (dset edges b (default 0%float (dget edges b) + w)%float).

(** The body of the innermost loop of [build_wallet_graph]. *)
Definition add_pair (threshold : float) (adjacency : adjacency_t)
    (trade_i trade_j : TradeEvent) : adjacency_t :=
  let w := _co_trading_weight trade_i trade_j in
  if (threshold <=? w)%float then
    adj_add (adj_add adjacency (account_id trade_i) (account_id trade_j) w)
            (account_id trade_j) (account_id trade_i) w
  else adjacency.

(** The two loops over one market's trades: every [trade_i] against the
    trades after it. *)
Fixpoint add_market (threshold : float) (adjacency : adjacency_t)
    (market_trades : list TradeEvent) : adjacency_t :=
  match market_trades with
  | [] => adjacency
  | trade_i :: rest =>
      add_market threshold
        (fold_left (fun adj trade_j => add_pair threshold adj trade_i trade_j) rest adjacency)
        rest
  end.

Definition trades_by_market (trades : list TradeEvent) : odict string (list TradeEvent) :=
  fold_left
    (fun by_market trade =>
       dset by_market (market_id trade)
         (default [] (dget by_market (market_id trade)) ++ [trade]))
    trades [].

Definition build_adjacency (threshold : float) (trades : list TradeEvent) : adjacency_t :=
  fold_left (fun adj '(_, market_trades) => add_market threshold adj market_trades)
    (trades_by_market trades) [].

Definition edges_of (node : string) (edges : odict string float) : list GraphEdge :=
  map (fun '(tgt, w) => {| source := node; target := tgt; weight := w |}) edges.

Definition build_wallet_graph (threshold : float) (trades : list TradeEvent) : graph_t :=
  map (fun '(node, edges) => (node, edges_of node edges)) (build_adjacency threshold trades).

(** The [for edge in graph.get(current, [])] loop: unvisited targets are
    marked and queued, in order. *)
Definition visit_edges (edges : list GraphEdge) (visited : gset string) (queue : list string)
  : gset string * list string :=
  fold_left
    (fun '(vis, q) edge =>
       if bool_decide (target edge ∈ vis) then (vis, q)
       else ({[target edge]} ∪ vis, q ++ [target edge]))
    edges (visited, queue).

(** The [while queue:] loop, run for at most [fuel] iterations; [None] when
    the fuel runs out before the queue does. *)
Fixpoint bfs (fuel : nat) (graph : graph_t) (queue : list string)
    (visited community : gset string) : option (gset string * gset string) :=
  match queue with
  | [] => Some (visited, community)
  | current :: rest =>
      match fuel with
      | O => None
      | S fuel' =>
          let '(visited', queue') :=
            visit_edges (default [] (dget graph current)) visited rest in
          bfs fuel' graph queue' visited' ({[current]} ∪ community)
      end
  end.

(** The [for node in graph] loop over the remaining keys. *)
Fixpoint components (fuel : nat) (graph : graph_t) (nodes : list string)
    (visited : gset string) (communities : list (gset string))
  : option (list (gset string)) :=
  match nodes with
  | [] => Some communities
  | node :: rest =>
      if bool_decide (node ∈ visited) then components fuel graph rest visited communities
      else
        match bfs fuel graph [node] ({[node]} ∪ visited) ∅ with
        | None => None
        | Some (visited', community) =>
            components fuel graph rest visited' (communities ++ [community])
        end
  end.

(** Every node of the graph: its keys and the targets of its edges. *)
Definition nodes_of (graph : graph_t) : gset string :=
  list_to_set (dkeys graph) ∪ list_to_set (map target (mjoin (dvalues graph))).

(** [detect_communities]: a node enters a queue at most once, so one more
    iteration than the graph has nodes is fuel enough for every [while] loop. *)
Definition detect_communities (graph : graph_t) : option (list (gset string)) :=
  components (S (base.size (nodes_of graph))) graph (dkeys graph) ∅ [].

End GraphModule.


(** ** sequence_module.py *)

Record SequenceEmbedding := {
  se_entity_id : string;
  values : list float
}.

(** The functions of the C mathematics library that [math.sin], [math.cos]
    and [**] on floats call. *)
Record Libm := {
  libm_sin : float -> float;
  libm_cos : float -> float;
  libm_pow : float -> float -> float
}.

Module SequenceModule.

Section with_libm.
Variable libm : Libm.
Variable embedding_dim : nat.

(** [sorted(trades, key=lambda t: t.timestamp)], a stable sort. *)
Fixpoint insert_by_time (t : TradeEvent) (sorted : list TradeEvent) : list TradeEvent :=
  match sorted with
  | [] => [t]
  | u :: rest =>
      if (timestamp t <=? timestamp u)%Z then t :: sorted
      else u :: insert_by_time t rest
  end.

Definition sorted_by_time (trades : list TradeEvent) : list TradeEvent :=
  foldr insert_by_time [] trades.

Definition angle (position idx : nat) : float :=
  (Py.float_of_int (Z.of_nat position)
   / libm_pow libm 10000
       (Py.int_truediv (2 * (Z.of_nat idx / 2)) (Z.of_nat embedding_dim)))%float.

(** The inner [for idx in range(embedding_dim)] loop at one position. *)
Definition add_position (vals : list float) (position : nat) : list float :=
  imap (fun idx v =>
          if Nat.even idx then (v + libm_sin libm (angle position idx))%float
          else (v + libm_cos libm (angle position idx))%float)
       vals.

Definition _positional_encoding (trades : list TradeEvent) : list float :=
  fold_left add_position (seq 0 (length (sorted_by_time trades)))
    (replicate embedding_dim 0%float).

Definition sequences (trades : list TradeEvent) : odict string (list TradeEvent) :=
  fold_left
    (fun acc trade =>
       dset acc (account_id trade) (default [] (dget acc (account_id trade)) ++ [trade]))
    trades [].

Definition encode (trades : list TradeEvent) : list SequenceEmbedding :=
  map (fun '(entity, trade_seq) =>
         {| se_entity_id := entity; values := _positional_encoding trade_seq |})
      (sequences trades).

(** [{e.entity_id: e for e in embeddings}] *)
Definition embed_lookup (embeddings : list SequenceEmbedding)
  : odict string SequenceEmbedding :=
  fold_left (fun acc e => dset acc (se_entity_id e) e) embeddings [].

Definition augment (feats : odict string float) (vals : list float) : odict string float :=
  fold_left (fun acc '(idx, value) => dset acc ("seq_" +:+ Py.str_of_nat idx) value)
    (imap (fun idx value => (idx, value)) vals) feats.

Definition enrich_features (fvs : list FeatureVector) (embeddings : list SequenceEmbedding)
  : list FeatureVector :=
  let lookup := embed_lookup embeddings in
  map (fun vector =>
         match dget lookup (entity_id vector) with
         | Some embedding =>
             {| entity_id := entity_id vector;
                features := augment (features vector) (values embedding);
                as_of := as_of vector |}
         | None => vector
         end)
      fvs.
End with_libm.

End SequenceModule.

(** ** anomaly_module.py *)

Record AnomalyDetector := {
  detector_name : string;
  score : odict string float -> float
}.

Record AnomalyScore := {
  as_entity_id : string;
  as_detector_name : string;
  as_score : float
}.

Module AnomalyModule.

Definition run (detectors : list AnomalyDetector) (fvs : list FeatureVector)
  : list AnomalyScore :=
  vector ← fvs;
  detector ← detectors;
  [ {| as_entity_id := entity_id vector;
       as_detector_name := detector_name detector;
       as_score := score detector (features vector) |} ].

End AnomalyModule.

(** ** explainability.py (the record kept in the pipeline's run state) *)

Record Explanation := {
  ex_entity_id : string;
  top_features : list string;
  narrative : string
}.

(** ** pipeline.py *)

(** The pipeline object.  Each component is what the pipeline reads of it:
    the ingestion is the trades of its sources, the ensemble its weights, the
    sequence module its embedding dimension, the graph module its threshold,
    the anomaly module its detectors; an absent optional component is
    [None]. *)
Record InsiderDetectionPipeline := {
  data_ingestion : list (list TradeEvent);
  feature_store : FeatureStore.storage;
  model_zoo : ModelZoo.t;
  ensemble : EnsembleCombiner.weights_t;
  alert_dispatcher : AlertDispatcher;
  sequence_module : option nat;
  graph_module : option float;
  anomaly_module : option (list AnomalyDetector);
  explainability : option unit;
  markets_of_interest : option (list string);
  alerts : list Alert;
  explanations : list Explanation;
  anomaly_scores : list AnomalyScore
}.

Module Pipeline.

Section with_libm.
Variable libm : Libm.

Definition _enrich_with_sequences (p : InsiderDetectionPipeline)
    (trades : list TradeEvent) (fvs : list FeatureVector) : list FeatureVector :=
  match sequence_module p with
  | None => fvs
  | Some dim =>
      SequenceModule.enrich_features fvs (SequenceModule.encode libm dim trades)
  end.

Definition _generate_predictions (p : InsiderDetectionPipeline)
    (fvs : list FeatureVector) : list ModelPrediction :=
  fv ← fvs;
  m ← ModelZoo.iter_models (model_zoo p);
  [ ModelZoo.predict m fv ].

Definition _run_anomaly_detectors (p : InsiderDetectionPipeline)
    (fvs : list FeatureVector) : list AnomalyScore :=
  match anomaly_module p with
  | None => []
  | Some detectors => AnomalyModule.run detectors fvs
  end.

(** The pipeline with its feature store replaced: every other field,
    the run state and the dispatcher's sink included, is kept. *)
Definition with_feature_store (p : InsiderDetectionPipeline)
    (st : FeatureStore.storage) : InsiderDetectionPipeline :=
  {| data_ingestion := data_ingestion p;
     feature_store := st;
     model_zoo := model_zoo p;
     ensemble := ensemble p;
     alert_dispatcher := alert_dispatcher p;
     sequence_module := sequence_module p;
     graph_module := graph_module p;
     anomaly_module := anomaly_module p;
     explainability := explainability p;
     markets_of_interest := markets_of_interest p;
     alerts := alerts p;
     explanations := explanations p;
     anomaly_scores := anomaly_scores p |}.

(** The [if self.graph_module is not None] step of [run_backtest]. *)
Definition graph_metric (p : InsiderDetectionPipeline) (trades : list TradeEvent)
    (metrics : odict string float) : option (odict string float) :=
  match graph_module p with
  | None => Some metrics
  | Some threshold =>
      communities ← GraphModule.detect_communities
                      (GraphModule.build_wallet_graph threshold trades);
      Some (dset metrics "communities_detected"
              (Py.float_of_int (Z.of_nat (length communities))))
  end.

(** The [if anomaly_scores] step of [run_backtest]. *)
Definition anomaly_metric (scores : list AnomalyScore) (metrics : odict string float)
  : odict string float :=
  match scores with
  | [] => metrics
  | _ =>
      dset metrics "avg_anomaly_score"
        (Py.sum (map as_score scores) / Py.float_of_int (Z.of_nat (length scores)))%float
  end.

(** [run_backtest]: the metrics and the pipeline object afterwards;
    [None] only if community detection ran out of fuel. *)
Definition run_backtest (p : InsiderDetectionPipeline) (historical_trades : list TradeEvent)
  : option (odict string float * InsiderDetectionPipeline) :=
  let '(fvs0, st) := FeatureStore.compute_features (feature_store p) historical_trades in
  let p' := with_feature_store p st in
  let fvs := _enrich_with_sequences p' historical_trades fvs0 in
  let predictions := _generate_predictions p' fvs in
  let metrics := EnsembleCombiner.aggregate_statistics predictions in
  metrics ← graph_metric p' historical_trades metrics;
  Some (anomaly_metric (_run_anomaly_detectors p' fvs) metrics, p').
End with_libm.

End Pipeline.


(** ** The specification's combined score

    The ensemble rule as the specification words it: the unweighted mean when
    no weights are configured; otherwise the sum of weight times score over
    the entity's models divided by the sum of those weights, a model without
    a configured weight counting 0; and the unweighted mean again when that
    total weight is zero. *)
Definition spec_combined_score (weights : gmap string float)
    (model_scores : odict string float) : float :=
  let weight_of (n : string) := default 0%float (weights !! n) in
  let total_weight := Py.sum (map (λ '(n, _), weight_of n) model_scores) in
  let weighted_sum := Py.sum (map (λ '(n, s), weight_of n * s)%float model_scores) in
  if bool_decide (weights = ∅ :> gmap string float) then Py.mean (dvalues model_scores)
  else if (total_weight =? 0)%float then Py.mean (dvalues model_scores)
  else (weighted_sum / total_weight)%float.

(** ** Notions used in the statements *)

(** [d[k1][k2]] read without inserting: [None] when either key is absent. *)
Definition dget2 {V} (d : odict string (odict string V)) (k1 k2 : string) : option V :=
  dget d k1 ≫= λ inner, dget inner k2.

(** The pair a prediction is about. *)
Definition pkey (p : ModelPrediction) : string * string := (mp_entity_id p, model_name p).

(** The score of the last prediction of [predictions] that is about entity [e]
    and model [m]. *)
Definition last_score (predictions : list ModelPrediction) (e m : string) : option float :=
  mp_score <$> last (filter (λ p, pkey p = (e, m)) predictions).

(** The pairs of a list's items, each item with every later one. *)
Fixpoint pairs_of {A} (l : list A) : list (A * A) :=
  match l with
  | [] => []
  | x :: rest => map (pair x) rest ++ pairs_of rest
  end.

(** The nodes that [graph] lists as targets of the edges of [u]. *)
Definition succs (graph : GraphModule.graph_t) (u : string) : gset string :=
  list_to_set (target <$> default [] (dget graph u)).

(** [graph] has an edge from [a] to [b]. *)
Definition has_edge (graph : GraphModule.graph_t) (a b : string) : Prop :=
  b ∈ succs graph a.

(** A set of nodes that no edge of [graph] leaves. *)
Definition closed (graph : GraphModule.graph_t) (X : gset string) : Prop :=
  ∀ u, u ∈ X → succs graph u ⊆ X.

Definition symmetric (graph : GraphModule.graph_t) : Prop :=
  ∀ a b, has_edge graph a b → has_edge graph b a.

Definition pairwise_disjoint (cs : list (gset string)) : Prop :=
  ∀ i j ci cj, cs !! i = Some ci → cs !! j = Some cj → i ≠ j → ci ## cj.

(** What the outer loop of [detect_communities] maintains: the visited nodes
    are the union of the communities found, which are pairwise disjoint; no
    edge leaves the union of the first [n] communities, for any [n]; and every
    community holds a key of the graph from which all its members are
    reachable. *)
Definition found (graph : GraphModule.graph_t) (visited : gset string)
    (cs : list (gset string)) : Prop :=
  visited = ⋃ cs ∧
  pairwise_disjoint cs ∧
  (∀ n, closed graph (⋃ take n cs)) ∧
  Forall (λ c, ∃ s, s ∈ dkeys graph ∧ s ∈ c ∧ ∀ x, x ∈ c → rtc (has_edge graph) s x) cs ∧
  visited ⊆ GraphModule.nodes_of graph.

(** The scores that [predictions] hold for model [m], in order. *)
Definition scores_of (predictions : list ModelPrediction) (m : string) : list float :=
  mp_score <$> filter (λ q, model_name q = m) predictions.

(** The feature vectors that [run_backtest] computes for a batch, after the
    optional sequence enrichment. *)
Definition backtest_vectors (libm : Libm) (p : InsiderDetectionPipeline)
    (trades : list TradeEvent) : list FeatureVector :=
  Pipeline._enrich_with_sequences libm p trades
    (FeatureStore.compute_features (feature_store p) trades).1.

(** ** Example data *)

Module Ex.

Definition trade (acc mkt : string) (ts : datetime) (o : string) (sz : float)
  : TradeEvent :=
  {| trade_id := "t"; account_id := acc; market_id := mkt; timestamp := ts;
     outcome := o; size := sz; price := 0.5 |}.

(** Three trades of one account, of sizes 2, 4 and 8. *)
Definition s2 : TradeEvent := trade "alice" "m1" 0 "yes" 2.
Definition s4 : TradeEvent := trade "alice" "m1" 1000000 "yes" 4.
Definition s8 : TradeEvent := trade "alice" "m2" 2000000 "no" 8.
Definition bob1 : TradeEvent := trade "bob" "m1" 0 "yes" 3.

Definition pred (m e : string) (x : float) : ModelPrediction :=
  {| model_name := m; mp_entity_id := e; mp_score := x; metadata := [] |}.

Definition const_model (n : string) (x : float) : ModelWrapper :=
  {| name := n; model := λ _, x; postprocess := None |}.

(** Three models of weight 1 each, and their scores for one entity in two
    orders. *)
Definition unit_weights : gmap string float :=
  {[ "a" := 1%float; "b" := 1%float; "c" := 1%float ]}.
Definition abc : list ModelPrediction := [pred "a" "e" 0.1; pred "b" "e" 0.2; pred "c" "e" 0.3].
Definition cba : list ModelPrediction := [pred "c" "e" 0.3; pred "b" "e" 0.2; pred "a" "e" 0.1].

(** A model that scores a vector by its [avg_trade_size]. *)
Definition size_model : ModelWrapper :=
  {| name := "size"; model := λ f, default 0%float (dget f "avg_trade_size");
     postprocess := None |}.

(** Two accounts trading alike at the same instant in two markets, and a
    third account trading a minute later at another size. *)
Definition a1 : TradeEvent := trade "A" "m1" 0 "yes" 2.
Definition b1 : TradeEvent := trade "B" "m1" 0 "yes" 2.
Definition a2 : TradeEvent := trade "A" "m2" 5000000 "no" 7.
Definition b2 : TradeEvent := trade "B" "m2" 5000000 "no" 7.
Definition c1 : TradeEvent := trade "C" "m1" 60000000 "no" 50.

(** A second trade of the third account, like its first. *)
Definition c2 : TradeEvent := trade "C" "m1" 60000000 "no" 50.

(** A stand-in for the C library; the examples configure no sequence
    module, so it is never called. *)
Definition libm : Libm :=
  {| libm_sin := λ x, x; libm_cos := λ x, x; libm_pow := λ x _, x |}.

(** A detector that scores a vector by its [avg_trade_size]. *)
Definition size_detector : AnomalyDetector :=
  {| detector_name := "size";
     score := λ f, default 0%float (dget f "avg_trade_size") |}.

(** A pipeline with the given registry, weights and optional components. *)
Definition pipeline (zoo : ModelZoo.t) (weights : gmap string float)
    (graph : option float) (anomaly : option (list AnomalyDetector))
  : InsiderDetectionPipeline :=
  {| data_ingestion := []; feature_store := ∅; model_zoo := zoo; ensemble := weights;
     alert_dispatcher := default_dispatcher; sequence_module := None;
     graph_module := graph; anomaly_module := anomaly; explainability := None;
     markets_of_interest := None; alerts := []; explanations := [];
     anomaly_scores := [] |}.

(** A pipeline whose only model is named like the graph metric, with no
    graph module. *)
Definition collide : InsiderDetectionPipeline :=
  pipeline [("communities_detected", const_model "communities_detected" 0.5)]
    ∅ None None.

(** The same registry with a graph module configured. *)
Definition collide_graph : InsiderDetectionPipeline :=
  pipeline [("communities_detected", const_model "communities_detected" 0.5)]
    ∅ (Some GraphModule.default_threshold) None.

(** A pipeline with one model, a graph module and an anomaly module. *)
Definition full : InsiderDetectionPipeline :=
  pipeline [("size", size_model)] ∅
    (Some GraphModule.default_threshold) (Some [size_detector]).

End Ex.

(** ** evaluation.py *)

Record EvaluationResult := {
  precision : float;
  recall : float;
  f1 : float
}.

Module Evaluation.

(** One iteration of the counting loop, on [(tp, fp, fn)]. *)
Definition count_one (ground_truth : gmap string Z) (threshold : float)
    (counts : nat * nat * nat) (prediction : EnsembleScore) : nat * nat * nat :=
  let '(tp, fp, fn) := counts in
  let label := default 0 (ground_truth !! es_entity_id prediction) in
  let flagged := (threshold <=? es_score prediction)%float in
  if flagged && bool_decide (label = 1) then (S tp, fp, fn)
  else if flagged && bool_decide (label = 0) then (tp, S fp, fn)
  else if negb flagged && bool_decide (label = 1) then (tp, fp, S fn)
  else (tp, fp, fn).

Definition counts (predictions : list EnsembleScore) (ground_truth : gmap string Z)
    (threshold : float) : nat * nat * nat :=
  fold_left (count_one ground_truth threshold) predictions (O, O, O).

(** [num / den if den else 0.0] on counts. *)
Definition ratio (num den : nat) : float :=
  match den with
  | O => 0%float
  | _ => Py.int_truediv (Z.of_nat num) (Z.of_nat den)
  end.

Definition compute_classification_metrics (predictions : list EnsembleScore)
    (ground_truth : gmap string Z) (threshold : float) : EvaluationResult :=
  let '(tp, fp, fn) := counts predictions ground_truth threshold in
  let p := ratio tp (tp + fp) in
  let r := ratio tp (tp + fn) in
  {| precision := p;
     recall := r;
     f1 := if Py.truthy (p + r)%float then (2 * p * r / (p + r))%float else 0%float |}.

End Evaluation.

(** ** explainability.py *)

Module Explainability.

Section with_builtins.
(** The builtin rendering [f"{x:.2f}"] of a float. *)
Variable format_2f : float -> string.
(** The builtin [sorted(items, key=lambda item: abs(item[1]), reverse=True)]. *)
Variable sorted_by_abs_desc : list (string * float) -> list (string * float).

Definition build_explanations (feats : odict string float) (ensemble_score : EnsembleScore)
  : Explanation :=
  let sorted_features := sorted_by_abs_desc feats in
  {| ex_entity_id := es_entity_id ensemble_score;
     top_features := (take 3 sorted_features).*1;
     narrative :=
       "Ensemble score " +:+ format_2f (es_score ensemble_score)
       +:+ " derived from models: "
       +:+ String.concat ", "
             (map (fun '(m, x) => m +:+ "=" +:+ format_2f x) (breakdown ensemble_score)) |}.
End with_builtins.

End Explainability.

(** ** pipeline.py: the inference run *)

Module Inference.

Section with_builtins.
Variable libm : Libm.
Variable format_2f : float -> string.
Variable sorted_by_abs_desc : list (string * float) -> list (string * float).

(** [data_ingestion.get_recent_trades()]: the trades of every source, in
    order. *)
Definition get_recent_trades (p : InsiderDetectionPipeline) : list TradeEvent :=
  mjoin (data_ingestion p).

Definition _load_trade_events (p : InsiderDetectionPipeline) : list TradeEvent :=
  match markets_of_interest p with
  | None => get_recent_trades p
  | Some markets =>
      filter (fun trade => market_id trade ∈ markets) (get_recent_trades p)
  end.

(** [{vector.entity_id: vector for vector in feature_vectors}] *)
Definition feature_lookup (fvs : list FeatureVector) : odict string FeatureVector :=
  fold_left (fun acc vector => dset acc (entity_id vector) vector) fvs [].

Definition _build_explanations (p : InsiderDetectionPipeline)
    (fvs : list FeatureVector) (scores : list EnsembleScore) : list Explanation :=
  match explainability p with
  | None => []
  | Some _ =>
      omap (fun score =>
              vector ← dget (feature_lookup fvs) (es_entity_id score);
              Some (Explainability.build_explanations format_2f sorted_by_abs_desc
                      (features vector) score))
           scores
  end.

(** [run_inference]: the alerts returned and the pipeline object afterwards. *)
Definition run_inference (p : InsiderDetectionPipeline)
  : list Alert * InsiderDetectionPipeline :=
  let trade_events := _load_trade_events p in
  let '(fvs0, st) := FeatureStore.compute_features (feature_store p) trade_events in
  let fvs := Pipeline._enrich_with_sequences libm p trade_events fvs0 in
  let predictions := Pipeline._generate_predictions p fvs in
  let scores := Pipeline._run_anomaly_detectors p fvs in
  let combined_scores := EnsembleCombiner.combine (ensemble p) predictions in
  let new_explanations := _build_explanations p fvs combined_scores in
  let new_alerts := create_alerts format_2f (alert_dispatcher p) combined_scores in
  (new_alerts,
   {| data_ingestion := data_ingestion p;
      feature_store := st;
      model_zoo := model_zoo p;
      ensemble := ensemble p;
      alert_dispatcher := dispatch (alert_dispatcher p) new_alerts;
      sequence_module := sequence_module p;
      graph_module := graph_module p;
      anomaly_module := anomaly_module p;
      explainability := explainability p;
      markets_of_interest := markets_of_interest p;
      alerts := new_alerts;
      explanations := new_explanations;
      anomaly_scores := scores |}).
End with_builtins.

End Inference.

(** ** Further notions used in the statements *)

(** A label that [_profit_proxy] counts as winning. *)
Definition winning (o : string) : Prop := Py.lower o = "yes" ∨ Py.lower o = "win".

(** The edges that [graph] lists for [a]. *)
Definition edges_at (graph : GraphModule.graph_t) (a : string) : list GraphEdge :=
  default [] (dget graph a).

(** The distinct items of a list, in the order in which they first occur. *)
Definition first_seen (l : list string) : list string :=
  fold_left (λ acc x, if decide (x ∈ acc) then acc else acc ++ [x]) l [].

(** The pair of trades [(ti, tj)] is one that [build_wallet_graph] weighs:
    both are trades of market [m], [ti] before [tj] in the batch. *)
Definition weighed (trades : list TradeEvent) (ti tj : TradeEvent) : Prop :=
  ∃ m, (ti, tj) ∈ pairs_of (filter (λ t, market_id t = m) trades).

(** The label that [compute_classification_metrics] reads for a prediction. *)
Definition label_of (ground_truth : gmap string Z) (prediction : EnsembleScore) : Z :=
  default 0 (ground_truth !! es_entity_id prediction).

(** Whether a prediction's score reaches the threshold. *)
Definition flagged (threshold : float) (prediction : EnsembleScore) : bool :=
  (threshold <=? es_score prediction)%float.

(** The feature vectors that [run_inference] computes, after the optional
    sequence enrichment, and the combined scores it derives from them. *)
Definition inference_vectors (libm : Libm) (p : InsiderDetectionPipeline)
  : list FeatureVector :=
  Pipeline._enrich_with_sequences libm p (Inference._load_trade_events p)
    (FeatureStore.compute_features (feature_store p) (Inference._load_trade_events p)).1.

Definition inference_scores (libm : Libm) (p : InsiderDetectionPipeline)
  : list EnsembleScore :=
  EnsembleCombiner.combine (ensemble p)
    (Pipeline._generate_predictions p (inference_vectors libm p)).

(** The severities in increasing order of urgency. *)
Definition severity_rank (s : string) : nat :=
  if decide (s = "critical") then 3
  else if decide (s = "high") then 2
  else if decide (s = "medium") then 1
  else 0.

(** * Properties *)

(** ** Insertion-ordered dictionaries *)

Section odict_facts.
Context {K V : Type} `{EqDecision K}.
Implicit Types (d : odict K V) (k : K) (v : V).

Lemma dget_dset d k v k' :
  dget (dset d k v) k' = if decide (k = k') then Some v else dget d k'.
Proof.
  induction d as [|[k0 v0] d IH]; csimpl.
  - repeat case_decide; congruence.
  - destruct (decide (k0 = k)) as [->|Hne]; csimpl.
    + repeat case_decide; congruence.
    + rewrite IH. repeat case_decide; congruence.
Qed.

Lemma dget_dset_eq d k v : dget (dset d k v) k = Some v.
Proof. rewrite dget_dset. by case_decide. Qed.

Lemma dget_dset_ne d k v k' : k ≠ k' → dget (dset d k v) k' = dget d k'.
Proof. intros ?. rewrite dget_dset. by case_decide. Qed.

Lemma elem_of_dkeys d k : k ∈ dkeys d ↔ is_Some (dget d k).
Proof.
  unfold dkeys. induction d as [|[k0 v0] d IH]; csimpl.
  - split; [by intros ?%elem_of_nil | by intros [? ?]].
  - rewrite elem_of_cons, IH. case_decide; subst.
    + split; eauto.
    + split; [intros [?|?]; congruence || done | by right].
Qed.

Lemma not_elem_of_dkeys d k : k ∉ dkeys d ↔ dget d k = None.
Proof. rewrite elem_of_dkeys, eq_None_not_Some. done. Qed.

Lemma dkeys_dset d k v :
  dkeys (dset d k v) = if decide (k ∈ dkeys d) then dkeys d else dkeys d ++ [k].
Proof.
  unfold dkeys. induction d as [|[k0 v0] d IH]; csimpl.
  - done.
  - destruct (decide (k0 = k)) as [->|Hne]; csimpl.
    + rewrite decide_True by left. done.
    + rewrite IH. destruct (decide (k ∈ d.*1)) as [Hin|Hin].
      * rewrite decide_True by (by right). done.
      * rewrite decide_False; [done|]. intros [?|?]%elem_of_cons; congruence.
Qed.

Lemma elem_of_dkeys_dset d k v k' : k' ∈ dkeys (dset d k v) ↔ k' = k ∨ k' ∈ dkeys d.
Proof.
  rewrite !elem_of_dkeys, dget_dset.
  destruct (decide (k = k')) as [->|?].
  - split; [by left | by eexists].
  - split; [by right | by intros [?|?]; [congruence|]].
Qed.

Lemma NoDup_dkeys_dset d k v : NoDup (dkeys d) → NoDup (dkeys (dset d k v)).
Proof.
  intros Hnd. rewrite dkeys_dset. case_decide; [done|].
  apply NoDup_app. split_and!; [done| |apply NoDup_singleton].
  intros x Hx ->%list_elem_of_singleton. done.
Qed.

Lemma dget_Some_elem_of d k v : dget d k = Some v → (k, v) ∈ d.
Proof.
  induction d as [|[k0 v0] d IH]; csimpl; [done|].
  case_decide; subst.
  - intros [= ->]. left.
  - intros ?. right. auto.
Qed.

Lemma elem_of_dget_Some d k v : NoDup (dkeys d) → (k, v) ∈ d → dget d k = Some v.
Proof.
  unfold dkeys. induction d as [|[k0 v0] d IH]; csimpl.
  - by intros _ ?%elem_of_nil.
  - intros [Hnotin Hnd]%NoDup_cons [Heq|Hin]%elem_of_cons.
    + injection Heq as -> ->. by rewrite decide_True.
    + case_decide; subst; [|auto].
      exfalso. apply Hnotin. by apply (list_elem_of_fmap_2 fst) in Hin.
Qed.

Lemma dset_fresh d k v : k ∉ dkeys d → dset d k v = d ++ [(k, v)].
Proof.
  unfold dkeys. induction d as [|[k0 v0] d IH]; csimpl; [done|].
  intros Hnotin. apply not_elem_of_cons in Hnotin as [Hne Hnotin].
  rewrite decide_False by done. by rewrite IH.
Qed.

Lemma dset_Forall (P : V → Prop) d k v :
  Forall (λ kv, P kv.2) d → P v → Forall (λ kv, P kv.2) (dset d k v).
Proof.
  intros Hd Hv. induction Hd as [|[k0 v0] d Hk0 Hd IH]; csimpl.
  - by repeat constructor.
  - case_decide; constructor; done.
Qed.

Lemma dset_not_nil d k v : dset d k v ≠ [].
Proof. destruct d as [|[k0 v0] d]; csimpl; [done|]. by case_decide. Qed.
End odict_facts.

Lemma fold_left_established {A B} (P : A → Prop) (f : A → B → A) (l : list B)
    (x : B) (a : A) :
  x ∈ l → (∀ acc, P (f acc x)) → (∀ acc y, P acc → P (f acc y)) → P (fold_left f l a).
Proof.
  intros Hx Hest Hkeep. revert a. induction Hx as [x l|x y l Hx IH]; intros a; simpl.
  - generalize (f a x) (Hest a). clear Hest.
    induction l as [|z l IH]; intros b Hb; simpl; [done|]. by apply IH, Hkeep.
  - by apply IH.
Qed.

Lemma fold_left_inv {A B} (P : A → Prop) (f : A → B → A) (l : list B) (a : A) :
  P a → (∀ acc x, P acc → x ∈ l → P (f acc x)) → P (fold_left f l a).
Proof.
  revert a. induction l as [|x l IH]; intros a Ha Hstep; simpl; [done|].
  apply IH.
  - apply Hstep; [done | left].
  - intros acc y Hacc Hy. apply Hstep; [done | by right].
Qed.


(** ** Feature store *)

Section feature_store_facts.
Import FeatureStore.
Implicit Types (st : storage) (trades : list TradeEvent) (a : string).

Lemma compute_features_cons st t l :
  compute_features st (t :: l) =
  ((compute_one st t).1 :: (compute_features (compute_one st t).2 l).1,
   (compute_features (compute_one st t).2 l).2).
Proof. simpl. by destruct (compute_features _ l). Qed.

Lemma compute_features_app st l1 l2 :
  compute_features st (l1 ++ l2) =
  ((compute_features st l1).1 ++ (compute_features (compute_features st l1).2 l2).1,
   (compute_features (compute_features st l1).2 l2).2).
Proof.
  revert st. induction l1 as [|t l1 IH]; intros st.
  - simpl. by destruct (compute_features st l2).
  - rewrite <-app_comm_cons, !compute_features_cons, IH. done.
Qed.

Lemma compute_features_length st trades :
  length (compute_features st trades).1 = length trades.
Proof.
  revert st. induction trades as [|t l IH]; intros st; simpl; [done|].
  specialize (IH (compute_one st t).2).
  destruct (compute_features _ l). simpl in *. by rewrite IH.
Qed.

(** After a batch, an account's history is its history before, followed by
    the batch's vectors for that account, in order. *)
Lemma compute_features_history st trades a :
  default [] ((compute_features st trades).2 !! a) =
  default [] (st !! a) ++
    filter (λ v, entity_id v = a) (compute_features st trades).1.
Proof.
  revert st. induction trades as [|t l IH]; intros st; simpl.
  - by rewrite filter_nil, app_nil_r.
  - specialize (IH (compute_one st t).2).
    destruct (compute_features _ l) as [o s]. simpl in *. rewrite IH.
    rewrite filter_cons. simpl.
    destruct (decide (account_id t = a)) as [<-|Hne].
    + rewrite lookup_insert_eq. simpl. by rewrite <-app_assoc.
    + by rewrite lookup_insert_ne.
Qed.

Lemma compute_features_entities st trades :
  entity_id <$> (compute_features st trades).1 = account_id <$> trades.
Proof.
  revert st. induction trades as [|t l IH]; intros st; [done|].
  rewrite compute_features_cons. csimpl. by rewrite IH.
Qed.

Lemma filter_entities_nil st trades a :
  Forall (λ u, account_id u ≠ a) trades →
  filter (λ v, entity_id v = a) (compute_features st trades).1 = [].
Proof.
  intros Hall. revert st.
  induction Hall as [|u l Hu Hall IH]; intros st; [done|].
  rewrite compute_features_cons. cbn [fst].
  rewrite filter_cons_False; [apply IH | done].
Qed.

(** The vector computed for a trade that follows [pre] in a batch. *)
Lemma compute_features_at st pre t post :
  (compute_features st (pre ++ t :: post)).1 !! length pre =
  Some (compute_one (compute_features st pre).2 t).1.
Proof.
  rewrite compute_features_app, compute_features_cons. cbn [fst].
  rewrite lookup_app_r by (rewrite compute_features_length; lia).
  by rewrite compute_features_length, Nat.sub_diag.
Qed.

Lemma avg_trade_size_compute_one st t :
  avg_trade_size (compute_one st t).1 =
  Some (_rolling_average st (account_id t) (size t)).
Proof. done. Qed.

Lemma rolling_average_first st a x :
  default [] (st !! a) = [] → _rolling_average st a x = x.
Proof. unfold _rolling_average. by intros ->. Qed.

Lemma rolling_average_next st a x v prev :
  latest_features st a = Some v →
  avg_trade_size v = Some prev →
  _rolling_average st a x = (0.5 * prev + 0.5 * x)%float.
Proof.
  unfold _rolling_average, latest_features, avg_trade_size.
  by intros -> ->.
Qed.

(** The latest stored vector of an account after a batch in which its last
    trade is [t0]. *)
Lemma latest_features_after st pre t0 mid :
  Forall (λ u, account_id u ≠ account_id t0) mid →
  latest_features (compute_features st (pre ++ t0 :: mid)).2 (account_id t0) =
  Some (compute_one (compute_features st pre).2 t0).1.
Proof.
  intros Hmid. unfold latest_features.
  rewrite compute_features_history, compute_features_app, compute_features_cons.
  cbn [fst]. rewrite filter_app, filter_cons_True by done.
  rewrite (filter_entities_nil _ mid) by done.
  rewrite !app_assoc. apply last_snoc.
Qed.

Lemma latest_features_skip st pre a :
  Forall (λ u, account_id u ≠ a) pre →
  latest_features (compute_features st pre).2 a = latest_features st a.
Proof.
  intros Hpre. unfold latest_features.
  by rewrite compute_features_history, filter_entities_nil, app_nil_r.
Qed.
End feature_store_facts.


(** C6: the [avg_trade_size] of an account's first-ever trade is the trade's
    size; each later trade of the account gets half the average stored for the
    account's previous trade plus half its own size, whether the previous trade
    is in the same batch or in the store from an earlier call; so sizes S1 then
    S2 give S1 and 0.5*S1 + 0.5*S2; and the result depends on the order in
    which the account's trades are processed. *)
Theorem C6_rolling_average :
  (∀ (st : FeatureStore.storage) pre t post,
     default [] (st !! account_id t) = [] →
     Forall (λ u, account_id u ≠ account_id t) pre →
     ∃ v, (FeatureStore.compute_features st (pre ++ t :: post)).1 !! length pre = Some v ∧
          entity_id v = account_id t ∧
          FeatureStore.avg_trade_size v = Some (size t)) ∧
  (∀ (st : FeatureStore.storage) pre t0 mid t post,
     account_id t0 = account_id t →
     Forall (λ u, account_id u ≠ account_id t) mid →
     ∃ v0 v prev,
       (FeatureStore.compute_features st (pre ++ t0 :: mid ++ t :: post)).1
         !! length pre = Some v0 ∧
       (FeatureStore.compute_features st (pre ++ t0 :: mid ++ t :: post)).1
         !! (length pre + S (length mid))%nat = Some v ∧
       FeatureStore.avg_trade_size v0 = Some prev ∧
       FeatureStore.avg_trade_size v = Some (0.5 * prev + 0.5 * size t)%float) ∧
  (∀ (st : FeatureStore.storage) pre t post vprev prev,
     FeatureStore.latest_features st (account_id t) = Some vprev →
     FeatureStore.avg_trade_size vprev = Some prev →
     Forall (λ u, account_id u ≠ account_id t) pre →
     ∃ v, (FeatureStore.compute_features st (pre ++ t :: post)).1 !! length pre = Some v ∧
          FeatureStore.avg_trade_size v = Some (0.5 * prev + 0.5 * size t)%float) ∧
  (∀ (st : FeatureStore.storage) t1 t2,
     default [] (st !! account_id t1) = [] →
     account_id t2 = account_id t1 →
     FeatureStore.avg_trade_size <$> (FeatureStore.compute_features st [t1; t2]).1 =
     [Some (size t1); Some (0.5 * size t1 + 0.5 * size t2)%float]) ∧
  (FeatureStore.avg_trade_size <$> (FeatureStore.compute_features ∅ [Ex.s2; Ex.s4; Ex.s8]).1
     = [Some 2; Some 3; Some 5.5]%float ∧
   FeatureStore.avg_trade_size <$> (FeatureStore.compute_features ∅ [Ex.s8; Ex.s4; Ex.s2]).1
     = [Some 8; Some 6; Some 4]%float).
Proof.
  split_and!.
  - intros st pre t post Hnew Hpre. eexists. split; [apply compute_features_at|].
    split; [done|]. rewrite avg_trade_size_compute_one. f_equal.
    apply rolling_average_first.
    by rewrite compute_features_history, filter_entities_nil, Hnew.
  - intros st pre t0 mid t post Hacc Hmid. do 3 eexists. split_and!.
    + apply compute_features_at.
    + replace (pre ++ t0 :: mid ++ t :: post) with ((pre ++ t0 :: mid) ++ t :: post)
        by (by rewrite <-app_assoc).
      replace (length pre + S (length mid))%nat with (length (pre ++ t0 :: mid))
        by (by rewrite length_app).
      apply compute_features_at.
    + apply avg_trade_size_compute_one.
    + rewrite avg_trade_size_compute_one. f_equal.
      eapply rolling_average_next; [|apply avg_trade_size_compute_one].
      rewrite <-Hacc in *. by apply latest_features_after.
  - intros st pre t post vprev prev Hlatest Havg Hpre.
    eexists. split; [apply compute_features_at|].
    rewrite avg_trade_size_compute_one. f_equal.
    eapply rolling_average_next; [|done].
    by rewrite latest_features_skip.
  - intros st t1 t2 Hnew Hacc.
    rewrite !compute_features_cons. cbn [fst fmap list_fmap FeatureStore.compute_features].
    rewrite !avg_trade_size_compute_one. do 2 f_equal.
    + f_equal. by apply rolling_average_first.
    + f_equal. rewrite Hacc. eapply rolling_average_next.
      * apply (latest_features_after st [] t1 []). constructor.
      * rewrite avg_trade_size_compute_one. f_equal.
        by apply rolling_average_first.
  - vm_compute. reflexivity.
  - vm_compute. reflexivity.
Qed.

Lemma C6_rolling_average_witness :
  (∃ v, (FeatureStore.compute_features ∅ ([Ex.bob1] ++ Ex.s2 :: [Ex.s4])).1 !! 1%nat = Some v ∧
        entity_id v = "alice" ∧ FeatureStore.avg_trade_size v = Some 2%float) ∧
  (∃ v0 v prev,
     (FeatureStore.compute_features ∅ ([] ++ Ex.s2 :: [Ex.bob1] ++ Ex.s4 :: [])).1
       !! 0%nat = Some v0 ∧
     (FeatureStore.compute_features ∅ ([] ++ Ex.s2 :: [Ex.bob1] ++ Ex.s4 :: [])).1
       !! 2%nat = Some v ∧
     FeatureStore.avg_trade_size v0 = Some prev ∧
     FeatureStore.avg_trade_size v = Some (0.5 * prev + 0.5 * 4)%float).
Proof.
  split.
  - apply (proj1 C6_rolling_average ∅ [Ex.bob1] Ex.s2 [Ex.s4]).
    + reflexivity.
    + repeat constructor. discriminate.
  - apply (proj1 (proj2 C6_rolling_average) ∅ [] Ex.s2 [Ex.bob1] Ex.s4 []).
    + reflexivity.
    + repeat constructor. discriminate.
Defined.

(** ** Model registry *)

(** C7: [register] raises exactly when the wrapper's name is already a key
    of the registry; it raises at once, leaving the registry as it was; with
    a fresh name it returns, the wrapper is what [get] then finds under its
    name, every other name is as before, and the wrapper is iterated last. *)
Theorem C7_register_unique_names (zoo : ModelZoo.t) (wrapper : ModelWrapper) :
  ((∃ e, (ModelZoo.register zoo wrapper).1 = Raise e) ↔ name wrapper ∈ dkeys zoo) ∧
  (name wrapper ∈ dkeys zoo →
     ∃ msg, ModelZoo.register zoo wrapper = (Raise (ValueError msg), zoo)) ∧
  (name wrapper ∉ dkeys zoo →
     ∃ zoo', ModelZoo.register zoo wrapper = (Ok (), zoo') ∧
       ModelZoo.get zoo' (name wrapper) = Ok wrapper ∧
       (∀ n, n ≠ name wrapper → ModelZoo.get zoo' n = ModelZoo.get zoo n) ∧
       ModelZoo.iter_models zoo' = ModelZoo.iter_models zoo ++ [wrapper]).
Proof.
  unfold ModelZoo.register. split_and!.
  - case_bool_decide; simpl; split; try done.
    + by eexists.
    + by intros [? ?].
  - intros Hin. rewrite bool_decide_eq_true_2 by done. by eexists.
  - intros Hnotin. rewrite bool_decide_eq_false_2 by done.
    eexists. split; [done|]. unfold ModelZoo.get, ModelZoo.iter_models. split_and!.
    + by rewrite dget_dset_eq.
    + intros n Hn. by rewrite dget_dset_ne.
    + rewrite dset_fresh by done. unfold dvalues. by rewrite fmap_app.
Qed.

Lemma C7_register_unique_names_witness :
  (∃ msg, ModelZoo.register [("m", Ex.const_model "m" 1)] (Ex.const_model "m" 0) =
          (Raise (ValueError msg), [("m", Ex.const_model "m" 1)])) ∧
  (∃ zoo', ModelZoo.register [("m", Ex.const_model "m" 1)] (Ex.const_model "n" 0) =
           (Ok (), zoo') ∧
     ModelZoo.get zoo' "n" = Ok (Ex.const_model "n" 0) ∧
     (∀ n, n ≠ "n" → ModelZoo.get zoo' n = ModelZoo.get [("m", Ex.const_model "m" 1)] n) ∧
     ModelZoo.iter_models zoo' =
     ModelZoo.iter_models [("m", Ex.const_model "m" 1)] ++ [Ex.const_model "n" 0]).
Proof.
  split.
  - apply (proj1 (proj2 (C7_register_unique_names
                           [("m", Ex.const_model "m" 1)] (Ex.const_model "m" 0)))).
    vm_compute. left.
  - apply (proj2 (proj2 (C7_register_unique_names
                           [("m", Ex.const_model "m" 1)] (Ex.const_model "n" 0)))).
    vm_compute. intros Hin. apply list_elem_of_singleton in Hin. discriminate.
Defined.

(** ** Alert classifier *)

(** C4: with the default thresholds a score is critical from 0.9, else high
    from 0.7, else medium from 0.5, else info; the six boundary scores classify
    as stated; and [create_alerts] emits, in order, an alert for exactly the
    scores not classified info, so no emitted alert has severity info. *)
Theorem C4_severity_tiers :
  (∀ s, _determine_severity default_dispatcher s =
        if (0.9 <=? s)%float then "critical"
        else if (0.7 <=? s)%float then "high"
        else if (0.5 <=? s)%float then "medium"
        else "info") ∧
  _determine_severity default_dispatcher <$> [0.9; 0.89999; 0.7; 0.69999; 0.5; 0.49999]%float
    = ["critical"; "high"; "high"; "medium"; "medium"; "info"] ∧
  (∀ fmt d scores, Forall (λ a, severity a ≠ "info") (create_alerts fmt d scores)) ∧
  (∀ fmt d scores,
     (λ a, (al_entity_id a, al_score a, severity a)) <$> create_alerts fmt d scores =
     (λ s, (es_entity_id s, es_score s, _determine_severity d (es_score s))) <$>
       filter (λ s, _determine_severity d (es_score s) ≠ "info") scores).
Proof.
  split_and!.
  - done.
  - vm_compute. reflexivity.
  - intros fmt d scores. induction scores as [|s scores IH]; simpl; [constructor|].
    case_bool_decide; [done|]. by constructor.
  - intros fmt d scores. induction scores as [|s scores IH]; [done|].
    cbn [create_alerts]. rewrite filter_cons.
    case_bool_decide as Hinfo.
    + rewrite decide_False by (by intros []). done.
    + rewrite decide_True by done. csimpl. by rewrite IH.
Qed.

(** ** Ensemble combiner *)

Section ensemble_facts.
Import EnsembleCombiner.
Variable weights : weights_t.

Lemma accumulate_from (model_scores : odict string float) (a b : float) :
  fold_left
    (λ '(total_weight, weighted_sum) '(n, score),
       let weight := default 0%float (weights !! n) in
       ((total_weight + weight)%float, (weighted_sum + weight * score)%float))
    model_scores (a, b) =
  (fold_left (λ acc x, (acc + x)%float)
     (map (λ '(n, _), default 0%float (weights !! n)) model_scores) a,
   fold_left (λ acc x, (acc + x)%float)
     (map (λ '(n, s), default 0%float (weights !! n) * s)%float model_scores) b).
Proof.
  revert a b. induction model_scores as [|[n s] ms IH]; intros a b; simpl; [done|].
  apply IH.
Qed.

Lemma accumulate_sums (model_scores : odict string float) :
  accumulate weights model_scores =
  (Py.sum (map (λ '(n, _), default 0%float (weights !! n)) model_scores),
   Py.sum (map (λ '(n, s), default 0%float (weights !! n) * s)%float model_scores)).
Proof. apply accumulate_from. Qed.

Lemma weighted_average_spec (model_scores : odict string float) :
  model_scores ≠ [] →
  _weighted_average weights model_scores = spec_combined_score weights model_scores.
Proof.
  intros Hne. unfold _weighted_average, spec_combined_score.
  destruct model_scores as [|kv ms]; [done|].
  case_bool_decide; [done|].
  rewrite accumulate_sums. unfold Py.truthy.
  by destruct (_ =? 0)%float.
Qed.

Lemma group_nonempty (predictions : list ModelPrediction) :
  Forall (λ kv, kv.2 ≠ []) (group predictions).
Proof.
  unfold group. apply fold_left_inv; [constructor|].
  intros acc p Hacc _. apply (dset_Forall (λ v, v ≠ [])); [exact Hacc|].
  apply dset_not_nil.
Qed.

Lemma elem_of_combine (predictions : list ModelPrediction) (es : EnsembleScore) :
  es ∈ combine weights predictions ↔
  (es_entity_id es, breakdown es) ∈ group predictions ∧
  es_score es = _weighted_average weights (breakdown es).
Proof.
  unfold combine. rewrite list_elem_of_fmap. split.
  - intros ([e ms] & -> & Hin). done.
  - intros [Hin Hscore]. exists (es_entity_id es, breakdown es).
    split; [|done]. destruct es. simpl in *. by subst.
Qed.

Lemma group_snoc (predictions : list ModelPrediction) (p : ModelPrediction) :
  group (predictions ++ [p]) =
  dset (group predictions) (mp_entity_id p)
    (dset (default [] (dget (group predictions) (mp_entity_id p)))
       (model_name p) (mp_score p)).
Proof. unfold group. by rewrite fold_left_app. Qed.

Lemma last_score_snoc (predictions : list ModelPrediction) p e m :
  last_score (predictions ++ [p]) e m =
  if decide (pkey p = (e, m)) then Some (mp_score p) else last_score predictions e m.
Proof.
  unfold last_score. rewrite filter_app, filter_cons, filter_nil.
  case_decide; [by rewrite last_snoc | by rewrite app_nil_r].
Qed.

(** What [combine] has grouped under entity [e] and model [m] is the score
    of the last prediction about them. *)
Lemma group_lookup (predictions : list ModelPrediction) e m :
  dget2 (group predictions) e m = last_score predictions e m.
Proof.
  induction predictions as [|p l IH] using rev_ind; [done|].
  rewrite group_snoc, last_score_snoc. unfold dget2 in *. rewrite dget_dset.
  unfold pkey. destruct (decide (mp_entity_id p = e)) as [<-|Hne]; simpl.
  - rewrite dget_dset. destruct (decide (model_name p = m)) as [<-|Hnm].
    + by rewrite decide_True.
    + rewrite decide_False by congruence. rewrite <-IH.
      by destruct (dget (group l) (mp_entity_id p)).
  - rewrite decide_False by congruence. done.
Qed.

Lemma group_keys_NoDup (predictions : list ModelPrediction) :
  NoDup (dkeys (group predictions)).
Proof.
  unfold group. apply fold_left_inv; [constructor|].
  intros acc p Hacc _. by apply NoDup_dkeys_dset.
Qed.

Lemma group_inner_NoDup (predictions : list ModelPrediction) :
  Forall (λ kv, NoDup (dkeys kv.2)) (group predictions).
Proof.
  unfold group. apply fold_left_inv; [constructor|].
  intros acc p Hacc _.
  apply (dset_Forall (λ v, NoDup (dkeys v))); [exact Hacc|].
  apply NoDup_dkeys_dset.
  destruct (dget acc (mp_entity_id p)) as [inner|] eqn:Hget; simpl; [|constructor].
  apply dget_Some_elem_of in Hget. rewrite Forall_forall in Hacc.
  apply (Hacc _ Hget).
Qed.

Lemma elem_of_group_keys (predictions : list ModelPrediction) e :
  e ∈ dkeys (group predictions) ↔ ∃ p, p ∈ predictions ∧ mp_entity_id p = e.
Proof.
  induction predictions as [|p l IH] using rev_ind.
  - split; [by intros ?%elem_of_nil | by intros (? & ?%elem_of_nil & _)].
  - rewrite group_snoc, elem_of_dkeys_dset, IH. split.
    + intros [->|(q & Hq & <-)].
      * exists p. split; [|done]. apply elem_of_app. right. left.
      * exists q. split; [|done]. apply elem_of_app. by left.
    + intros (q & Hq & <-). apply elem_of_app in Hq as [Hq|Hq].
      * right. by exists q.
      * apply list_elem_of_singleton in Hq as ->. by left.
Qed.

(** An element of [combine]'s result is the entry grouped for its entity. *)
Lemma elem_of_combine_dget (predictions : list ModelPrediction) (es : EnsembleScore) :
  es ∈ combine weights predictions ↔
  dget (group predictions) (es_entity_id es) = Some (breakdown es) ∧
  es_score es = _weighted_average weights (breakdown es).
Proof.
  rewrite elem_of_combine. split; intros [Hin Hscore]; (split; [|done]).
  - apply elem_of_dget_Some; [apply group_keys_NoDup | done].
  - by apply dget_Some_elem_of.
Qed.
End ensemble_facts.


(** C2: every score that [combine] returns has a non-empty breakdown and is
    the specification's combined score of it: the unweighted mean without
    configured weights; otherwise weighted sum over total weight, an unlisted
    model weighing 0; the unweighted mean again when the total weight is zero.
    Scores 0.2 and 0.8 combine to 0.5 without weights and to 0.2 with weights
    1 and 0. *)
Theorem C2_weighted_average :
  (∀ weights predictions es,
     es ∈ EnsembleCombiner.combine weights predictions →
     breakdown es ≠ [] ∧
     es_score es = spec_combined_score weights (breakdown es)) ∧
  (∀ weights model_scores,
     model_scores ≠ [] →
     EnsembleCombiner._weighted_average weights model_scores =
     spec_combined_score weights model_scores) ∧
  EnsembleCombiner.combine ∅ [Ex.pred "A" "e" 0.2; Ex.pred "B" "e" 0.8] =
    [ {| es_entity_id := "e"; es_score := 0.5;
         breakdown := [("A", 0.2%float); ("B", 0.8%float)] |} ] ∧
  EnsembleCombiner.combine {[ "A" := 1%float; "B" := 0%float ]}
      [Ex.pred "A" "e" 0.2; Ex.pred "B" "e" 0.8] =
    [ {| es_entity_id := "e"; es_score := 0.2;
         breakdown := [("A", 0.2%float); ("B", 0.8%float)] |} ].
Proof.
  split_and!.
  - intros weights predictions es [Hin Hscore]%elem_of_combine.
    assert (breakdown es ≠ []) as Hne.
    { pose proof (group_nonempty predictions) as Hall.
      rewrite Forall_forall in Hall. apply (Hall _ Hin). }
    split; [done|]. rewrite Hscore. by apply weighted_average_spec.
  - intros. by apply weighted_average_spec.
  - vm_compute. reflexivity.
  - vm_compute. reflexivity.
Qed.

Lemma C2_weighted_average_witness :
  breakdown {| es_entity_id := "e"; es_score := 0.5;
               breakdown := [("A", 0.2%float); ("B", 0.8%float)] |} ≠ [] ∧
  0.5%float = spec_combined_score ∅ [("A", 0.2%float); ("B", 0.8%float)].
Proof.
  apply (proj1 C2_weighted_average ∅ [Ex.pred "A" "e" 0.2; Ex.pred "B" "e" 0.8]).
  vm_compute. left.
Defined.

Lemma generate_predictions_count (p : InsiderDetectionPipeline)
    (fvs : list FeatureVector) (w : ModelWrapper) (a : string) :
  w ∈ ModelZoo.iter_models (model_zoo p) →
  (length (filter (λ fv, entity_id fv = a) fvs) ≤
   length (filter (λ q, pkey q = (a, name w)) (Pipeline._generate_predictions p fvs)))%nat.
Proof.
  intros Hw. unfold Pipeline._generate_predictions.
  assert (∀ fv, entity_id fv = a →
            (1 ≤ length (filter (λ q, pkey q = (a, name w))
                   (ModelZoo.iter_models (model_zoo p) ≫= λ m, [ModelZoo.predict m fv])))%nat)
    as Hone.
  { intros fv Ha. revert Hw. generalize (ModelZoo.iter_models (model_zoo p)).
    intros ms Hw. induction Hw as [w ms|w w' ms Hw IHw];
      rewrite bind_cons, filter_app, length_app.
    - rewrite filter_cons_True; [simpl; lia|]. unfold pkey. simpl. by rewrite Ha.
    - lia. }
  induction fvs as [|fv fvs IH]; [done|].
  rewrite bind_cons, filter_app, length_app, filter_cons.
  case_decide as Ha; [|lia]. simpl. specialize (Hone fv Ha). lia.
Qed.

(** C9: in every score that [combine] returns, the breakdown holds for each
    model the score of the last prediction about that entity and model, and
    the combined score is computed from that breakdown alone; the pipeline
    hands [combine] at least as many predictions about an account and a
    registered model as the batch has trades of the account, one per feature
    vector; so with two trades of one account only the second prediction of a
    model is kept. *)
Theorem C9_last_duplicate_wins :
  (∀ weights predictions es,
     es ∈ EnsembleCombiner.combine weights predictions →
     (∀ m, dget (breakdown es) m = last_score predictions (es_entity_id es) m) ∧
     es_score es = EnsembleCombiner._weighted_average weights (breakdown es)) ∧
  (∀ (p : InsiderDetectionPipeline) st trades w a,
     w ∈ ModelZoo.iter_models (model_zoo p) →
     (length (filter (λ t, account_id t = a) trades) ≤
      length (filter (λ q, pkey q = (a, name w))
                (Pipeline._generate_predictions p
                   (FeatureStore.compute_features st trades).1)))%nat) ∧
  (let p := Ex.pipeline [("size", Ex.size_model)] ∅ None None in
   let predictions :=
     Pipeline._generate_predictions p
       (FeatureStore.compute_features (feature_store p) [Ex.s2; Ex.s4]).1 in
   (λ q, (pkey q, mp_score q)) <$> predictions =
     [ (("alice", "size"), 2%float); (("alice", "size"), 3%float) ] ∧
   EnsembleCombiner.combine (ensemble p) predictions =
     [ {| es_entity_id := "alice"; es_score := 3; breakdown := [("size", 3%float)] |} ]).
Proof.
  split_and!.
  - intros weights predictions es [Hget Hscore]%elem_of_combine_dget.
    split; [|done]. intros m. rewrite <-group_lookup. unfold dget2.
    by rewrite Hget.
  - intros p st trades w a Hw.
    etransitivity; [|by apply generate_predictions_count].
    apply Nat.eq_le_incl.
    rewrite <-(length_fmap entity_id (filter _ (FeatureStore.compute_features _ _).1)).
    rewrite <-(length_fmap account_id (filter _ trades)).
    f_equal. revert st. induction trades as [|t l IH]; intros st; [done|].
    rewrite compute_features_cons. cbn [fst]. rewrite !filter_cons. simpl.
    case_decide; csimpl; [f_equal|]; apply IH.
  - vm_compute. split; reflexivity.
Qed.

Lemma C9_last_duplicate_wins_witness :
  (∀ m, dget [("A", 0.3%float)] m =
        last_score [Ex.pred "A" "e" 0.2; Ex.pred "A" "e" 0.3] "e" m) ∧
  0.3%float = EnsembleCombiner._weighted_average ∅ [("A", 0.3%float)].
Proof.
  apply (proj1 C9_last_duplicate_wins ∅ [Ex.pred "A" "e" 0.2; Ex.pred "A" "e" 0.3]
           {| es_entity_id := "e"; es_score := 0.3; breakdown := [("A", 0.3%float)] |}).
  vm_compute. left.
Defined.

(** *** Reordering the predictions *)

Lemma existsb_Permutation {A} (f : A → bool) (l k : list A) :
  l ≡ₚ k → existsb f l = existsb f k.
Proof.
  induction 1 as [|x l k _ IH|x y l|l k j _ IH1 _ IH2]; simpl.
  - done.
  - by rewrite IH.
  - by destruct (f x), (f y).
  - congruence.
Qed.

Lemma exact_total_Permutation (l k : list float) :
  l ≡ₚ k → Py.exact_total l = Py.exact_total k.
Proof.
  unfold Py.exact_total.
  induction 1 as [|x l k _ IH|x y l|l k j _ IH1 _ IH2]; simpl; lia.
Qed.

(** [statistics.mean] does not depend on the order of its items. *)
Lemma mean_Permutation (l k : list float) : l ≡ₚ k → Py.mean l = Py.mean k.
Proof.
  intros Hperm. unfold Py.mean.
  rewrite !(existsb_Permutation _ l k Hperm), (exact_total_Permutation l k Hperm).
  by rewrite (Permutation_length Hperm).
Qed.

Lemma odict_Permutation {V} (d1 d2 : odict string V) :
  NoDup (dkeys d1) → NoDup (dkeys d2) →
  (∀ k, dget d1 k = dget d2 k) → d1 ≡ₚ d2.
Proof.
  intros Hnd1 Hnd2 Hget. apply NoDup_Permutation.
  - by eapply NoDup_fmap_1.
  - by eapply NoDup_fmap_1.
  - intros [k v]. split; intros Hin.
    + apply dget_Some_elem_of. rewrite <-Hget. by apply elem_of_dget_Some.
    + apply dget_Some_elem_of. rewrite Hget. by apply elem_of_dget_Some.
Qed.

Lemma filter_key_at_most_one (l : list ModelPrediction) (k : string * string) :
  NoDup (pkey <$> l) →
  filter (λ p, pkey p = k) l = [] ∨ ∃ p, filter (λ p, pkey p = k) l = [p].
Proof.
  induction l as [|p l IH]; csimpl; [by left|].
  intros [Hnotin Hnd]%NoDup_cons. rewrite filter_cons.
  case_decide as Hk; [|by apply IH]. right. exists p. f_equal.
  apply elem_of_nil_inv. intros q [Hq Hin]%list_elem_of_filter.
  apply Hnotin. rewrite Hk, <-Hq. by apply list_elem_of_fmap_2.
Qed.

Lemma last_score_Permutation (l l' : list ModelPrediction) e m :
  l ≡ₚ l' → NoDup (pkey <$> l) → last_score l e m = last_score l' e m.
Proof.
  intros Hperm Hnd. unfold last_score.
  assert (filter (λ p, pkey p = (e, m)) l ≡ₚ filter (λ p, pkey p = (e, m)) l') as Hf
    by (by rewrite Hperm).
  destruct (filter_key_at_most_one l (e, m) Hnd) as [Hnil|[p Hone]].
  - rewrite Hnil in *. by apply Permutation_nil_l in Hf as <-.
  - rewrite Hone in *. by apply Permutation_singleton_l in Hf as <-.
Qed.

(** C5 as the code has it: reordering predictions that hold at most one
    prediction per entity and model leaves every entity's breakdown the same
    mapping, with the same entries, and [combine] returns one score for each
    of the same entities; the combined score of an entity is the same when no
    weights are configured. *)
Theorem C5_reordering_predictions
    (weights : gmap string float) (predictions predictions' : list ModelPrediction) :
  predictions ≡ₚ predictions' →
  NoDup (pkey <$> predictions) →
  (∀ e m, dget2 (EnsembleCombiner.group predictions) e m =
          dget2 (EnsembleCombiner.group predictions') e m) ∧
  (∀ es, es ∈ EnsembleCombiner.combine weights predictions →
     ∃ es', es' ∈ EnsembleCombiner.combine weights predictions' ∧
            es_entity_id es' = es_entity_id es ∧
            (∀ m, dget (breakdown es') m = dget (breakdown es) m) ∧
            breakdown es' ≡ₚ breakdown es ∧
            (weights = ∅ → es_score es' = es_score es)) ∧
  length (EnsembleCombiner.combine weights predictions') =
  length (EnsembleCombiner.combine weights predictions).
Proof.
  intros Hperm Hnd.
  assert (∀ e m, dget2 (EnsembleCombiner.group predictions) e m =
                 dget2 (EnsembleCombiner.group predictions') e m) as Hsame.
  { intros e m. rewrite !group_lookup. by apply last_score_Permutation. }
  assert (∀ e, e ∈ dkeys (EnsembleCombiner.group predictions) ↔
               e ∈ dkeys (EnsembleCombiner.group predictions')) as Hkeys.
  { intros e. rewrite !elem_of_group_keys. by setoid_rewrite Hperm. }
  split_and!; [done| |].
  - intros es [Hget Hscore]%elem_of_combine_dget.
    assert (is_Some (dget (EnsembleCombiner.group predictions') (es_entity_id es)))
      as [bd' Hget'].
    { apply elem_of_dkeys, Hkeys, elem_of_dkeys. by eexists. }
    assert (∀ m, dget bd' m = dget (breakdown es) m) as Hbd.
    { intros m. specialize (Hsame (es_entity_id es) m). unfold dget2 in Hsame.
      by rewrite Hget, Hget' in Hsame. }
    assert (bd' ≡ₚ breakdown es) as Hbdperm.
    { apply odict_Permutation; [| |done].
      - pose proof (group_inner_NoDup predictions') as Hall.
        rewrite Forall_forall in Hall.
        apply (Hall _ (dget_Some_elem_of _ _ _ Hget')).
      - pose proof (group_inner_NoDup predictions) as Hall.
        rewrite Forall_forall in Hall.
        apply (Hall _ (dget_Some_elem_of _ _ _ Hget)). }
    exists {| es_entity_id := es_entity_id es;
              es_score := EnsembleCombiner._weighted_average weights bd';
              breakdown := bd' |}.
    split_and!; try done.
    + by apply elem_of_combine_dget.
    + intros ->. simpl. rewrite Hscore.
      unfold EnsembleCombiner._weighted_average.
      destruct bd' as [|kv' bd'], (breakdown es) as [|kv bd];
        try done; try (by apply Permutation_nil_cons in Hbdperm);
        try (by symmetry in Hbdperm; apply Permutation_nil_cons in Hbdperm).
      rewrite !bool_decide_eq_true_2 by done.
      apply mean_Permutation. unfold dvalues. by rewrite Hbdperm.
  - unfold EnsembleCombiner.combine. rewrite !length_map.
    rewrite <-(length_fmap fst (EnsembleCombiner.group predictions')).
    rewrite <-(length_fmap fst (EnsembleCombiner.group predictions)).
    apply Permutation_length, NoDup_Permutation.
    + apply group_keys_NoDup.
    + apply group_keys_NoDup.
    + intros e. symmetry. apply Hkeys.
Qed.

Lemma abc_cba_Permutation : Ex.abc ≡ₚ Ex.cba.
Proof. change Ex.cba with (reverse Ex.abc). symmetry. apply reverse_Permutation. Qed.

Lemma abc_NoDup : NoDup (pkey <$> Ex.abc).
Proof. apply (bool_decide_unpack _). vm_compute. exact I. Qed.

Lemma C5_reordering_predictions_witness :
  (∀ e m, dget2 (EnsembleCombiner.group Ex.abc) e m =
          dget2 (EnsembleCombiner.group Ex.cba) e m) ∧
  (∀ es, es ∈ EnsembleCombiner.combine ∅ Ex.abc →
     ∃ es', es' ∈ EnsembleCombiner.combine ∅ Ex.cba ∧
            es_entity_id es' = es_entity_id es ∧
            (∀ m, dget (breakdown es') m = dget (breakdown es) m) ∧
            breakdown es' ≡ₚ breakdown es ∧
            ((∅ : gmap string float) = ∅ → es_score es' = es_score es)) ∧
  length (EnsembleCombiner.combine ∅ Ex.cba) = length (EnsembleCombiner.combine ∅ Ex.abc).
Proof.
  apply (C5_reordering_predictions ∅ Ex.abc Ex.cba).
  - exact abc_cba_Permutation.
  - exact abc_NoDup.
Defined.

(** Two binary64 values that the comparison [=?] tells apart are different. *)
Lemma float_eqb_false_neq (x y : float) :
  (x =? x)%float = true → (x =? y)%float = false → x ≠ y.
Proof. intros Hx Hxy <-. congruence. Qed.

(** C5 as stated fails: with weights 1 for each of three models, the scores
    0.1, 0.2, 0.3 of one entity combine to 0.20000000000000004 in the order
    a, b, c and to 0.19999999999999998 in the order c, b, a, because the
    weighted sum is accumulated in binary64 in the order of the breakdown. *)
Lemma C5_counterexample :
  Ex.abc ≡ₚ Ex.cba ∧
  NoDup (pkey <$> Ex.abc) ∧
  es_score <$> EnsembleCombiner.combine Ex.unit_weights Ex.abc = [0.20000000000000004%float] ∧
  es_score <$> EnsembleCombiner.combine Ex.unit_weights Ex.cba = [0.19999999999999998%float] ∧
  0.20000000000000004%float ≠ 0.19999999999999998%float.
Proof.
  split_and!.
  - exact abc_cba_Permutation.
  - exact abc_NoDup.
  - vm_compute. reflexivity.
  - vm_compute. reflexivity.
  - apply float_eqb_false_neq; vm_compute; reflexivity.
Qed.

(** ** Binary64 facts *)

Section float_facts.

Lemma SFcompare_Lt_Gt (x y : spec_float) :
  SFcompare x y = Some Lt → SFcompare y x = Some Gt.
Proof.
  destruct x as [sx|sx| |sx mx ex], y as [sy|sy| |sy my ey]; simpl;
    try destruct sx; try destruct sy; try done.
  all: pose proof (Pos.compare_antisym mx my) as Hm; unfold Pos.compare in Hm.
  all: rewrite (Z.compare_antisym ex ey), Hm.
  all: destruct (ex ?= ey); simpl; [|done..].
  all: by destruct (Pos.compare_cont Eq mx my).
Qed.

(** A threshold strictly above a weight is not reached by it. *)
Lemma ltb_leb_false (x y : float) : (x <? y)%float = true → (y <=? x)%float = false.
Proof.
  rewrite FloatAxioms.ltb_spec, FloatAxioms.leb_spec. unfold SFltb, SFleb.
  destruct (SFcompare (Prim2SF x) (Prim2SF y)) as [[]|] eqn:Hcmp; try done.
  intros _. by rewrite (SFcompare_Lt_Gt _ _ Hcmp).
Qed.

Lemma is_finite_SF (x : float) :
  is_finite x = true →
  (∃ s, Prim2SF x = S754_zero s) ∨ (∃ s m e, Prim2SF x = S754_finite s m e).
Proof.
  unfold is_finite, is_nan, is_infinity.
  rewrite !FloatAxioms.eqb_spec, FloatAxioms.abs_spec.
  destruct (Prim2SF x) as [s|s| |s m e]; [by left; eexists| | |by right; do 3 eexists].
  - by destruct s.
  - done.
Qed.

Lemma sub_diag_finite (x : float) : is_finite x = true → (x - x)%float = 0%float.
Proof.
  intros Hfin. apply Prim2SF_inj. rewrite FloatAxioms.sub_spec.
  destruct (is_finite_SF x Hfin) as [[s ->]|(s & m & e & ->)].
  - by destruct s.
  - unfold SF64sub, SFsub. by rewrite Z.sub_diag.
Qed.

Lemma div_zero_max (x : float) :
  is_finite x = true → (0 / Py.max3 x x 1)%float = 0%float.
Proof.
  intros Hfin. unfold Py.max3, Py.max2.
  replace (if (x <? x)%float then x else x) with x by (by destruct (x <? x)%float).
  destruct (x <? 1)%float eqn:Hlt; [by vm_compute|].
  apply Prim2SF_inj. rewrite FloatAxioms.div_spec.
  rewrite FloatAxioms.ltb_spec in Hlt. unfold SFltb in Hlt.
  destruct (is_finite_SF x Hfin) as [[s Hx]|(s & m & e & Hx)]; rewrite Hx in *.
  - by destruct s.
  - by destruct s.
Qed.
End float_facts.

(** ** Coordination graph: construction *)

Section graph_build_facts.
Import GraphModule.
Implicit Types (adj : adjacency_t) (t : TradeEvent).

Lemma add_market_pairs threshold adj (market_trades : list TradeEvent) :
  add_market threshold adj market_trades =
  fold_left (λ adj '(ti, tj), add_pair threshold adj ti tj) (pairs_of market_trades) adj.
Proof.
  revert adj. induction market_trades as [|t l IH]; intros adj; simpl; [done|].
  rewrite fold_left_app, IH. f_equal.
  generalize adj. clear. induction l as [|u l IH]; intros adj; simpl; [done|].
  apply IH.
Qed.

Lemma trades_by_market_snoc (trades : list TradeEvent) t :
  trades_by_market (trades ++ [t]) =
  dset (trades_by_market trades) (market_id t)
    (default [] (dget (trades_by_market trades) (market_id t)) ++ [t]).
Proof. unfold trades_by_market. by rewrite fold_left_app. Qed.

(** A market's entry is the batch's trades in that market, in order. *)
Lemma trades_by_market_lookup (trades : list TradeEvent) (m : string) :
  dget (trades_by_market trades) m =
  match filter (λ t, market_id t = m) trades with
  | [] => None
  | l => Some l
  end.
Proof.
  induction trades as [|t l IH] using rev_ind; [done|].
  rewrite trades_by_market_snoc, dget_dset, filter_app, filter_cons, filter_nil.
  destruct (decide (market_id t = m)) as [<-|Hne].
  - rewrite IH. by destruct (filter _ l).
  - by rewrite app_nil_r.
Qed.

Lemma dget2_adj_add adj a b w x y :
  dget2 (adj_add adj a b w) x y =
  if decide ((a, b) = (x, y)) then Some (default 0 (dget2 adj a b) + w)%float
  else dget2 adj x y.
Proof.
  unfold adj_add, dget2. rewrite dget_dset.
  destruct (decide (a = x)) as [<-|Hne]; simpl.
  - rewrite dget_dset. destruct (decide (b = y)) as [<-|Hne].
    + rewrite decide_True by done. by destruct (dget adj a).
    + rewrite decide_False by congruence. by destruct (dget adj a).
  - by rewrite decide_False by congruence.
Qed.

Lemma build_adjacency_two threshold t1 t2 :
  market_id t1 = market_id t2 →
  build_adjacency threshold [t1; t2] = add_pair threshold [] t1 t2.
Proof.
  intros Hm. unfold build_adjacency, trades_by_market. simpl.
  by destruct (decide (market_id t1 = market_id t2)).
Qed.

(** Like trades at the same instant weigh 1. *)
Lemma co_trading_weight_like t1 t2 :
  outcome t1 = outcome t2 → size t1 = size t2 → is_finite (size t1) = true →
  timestamp t1 = timestamp t2 →
  _co_trading_weight t1 t2 = 1%float.
Proof.
  intros Ho Hs Hfin Ht. unfold _co_trading_weight.
  rewrite bool_decide_eq_true_2 by done.
  rewrite <-Hs, <-Ht, Z.sub_diag, sub_diag_finite by done.
  change (abs 0) with 0%float. rewrite div_zero_max by done.
  by vm_compute.
Qed.

Lemma build_adjacency_pairs threshold (trades : list TradeEvent) :
  build_adjacency threshold trades =
  fold_left
    (λ adj '(_, market_trades),
       fold_left (λ adj '(ti, tj), add_pair threshold adj ti tj)
         (pairs_of market_trades) adj)
    (trades_by_market trades) [].
Proof.
  unfold build_adjacency. generalize (@nil (string * odict string float)).
  induction (trades_by_market trades) as [|[m mts] l IH]; intros adj; simpl; [done|].
  by rewrite IH, add_market_pairs.
Qed.

Lemma add_pair_below threshold adj ti tj :
  (threshold <=? _co_trading_weight ti tj)%float = false →
  add_pair threshold adj ti tj = adj.
Proof. unfold add_pair. by intros ->. Qed.

Lemma add_pair_lookup threshold adj ti tj x y :
  (threshold <=? _co_trading_weight ti tj)%float = true →
  account_id ti ≠ account_id tj →
  dget2 (add_pair threshold adj ti tj) x y =
  if decide ((x, y) = (account_id ti, account_id tj) ∨ (x, y) = (account_id tj, account_id ti))
  then Some (default 0 (dget2 adj x y) + _co_trading_weight ti tj)%float
  else dget2 adj x y.
Proof.
  intros Hthr Hne. unfold add_pair. rewrite Hthr, !dget2_adj_add.
  destruct (decide ((x, y) = (account_id ti, account_id tj) ∨
                    (x, y) = (account_id tj, account_id ti))) as [[Heq|Heq]|Hnone].
  - injection Heq as -> ->.
    rewrite (decide_False (P := (account_id tj, account_id ti) = _)) by congruence.
    by rewrite decide_True.
  - injection Heq as -> ->. rewrite decide_True by done.
    by rewrite decide_False by congruence.
  - rewrite !decide_False; [done|intros Heq..]; apply Hnone; [by left | by right].
Qed.

(** A qualifying pair of trades of one account adds its weight twice to the
    account's entry for itself. *)
Lemma add_pair_self threshold adj ti tj :
  (threshold <=? _co_trading_weight ti tj)%float = true →
  account_id ti = account_id tj →
  dget2 (add_pair threshold adj ti tj) (account_id ti) (account_id ti) =
  Some (default 0 (dget2 adj (account_id ti) (account_id ti))
        + _co_trading_weight ti tj + _co_trading_weight ti tj)%float.
Proof.
  intros Hthr Heq. unfold add_pair. rewrite Hthr, <-Heq, !dget2_adj_add.
  by rewrite !decide_True by done.
Qed.
End graph_build_facts.


(** C3: the weight of a pair of trades is direction factor times size
    similarity over time gap plus one; [build_wallet_graph] visits, market by
    market, every trade with every later trade of the same market; a pair
    below the threshold changes nothing, a pair at or above it adds its weight
    to both accounts' entries for each other and to nothing else; like trades
    at the same instant weigh 1, which links the two accounts at the default
    threshold and leaves the graph empty at any threshold above 1; and a pair
    of accounts that qualifies in two markets has the two weights summed. *)
Theorem C3_co_trading_edges :
  (∀ a b,
     GraphModule._co_trading_weight a b =
     ((if bool_decide (outcome a = outcome b) then 1 else 0.5)
      * (1 - abs (size a - size b) / Py.max3 (size a) (size b) 1)
      / (abs (Py.total_seconds (timestamp a - timestamp b)) + 1))%float) ∧
  (∀ threshold trades,
     GraphModule.build_adjacency threshold trades =
     fold_left
       (λ adj '(_, market_trades),
          fold_left (λ adj '(ti, tj), GraphModule.add_pair threshold adj ti tj)
            (pairs_of market_trades) adj)
       (GraphModule.trades_by_market trades) [] ∧
     ∀ m, dget (GraphModule.trades_by_market trades) m =
          match filter (λ t, market_id t = m) trades with [] => None | l => Some l end) ∧
  (∀ threshold adj ti tj,
     ((threshold <=? GraphModule._co_trading_weight ti tj)%float = false →
      GraphModule.add_pair threshold adj ti tj = adj) ∧
     ((threshold <=? GraphModule._co_trading_weight ti tj)%float = true →
      account_id ti ≠ account_id tj →
      ∀ x y,
        dget2 (GraphModule.add_pair threshold adj ti tj) x y =
        if decide ((x, y) = (account_id ti, account_id tj) ∨
                   (x, y) = (account_id tj, account_id ti))
        then Some (default 0 (dget2 adj x y) + GraphModule._co_trading_weight ti tj)%float
        else dget2 adj x y)) ∧
  (∀ t1 t2,
     market_id t1 = market_id t2 → outcome t1 = outcome t2 →
     size t1 = size t2 → is_finite (size t1) = true →
     timestamp t1 = timestamp t2 →
     GraphModule._co_trading_weight t1 t2 = 1%float ∧
     (account_id t1 ≠ account_id t2 →
      GraphModule.build_wallet_graph GraphModule.default_threshold [t1; t2] =
      [ (account_id t1,
         [ {| source := account_id t1; target := account_id t2; weight := 1 |} ]);
        (account_id t2,
         [ {| source := account_id t2; target := account_id t1; weight := 1 |} ]) ]) ∧
     (∀ threshold, (1 <? threshold)%float = true →
        GraphModule.build_wallet_graph threshold [t1; t2] = [])) ∧
  GraphModule.build_wallet_graph GraphModule.default_threshold
    [Ex.a1; Ex.b1; Ex.a2; Ex.b2; Ex.c1] =
  [ ("A", [ {| source := "A"; target := "B"; weight := 2 |} ]);
    ("B", [ {| source := "B"; target := "A"; weight := 2 |} ]) ].
Proof.
  split_and!.
  - done.
  - intros threshold trades. split; [apply build_adjacency_pairs|].
    apply trades_by_market_lookup.
  - intros threshold adj ti tj. split; [apply add_pair_below|].
    intros Hthr Hne x y. by apply add_pair_lookup.
  - intros t1 t2 Hm Ho Hs Hfin Ht.
    pose proof (co_trading_weight_like t1 t2 Ho Hs Hfin Ht) as Hw.
    split_and!; [done| |].
    + intros Hne. unfold GraphModule.build_wallet_graph.
      rewrite build_adjacency_two by done.
      unfold GraphModule.add_pair. rewrite Hw.
      change (GraphModule.default_threshold <=? 1)%float with true.
      unfold GraphModule.adj_add. simpl.
      rewrite !decide_False by done. simpl.
      by change (0 + 1)%float with 1%float.
    + intros threshold Hthr. unfold GraphModule.build_wallet_graph.
      rewrite build_adjacency_two by done.
      unfold GraphModule.add_pair. rewrite Hw.
      by rewrite (ltb_leb_false _ _ Hthr).
  - vm_compute. reflexivity.
Qed.

Lemma C3_co_trading_edges_witness :
  GraphModule._co_trading_weight Ex.a1 Ex.b1 = 1%float ∧
  (account_id Ex.a1 ≠ account_id Ex.b1 →
   GraphModule.build_wallet_graph GraphModule.default_threshold [Ex.a1; Ex.b1] =
   [ (account_id Ex.a1,
      [ {| source := account_id Ex.a1; target := account_id Ex.b1; weight := 1 |} ]);
     (account_id Ex.b1,
      [ {| source := account_id Ex.b1; target := account_id Ex.a1; weight := 1 |} ]) ]) ∧
  (∀ threshold, (1 <? threshold)%float = true →
     GraphModule.build_wallet_graph threshold [Ex.a1; Ex.b1] = []).
Proof.
  apply (proj1 (proj2 (proj2 (proj2 C3_co_trading_edges))) Ex.a1 Ex.b1);
    vm_compute; reflexivity.
Defined.

(** ** Coordination graph: communities *)

Section communities.
Import GraphModule.
Local Open Scope nat_scope.
Variable graph : graph_t.

Local Abbreviation card := (base.size (C := gset string)).

Lemma visit_edges_spec (edges : list GraphEdge) (vis : gset string) (q : list string) :
  ∃ new, visit_edges edges vis q = (vis ∪ list_to_set new, q ++ new) ∧
         NoDup new ∧ ∀ x, x ∈ new ↔ x ∈ target <$> edges ∧ x ∉ vis.
Proof.
  unfold visit_edges. revert vis q.
  induction edges as [|e edges IH]; intros vis q; simpl.
  - exists []. split_and!.
    + f_equal; [set_solver | by rewrite app_nil_r].
    + constructor.
    + set_solver.
  - case_bool_decide as Hin.
    + destruct (IH vis q) as (new & -> & Hnd & Hnew). exists new.
      split_and!; [done..|]. intros x. rewrite Hnew. set_solver.
    + destruct (IH ({[target e]} ∪ vis) (q ++ [target e])) as (new & -> & Hnd & Hnew).
      exists (target e :: new). split_and!.
      * f_equal; [set_solver | by rewrite <-app_assoc].
      * constructor; [|done]. rewrite Hnew. set_solver.
      * intros x. rewrite !elem_of_cons, Hnew, not_elem_of_union, not_elem_of_singleton.
        change (list_fmap GraphEdge string target edges) with (target <$> edges).
        destruct (decide (x = target e)) as [->|Hne]; tauto.
Qed.

Lemma succs_nodes (u : string) : succs graph u ⊆ nodes_of graph.
Proof.
  unfold succs, nodes_of. intros x Hx.
  apply elem_of_list_to_set, list_elem_of_fmap in Hx as (e & -> & He).
  destruct (dget graph u) as [es|] eqn:Hget; simpl in He; [|by apply elem_of_nil in He].
  apply elem_of_union_r, elem_of_list_to_set.
  apply (list_elem_of_fmap_2 target). apply list_elem_of_join.
  exists es. split; [done|].
  apply dget_Some_elem_of in Hget. by apply (list_elem_of_fmap_2 snd) in Hget.
Qed.

(** The [while queue:] loop, started in a state where the visited nodes
    are the nodes [D] of earlier communities, the community so far and the
    queue, ends with fuel to spare. *)
Lemma bfs_spec (R : string → Prop) (D : gset string) (fuel : nat)
    (queue : list string) (visited community : gset string) :
  (∀ u v, R u → v ∈ succs graph u → R v) →
  NoDup queue →
  visited = D ∪ community ∪ list_to_set queue →
  D ## community → D ## list_to_set queue → community ## list_to_set queue →
  (∀ u, u ∈ D ∪ community → succs graph u ⊆ visited) →
  visited ⊆ nodes_of graph →
  length queue + card (nodes_of graph ∖ visited) ≤ fuel →
  (∀ x, x ∈ community ∪ list_to_set queue → R x) →
  ∃ c, bfs fuel graph queue visited community = Some (D ∪ c, c) ∧
       community ∪ list_to_set queue ⊆ c ∧ D ## c ∧ closed graph (D ∪ c) ∧
       D ∪ c ⊆ nodes_of graph ∧ ∀ x, x ∈ c → R x.
Proof.
  intros HR. revert queue visited community.
  induction fuel as [|fuel IH]; intros queue visited community
    Hnd Hvis HDc HDq Hcq Hclosed Hnodes Hfuel Hreach;
    destruct queue as [|cur rest]; simpl in Hfuel; try lia.
  1, 2: rewrite list_to_set_nil, union_empty_r_L in *; subst visited;
    exists community; by split_and!.
  simpl.
  destruct (visit_edges_spec (default [] (dget graph cur)) visited rest)
    as (new & -> & Hndnew & Hnew).
  assert (∀ x, x ∈ new ↔ x ∈ succs graph cur ∧ x ∉ visited) as Hnew'.
  { intros x. rewrite Hnew. unfold succs. by rewrite elem_of_list_to_set. }
  apply NoDup_cons in Hnd as [Hcur Hndrest].
  assert (list_to_set new ⊆ nodes_of graph ∖ visited) as Hsub.
  { intros x Hx%elem_of_list_to_set%Hnew'. pose proof (succs_nodes cur). set_solver. }
  destruct (IH (rest ++ new) (visited ∪ list_to_set new) ({[cur]} ∪ community))
    as (c & Hbfs & Hc1 & Hc2 & Hc3 & Hc4 & Hc5).
  - apply NoDup_app. split_and!; [done| |done].
    intros x Hx Hx'%Hnew'. set_solver.
  - rewrite list_to_set_app_L. set_solver.
  - set_solver.
  - rewrite list_to_set_app_L. apply disjoint_union_r. split; [set_solver|].
    intros x HxD Hx%elem_of_list_to_set%Hnew'. set_solver.
  - rewrite list_to_set_app_L. apply disjoint_union_r. split.
    + apply disjoint_union_l. split; [set_solver|set_solver].
    + intros x Hxc Hx%elem_of_list_to_set%Hnew'. set_solver.
  - intros u Hu x Hx. destruct (decide (u = cur)) as [->|Hne].
    + destruct (decide (x ∈ visited)); [set_solver|].
      apply elem_of_union_r, elem_of_list_to_set, Hnew'. done.
    + apply elem_of_union_l. apply (Hclosed u); [set_solver|done].
  - pose proof (succs_nodes cur). set_solver.
  - rewrite length_app.
    replace (nodes_of graph ∖ (visited ∪ list_to_set new))
      with ((nodes_of graph ∖ visited) ∖ list_to_set new) by set_solver.
    rewrite size_difference by done.
    pose proof (subseteq_size _ _ Hsub) as Hle.
    rewrite size_list_to_set in * by done. lia.
  - intros x Hx. rewrite list_to_set_app_L in Hx.
    destruct (decide (x ∈ new)) as [Hin|Hnin].
    + apply Hnew' in Hin as [Hin _]. apply (HR cur); [|done].
      apply Hreach. set_solver.
    + apply Hreach. set_solver.
  - exists c. split_and!; try done.
    rewrite list_to_set_app_L in Hc1. set_solver.
Qed.

Lemma found_closed (visited : gset string) (cs : list (gset string)) :
  found graph visited cs → closed graph visited.
Proof.
  intros (-> & _ & Hclosed & _). specialize (Hclosed (length cs)).
  by rewrite take_ge in Hclosed.
Qed.

Lemma found_nil : found graph ∅ [].
Proof.
  split_and!; [done| | |constructor|set_solver].
  - intros i j ci cj Hi. by rewrite lookup_nil in Hi.
  - intros n u. rewrite take_nil. set_solver.
Qed.

Lemma found_snoc (visited c : gset string) (cs : list (gset string)) (node : string) :
  found graph visited cs →
  visited ## c → closed graph (visited ∪ c) → visited ∪ c ⊆ nodes_of graph →
  node ∈ dkeys graph → node ∈ c →
  (∀ x, x ∈ c → rtc (has_edge graph) node x) →
  found graph (visited ∪ c) (cs ++ [c]).
Proof.
  intros (Hunion & Hdisj & Hclosed & Hsound & Hnodes) Hvc Hcl Hsub Hkey Hin Hreach.
  assert (∀ i ci, cs !! i = Some ci → ci ⊆ visited) as Hpart.
  { intros i ci Hi x Hx. rewrite Hunion. apply elem_of_union_list.
    exists ci. split; [|done]. by eapply list_elem_of_lookup_2. }
  split_and!.
  - rewrite union_list_app_L, <-Hunion. simpl. by rewrite union_empty_r_L.
  - intros i j ci cj Hi Hj Hij.
    apply lookup_snoc_Some in Hi as [[Hilt Hi]|[-> <-]];
      apply lookup_snoc_Some in Hj as [[Hjlt Hj]|[-> <-]].
    + by eapply Hdisj.
    + specialize (Hpart _ _ Hi). set_solver.
    + specialize (Hpart _ _ Hj). set_solver.
    + done.
  - intros n. destruct (decide (n ≤ length cs)) as [Hle|Hgt].
    + rewrite take_app_le by done. apply Hclosed.
    + rewrite take_ge by (rewrite length_app; simpl; lia).
      rewrite union_list_app_L, <-Hunion. simpl. by rewrite union_empty_r_L.
  - apply Forall_app. split; [done|]. constructor; [|constructor].
    by exists node.
  - done.
Qed.

Lemma key_in_nodes (node : string) : node ∈ dkeys graph → node ∈ nodes_of graph.
Proof. intros Hin. unfold nodes_of. by apply elem_of_union_l, elem_of_list_to_set. Qed.

(** The [for node in graph] loop over the keys still to come. *)
Lemma components_spec (fuel : nat) (nodes : list string)
    (visited : gset string) (cs : list (gset string)) :
  S (card (nodes_of graph)) ≤ fuel →
  (∀ n, n ∈ nodes → n ∈ dkeys graph) →
  found graph visited cs →
  ∃ cs', components fuel graph nodes visited cs = Some cs' ∧
         found graph (⋃ cs') cs' ∧ list_to_set nodes ∪ visited ⊆ ⋃ cs'.
Proof.
  intros Hfuel. revert visited cs.
  induction nodes as [|node rest IH]; intros visited cs Hkeys Hfound; simpl.
  - exists cs. pose proof Hfound as (Hunion & _). subst visited.
    split_and!; [done..|]. set_solver.
  - assert (∀ n, n ∈ rest → n ∈ dkeys graph) as Hkeys'
      by (intros n Hn; apply Hkeys; by right).
    case_bool_decide as Hvisited.
    + destruct (IH visited cs Hkeys' Hfound) as (cs' & -> & Hfound' & Hsub).
      exists cs'. split_and!; [done..|]. set_solver.
    + assert (node ∈ dkeys graph) as Hkey by (apply Hkeys; left).
      pose proof (found_closed _ _ Hfound) as Hclosed.
      destruct (bfs_spec (rtc (has_edge graph) node) visited fuel [node]
                  ({[node]} ∪ visited) ∅)
        as (c & -> & Hc1 & Hc2 & Hc3 & Hc4 & Hc5).
      * intros u v Hu Hv. by eapply rtc_r.
      * apply NoDup_singleton.
      * simpl. set_solver.
      * set_solver.
      * simpl. set_solver.
      * set_solver.
      * intros u Hu x Hx. apply elem_of_union_r. apply (Hclosed u); [set_solver|done].
      * destruct Hfound as (_ & _ & _ & _ & Hnodes).
        pose proof (key_in_nodes node Hkey). set_solver.
      * simpl.
        pose proof (subseteq_size (nodes_of graph ∖ ({[node]} ∪ visited)) (nodes_of graph))
          as Hle.
        assert (card (nodes_of graph ∖ ({[node]} ∪ visited)) ≤ card (nodes_of graph))
          by (apply Hle; set_solver).
        lia.
      * intros x Hx. simpl in Hx. assert (x = node) as -> by set_solver. done.
      * assert (node ∈ c) as Hnode by (apply Hc1; simpl; set_solver).
        destruct (IH (visited ∪ c) (cs ++ [c]) Hkeys') as (cs' & -> & Hfound' & Hsub).
        { by apply (found_snoc _ _ _ node). }
        exists cs'. split_and!; [done..|].
        intros x Hx. apply Hsub. set_solver.
Qed.

(** [detect_communities] returns: the fuel it starts with is enough. *)
Lemma detect_communities_found :
  ∃ cs, detect_communities graph = Some cs ∧
        found graph (⋃ cs) cs ∧ list_to_set (dkeys graph) ⊆ ⋃ cs.
Proof.
  unfold detect_communities.
  destruct (components_spec (S (card (nodes_of graph))) (dkeys graph) ∅ [])
    as (cs & Hcs & Hfound & Hsub); [done|done|apply found_nil|].
  exists cs. split_and!; [done..|]. set_solver.
Qed.

Lemma detect_communities_inv (cs : list (gset string)) :
  detect_communities graph = Some cs →
  found graph (⋃ cs) cs ∧ list_to_set (dkeys graph) ⊆ ⋃ cs.
Proof.
  destruct detect_communities_found as (cs' & -> & Hfound & Hsub).
  by intros [= <-].
Qed.

Lemma elem_of_union_take (cs : list (gset string)) (n : nat) (x : string) :
  x ∈ ⋃ take n cs ↔ ∃ k c, k < n ∧ cs !! k = Some c ∧ x ∈ c.
Proof.
  rewrite elem_of_union_list. split.
  - intros (c & Hc & Hx). apply list_elem_of_lookup in Hc as [k Hk].
    apply lookup_take_Some in Hk as [Hk Hlt]. by exists k, c.
  - intros (k & c & Hlt & Hk & Hx). exists c. split; [|done].
    apply list_elem_of_lookup. exists k. by apply lookup_take_Some.
Qed.

(** In a graph whose edges go both ways no edge leaves a community. *)
Lemma community_closed (visited : gset string) (cs : list (gset string))
    (i : nat) (c : gset string) :
  symmetric graph → found graph visited cs → cs !! i = Some c → closed graph c.
Proof.
  intros Hsym (_ & Hdisj & Hclosed & _) Hi u Hu v Hv.
  assert (v ∈ ⋃ take (S i) cs) as Hvi.
  { apply (Hclosed (S i) u); [|done]. apply elem_of_union_take.
    exists i, c. split_and!; [lia|done..]. }
  apply elem_of_union_take in Hvi as (k & ck & Hk & Hck & Hvk).
  destruct (decide (k = i)) as [->|Hne]; [congruence|].
  assert (u ∈ ⋃ take (S k) cs) as Huk.
  { apply (Hclosed (S k) v); [|by apply Hsym]. apply elem_of_union_take.
    exists k, ck. split_and!; [lia|done..]. }
  apply elem_of_union_take in Huk as (m & cm & Hm & Hcm & Hum).
  assert (m ≠ i) as Hmi by lia.
  specialize (Hdisj m i cm c Hcm Hi Hmi). set_solver.
Qed.

(** Every community holds a key of the graph and is connected from it. *)
Lemma community_sound (visited : gset string) (cs : list (gset string)) (c : gset string) :
  found graph visited cs → c ∈ cs →
  ∃ s, s ∈ dkeys graph ∧ s ∈ c ∧ ∀ x, x ∈ c → rtc (has_edge graph) s x.
Proof.
  intros (_ & _ & _ & Hsound & _) Hc. rewrite Forall_forall in Hsound. by apply Hsound.
Qed.

Lemma rtc_symmetric (x y : string) :
  symmetric graph → rtc (has_edge graph) x y → rtc (has_edge graph) y x.
Proof.
  intros Hsym. induction 1 as [|x y z Hxy _ IH]; [done|].
  eapply rtc_r; [done|]. by apply Hsym.
Qed.

Lemma rtc_closed (X : gset string) (x y : string) :
  closed graph X → x ∈ X → rtc (has_edge graph) x y → y ∈ X.
Proof.
  intros Hclosed Hx. induction 1 as [|x y z Hxy _ IH]; [done|].
  apply IH. by apply (Hclosed x).
Qed.

(** Pairwise disjoint communities that all equal one inhabited set are a
    single community. *)
Lemma communities_single (cs : list (gset string)) (X : gset string) (x : string) :
  pairwise_disjoint cs → x ∈ X → x ∈ ⋃ cs →
  (∀ i c, cs !! i = Some c → c = X) → cs = [X].
Proof.
  intros Hdisj HxX Hx Hall. destruct cs as [|c0 [|c1 cs]].
  - by apply elem_of_union_list in Hx as (? & ?%elem_of_nil & _).
  - f_equal. by apply (Hall 0).
  - exfalso. pose proof (Hall 0 c0 eq_refl) as H0.
    pose proof (Hall 1 c1 eq_refl) as H1.
    specialize (Hdisj 0 1 c0 c1 eq_refl eq_refl). subst.
    by apply (Hdisj ltac:(done) x).
Qed.
End communities.




(** ** Coordination graph: the graphs that [build_wallet_graph] returns *)

Section wallet_graph_facts.
Import GraphModule.
Implicit Types (adj : adjacency_t) (t : TradeEvent).

(** The dict comprehension that ends [build_wallet_graph]. *)
Lemma dget_graph adj (a : string) :
  dget (map (λ '(node, edges), (node, edges_of node edges)) adj) a =
  edges_of a <$> dget adj a.
Proof.
  induction adj as [|[k v] adj IH]; simpl; [done|].
  case_decide; by subst.
Qed.

Lemma dkeys_graph adj :
  dkeys (map (λ '(node, edges), (node, edges_of node edges)) adj) = dkeys adj.
Proof.
  unfold dkeys. induction adj as [|[k v] adj IH]; csimpl; [done|]. by rewrite <-IH.
Qed.

Lemma targets_edges_of (a : string) (edges : odict string float) :
  target <$> edges_of a edges = dkeys edges.
Proof.
  unfold edges_of, dkeys. induction edges as [|[k w] edges IH]; csimpl; [done|].
  by rewrite <-IH.
Qed.

Lemma has_edge_graph adj (a b : string) :
  has_edge (map (λ '(node, edges), (node, edges_of node edges)) adj) a b ↔
  is_Some (dget2 adj a b).
Proof.
  unfold has_edge, succs, dget2. rewrite dget_graph, elem_of_list_to_set.
  destruct (dget adj a) as [edges|]; simpl.
  - by rewrite targets_edges_of, elem_of_dkeys.
  - rewrite elem_of_nil. split; [done|]. by intros [? ?].
Qed.

Lemma is_Some_dget2_adj_add adj a b w x y :
  is_Some (dget2 (adj_add adj a b w) x y) ↔ (x, y) = (a, b) ∨ is_Some (dget2 adj x y).
Proof.
  rewrite dget2_adj_add. case_decide as Heq.
  - split; [left; congruence | by eexists].
  - split; [by right | intros [?|?]; [congruence|done]].
Qed.

Lemma dget2_Some_key adj a b : is_Some (dget2 adj a b) → a ∈ dkeys adj.
Proof.
  unfold dget2. intros [w Hw]. apply elem_of_dkeys.
  destruct (dget adj a); [by eexists|done].
Qed.

Lemma elem_of_dkeys_adj_add adj a b w k :
  k ∈ dkeys (adj_add adj a b w) ↔ k = a ∨ k ∈ dkeys adj.
Proof. unfold adj_add. apply elem_of_dkeys_dset. Qed.

(** What [build_wallet_graph] maintains on the adjacency: entries come in
    mirrored pairs, every key has an entry, and every key is an account
    satisfying [P]. *)
Lemma add_pair_inv (P : string → Prop) threshold adj ti tj :
  P (account_id ti) → P (account_id tj) →
  ((∀ a b, is_Some (dget2 adj a b) → is_Some (dget2 adj b a)) ∧
   (∀ a, a ∈ dkeys adj → ∃ b, is_Some (dget2 adj a b)) ∧
   (∀ a, a ∈ dkeys adj → P a)) →
  ((∀ a b, is_Some (dget2 (add_pair threshold adj ti tj) a b) →
           is_Some (dget2 (add_pair threshold adj ti tj) b a)) ∧
   (∀ a, a ∈ dkeys (add_pair threshold adj ti tj) →
         ∃ b, is_Some (dget2 (add_pair threshold adj ti tj) a b)) ∧
   (∀ a, a ∈ dkeys (add_pair threshold adj ti tj) → P a)).
Proof.
  intros Pi Pj (Hsym & Hne & HP). unfold add_pair.
  destruct (threshold <=? _)%float; [|done].
  split_and!.
  - intros a b. rewrite !is_Some_dget2_adj_add.
    intros [[= -> ->]|[[= -> ->]|Hab]]; [right; by left|by left|].
    right; right. by apply Hsym.
  - intros a. rewrite !elem_of_dkeys_adj_add.
    intros [->|[->|Ha]].
    + exists (account_id ti). rewrite !is_Some_dget2_adj_add. by left.
    + exists (account_id tj). rewrite !is_Some_dget2_adj_add. right; by left.
    + destruct (Hne a Ha) as [b Hb]. exists b.
      rewrite !is_Some_dget2_adj_add. by right; right.
  - intros a. rewrite !elem_of_dkeys_adj_add.
    intros [->|[->|Ha]]; [done..|]. by apply HP.
Qed.

Lemma elem_of_pairs_of {A} (l : list A) (x y : A) :
  (x, y) ∈ pairs_of l → x ∈ l ∧ y ∈ l.
Proof.
  induction l as [|z l IH]; simpl; [by intros ?%elem_of_nil|].
  intros [Hin|Hin]%elem_of_app.
  - apply list_elem_of_fmap in Hin as (y' & [= -> ->] & Hy). split; [left|by right].
  - destruct (IH Hin). split; by right.
Qed.

Lemma pairs_of_elem {A} (p q r : list A) (x y : A) :
  (x, y) ∈ pairs_of (p ++ x :: q ++ y :: r).
Proof.
  induction p as [|z p IH]; simpl.
  - apply elem_of_app. left. apply (list_elem_of_fmap_2 (pair x)).
    apply elem_of_app. right. left.
  - apply elem_of_app. by right.
Qed.

Lemma trades_by_market_NoDup (trades : list TradeEvent) :
  NoDup (dkeys (trades_by_market trades)).
Proof.
  unfold trades_by_market. apply fold_left_inv; [constructor|].
  intros acc t Hacc _. by apply NoDup_dkeys_dset.
Qed.

Lemma elem_of_trades_by_market (trades : list TradeEvent) (m : string)
    (market_trades : list TradeEvent) :
  (m, market_trades) ∈ trades_by_market trades →
  market_trades = filter (λ t, market_id t = m) trades.
Proof.
  intros Hin. apply elem_of_dget_Some in Hin; [|apply trades_by_market_NoDup].
  rewrite trades_by_market_lookup in Hin.
  by destruct (filter _ trades); simplify_eq.
Qed.

Lemma build_adjacency_inv (P : string → Prop) threshold (trades : list TradeEvent) :
  (∀ t, t ∈ trades → P (account_id t)) →
  (∀ a b, is_Some (dget2 (build_adjacency threshold trades) a b) →
          is_Some (dget2 (build_adjacency threshold trades) b a)) ∧
  (∀ a, a ∈ dkeys (build_adjacency threshold trades) →
        ∃ b, is_Some (dget2 (build_adjacency threshold trades) a b)) ∧
  (∀ a, a ∈ dkeys (build_adjacency threshold trades) → P a).
Proof.
  intros HP. rewrite build_adjacency_pairs.
  apply (fold_left_inv (λ adj,
    (∀ a b, is_Some (dget2 adj a b) → is_Some (dget2 adj b a)) ∧
    (∀ a, a ∈ dkeys adj → ∃ b, is_Some (dget2 adj a b)) ∧
    (∀ a, a ∈ dkeys adj → P a))).
  - split_and!; [by intros a b [? ?]|by intros a ?%elem_of_nil..].
  - intros adj [m mts] Hadj Hin. apply elem_of_trades_by_market in Hin as ->.
    apply (fold_left_inv (λ adj,
      (∀ a b, is_Some (dget2 adj a b) → is_Some (dget2 adj b a)) ∧
      (∀ a, a ∈ dkeys adj → ∃ b, is_Some (dget2 adj a b)) ∧
      (∀ a, a ∈ dkeys adj → P a))); [done|].
    intros adj' [ti tj] Hadj' [Hi Hj]%elem_of_pairs_of.
    apply list_elem_of_filter in Hi as [_ Hi], Hj as [_ Hj].
    apply add_pair_inv; auto.
Qed.

Lemma wallet_graph_symmetric threshold (trades : list TradeEvent) :
  symmetric (build_wallet_graph threshold trades).
Proof.
  intros a b. unfold build_wallet_graph. rewrite !has_edge_graph.
  apply (build_adjacency_inv (λ _, True)). done.
Qed.

(** The keys of a wallet graph are the accounts with an edge. *)
Lemma wallet_graph_keys threshold (trades : list TradeEvent) (a : string) :
  a ∈ dkeys (build_wallet_graph threshold trades) ↔
  ∃ b, has_edge (build_wallet_graph threshold trades) a b.
Proof.
  unfold build_wallet_graph. rewrite dkeys_graph. split.
  - intros Ha. destruct (build_adjacency_inv (λ _, True) threshold trades) as (_ & Hne & _);
      [done|]. destruct (Hne a Ha) as [b Hb]. exists b. by apply has_edge_graph.
  - intros [b Hb%has_edge_graph]. by eapply dget2_Some_key.
Qed.

Lemma wallet_graph_accounts threshold (trades : list TradeEvent) (a : string) :
  a ∈ dkeys (build_wallet_graph threshold trades) →
  ∃ t, t ∈ trades ∧ account_id t = a.
Proof.
  unfold build_wallet_graph. rewrite dkeys_graph.
  apply (build_adjacency_inv (λ a, ∃ t, t ∈ trades ∧ account_id t = a)).
  intros t Ht. by exists t.
Qed.

Lemma wallet_graph_reach_key threshold (trades : list TradeEvent) (s x : string) :
  s ∈ dkeys (build_wallet_graph threshold trades) →
  rtc (has_edge (build_wallet_graph threshold trades)) s x →
  x ∈ dkeys (build_wallet_graph threshold trades).
Proof.
  intros Hs. induction 1 as [|x y z Hxy _ IH]; [done|].
  apply IH. apply wallet_graph_keys. exists x. by apply wallet_graph_symmetric.
Qed.

(** The communities of a wallet graph partition its keys. *)
Lemma wallet_graph_communities threshold (trades : list TradeEvent) :
  ∃ cs, detect_communities (build_wallet_graph threshold trades) = Some cs ∧
        found (build_wallet_graph threshold trades) (⋃ cs) cs ∧
        ∀ x, x ∈ ⋃ cs ↔ x ∈ dkeys (build_wallet_graph threshold trades).
Proof.
  destruct (detect_communities_found (build_wallet_graph threshold trades))
    as (cs & Hcs & Hfound & Hsub).
  exists cs. split_and!; [done..|]. intros x. split.
  - intros (c & Hc & Hx)%elem_of_union_list.
    destruct (community_sound _ _ _ _ Hfound Hc) as (s & Hs & _ & Hreach).
    eapply wallet_graph_reach_key; eauto.
  - intros Hx. apply Hsub. by apply elem_of_list_to_set.
Qed.

(** Entries of the adjacency are never removed. *)
Lemma add_pair_keeps threshold adj ti tj x y :
  is_Some (dget2 adj x y) → is_Some (dget2 (add_pair threshold adj ti tj) x y).
Proof.
  intros Hxy. unfold add_pair. destruct (threshold <=? _)%float; [|done].
  rewrite !is_Some_dget2_adj_add. by right; right.
Qed.

Lemma add_pair_adds threshold adj ti tj :
  (threshold <=? _co_trading_weight ti tj)%float = true →
  is_Some (dget2 (add_pair threshold adj ti tj) (account_id ti) (account_id tj)).
Proof.
  intros Hthr. unfold add_pair. rewrite Hthr, !is_Some_dget2_adj_add. right; by left.
Qed.

(** A qualifying pair of trades of one market leaves an edge between their
    accounts, wherever the two trades stand in the batch. *)
Lemma wallet_graph_edge threshold (l1 l2 l3 : list TradeEvent) ti tj :
  market_id ti = market_id tj →
  (threshold <=? _co_trading_weight ti tj)%float = true →
  has_edge (build_wallet_graph threshold (l1 ++ ti :: l2 ++ tj :: l3))
    (account_id ti) (account_id tj).
Proof.
  intros Hm Hthr. unfold build_wallet_graph. apply has_edge_graph.
  rewrite build_adjacency_pairs.
  set (trades := l1 ++ ti :: l2 ++ tj :: l3).
  set (mts := filter (λ t, market_id t = market_id ti) trades).
  assert (mts = filter (λ t, market_id t = market_id ti) l1 ++
                ti :: filter (λ t, market_id t = market_id ti) l2 ++
                tj :: filter (λ t, market_id t = market_id ti) l3) as Hmts.
  { unfold mts, trades. rewrite filter_app, filter_cons_True by done.
    by rewrite filter_app, filter_cons_True by done. }
  assert ((market_id ti, mts) ∈ trades_by_market trades) as Hin.
  { apply dget_Some_elem_of. rewrite trades_by_market_lookup. fold mts.
    rewrite Hmts. by destruct (filter _ l1). }
  apply (fold_left_established
           (λ adj, is_Some (dget2 adj (account_id ti) (account_id tj))) _ _ _ _ Hin).
  - intros acc. apply (fold_left_established
           (λ adj, is_Some (dget2 adj (account_id ti) (account_id tj))) _ _ (ti, tj)).
    + rewrite Hmts. apply pairs_of_elem.
    + intros acc'. by apply add_pair_adds.
    + intros acc' [x y]. apply add_pair_keeps.
  - intros acc [m' mts'] Hacc. apply fold_left_inv; [done|].
    intros acc' [x y] Hacc' _. by apply add_pair_keeps.
Qed.

(** A community of a wallet graph that holds an account whose only edge is
    to itself holds nothing else. *)
Lemma wallet_graph_singleton threshold (trades : list TradeEvent)
    (cs : list (gset string)) (c : gset string) (a : string) :
  found (build_wallet_graph threshold trades) (⋃ cs) cs →
  c ∈ cs → a ∈ c →
  (∀ y, has_edge (build_wallet_graph threshold trades) a y → y = a) →
  c = {[a]}.
Proof.
  intros Hfound Hc Ha Honly.
  assert (∀ z, rtc (has_edge (build_wallet_graph threshold trades)) a z → z = a) as Hrtc.
  { intros z. induction 1 as [|x y z Hxy _ IH]; [done|].
    apply Honly in Hxy as ->. by apply IH. }
  destruct (community_sound _ _ _ _ Hfound Hc) as (s & _ & Hs & Hreach).
  assert (s = a) as ->.
  { apply Hrtc, rtc_symmetric; [apply wallet_graph_symmetric|]. by apply Hreach. }
  apply set_eq. intros x. rewrite elem_of_singleton. split.
  - intros Hx. by apply Hrtc, Hreach.
  - by intros ->.
Qed.
End wallet_graph_facts.



(** C1: [detect_communities] on a wallet graph returns pairwise disjoint
    communities whose members are exactly the accounts with at least one edge;
    when the trades are of accounts A, B and C, with an edge between A and B
    and no edge at C, it returns the one community {A, B}, of size 2, and C is
    in no community; on any graph it returns, with pairwise disjoint
    communities that cover the keys. *)
Theorem C1_communities :
  (∀ threshold trades,
     ∃ cs, GraphModule.detect_communities
             (GraphModule.build_wallet_graph threshold trades) = Some cs ∧
           pairwise_disjoint cs ∧
           ∀ x, (∃ c, c ∈ cs ∧ x ∈ c) ↔
                ∃ y, has_edge (GraphModule.build_wallet_graph threshold trades) x y) ∧
  (∀ threshold trades (A B C : string),
     A ≠ B →
     (∀ t, t ∈ trades → account_id t ∈ [A; B; C]) →
     has_edge (GraphModule.build_wallet_graph threshold trades) A B →
     (∀ y, ¬ has_edge (GraphModule.build_wallet_graph threshold trades) C y) →
     GraphModule.detect_communities (GraphModule.build_wallet_graph threshold trades)
       = Some [ {[A; B]} ] ∧
     base.size ({[A; B]} : gset string) = 2%nat ∧ C ∉ ({[A; B]} : gset string)) ∧
  (∀ graph,
     ∃ cs, GraphModule.detect_communities graph = Some cs ∧
           pairwise_disjoint cs ∧
           list_to_set (dkeys graph) ⊆ ⋃ cs ∧ ⋃ cs ⊆ GraphModule.nodes_of graph) ∧
  GraphModule.detect_communities
    (GraphModule.build_wallet_graph GraphModule.default_threshold
       [Ex.a1; Ex.b1; Ex.a2; Ex.b2; Ex.c1]) = Some [ {[ "A"; "B" ]} ].
Proof.
  split_and!.
  - intros threshold trades.
    destruct (wallet_graph_communities threshold trades) as (cs & Hcs & Hfound & Hkeys).
    exists cs. split_and!; [done|by destruct Hfound as (_ & ? & _)|].
    intros x. by rewrite <-elem_of_union_list, Hkeys, wallet_graph_keys.
  - intros threshold trades A B C HAB Hacc Hedge HC.
    set (g := GraphModule.build_wallet_graph threshold trades) in *.
    destruct (wallet_graph_communities threshold trades) as (cs & Hcs & Hfound & Hkeys).
    fold g in Hcs, Hfound, Hkeys.
    pose proof (wallet_graph_symmetric threshold trades) as Hsym. fold g in Hsym.
    assert (C ≠ A) as HCA by (intros ->; by apply (HC B)).
    assert (C ≠ B) as HCB by (intros ->; by apply (HC A), Hsym).
    assert (∀ x, x ∈ ⋃ cs ↔ x = A ∨ x = B) as Hcover.
    { intros x. rewrite Hkeys. split.
      - intros Hx. destruct (wallet_graph_accounts _ _ _ Hx) as (t & Ht & <-).
        specialize (Hacc t Ht). apply wallet_graph_keys in Hx as [y Hy].
        set_unfold in Hacc. destruct Hacc as [?|[?|[HtC|[]]]]; [by left|by right|].
        rewrite HtC in Hy. by apply HC in Hy.
      - intros [Heq|Heq]; subst x; apply wallet_graph_keys;
          [by exists B|exists A; by apply Hsym]. }
    assert (∀ i c, cs !! i = Some c → c = {[A; B]}) as Hall.
    { intros i c Hi. pose proof (community_closed g _ _ i c Hsym Hfound Hi) as Hclosed.
      destruct (community_sound g _ _ c Hfound) as (s & _ & Hs & _);
        [by eapply list_elem_of_lookup_2|].
      assert (c ⊆ ⋃ cs) as Hsub.
      { intros x Hx. apply elem_of_union_list. exists c.
        split; [by eapply list_elem_of_lookup_2|done]. }
      assert (A ∈ c ∧ B ∈ c) as [HA HB].
      { destruct (proj1 (Hcover s) (Hsub s Hs)) as [Heq|Heq]; subst s.
        - split; [done|]. by apply (Hclosed A).
        - split; [|done]. apply (Hclosed B); [done|]. by apply Hsym. }
      apply set_eq. intros x. rewrite elem_of_union, !elem_of_singleton. split.
      - intros Hx. by apply Hcover, Hsub.
      - by intros [Heq|Heq]; subst x. }
    split_and!.
    + rewrite Hcs. f_equal.
      destruct Hfound as (_ & Hdisj & _).
      apply (communities_single cs _ A); [done|set_solver|by apply Hcover; left|done].
    + rewrite size_union by set_solver. by rewrite !size_singleton.
    + set_solver.
  - intros graph. destruct (detect_communities_found graph) as (cs & Hcs & Hfound & Hsub).
    exists cs. destruct Hfound as (Hunion & Hdisj & _ & _ & Hnodes). done.
  - vm_compute. reflexivity.
Qed.

Lemma C1_communities_witness :
  GraphModule.detect_communities
    (GraphModule.build_wallet_graph GraphModule.default_threshold [Ex.a1; Ex.b1; Ex.c1])
    = Some [ {[ "A"; "B" ]} ] ∧
  base.size ({[ "A"; "B" ]} : gset string) = 2%nat ∧ "C" ∉ ({[ "A"; "B" ]} : gset string).
Proof.
  apply (proj1 (proj2 C1_communities) GraphModule.default_threshold
           [Ex.a1; Ex.b1; Ex.c1] "A" "B" "C").
  - discriminate.
  - intros t Ht. set_unfold in Ht. destruct Ht as [->|[->|[->|[]]]]; set_solver.
  - vm_compute. set_solver.
  - intros y. vm_compute. set_solver.
Defined.

(** C10: a qualifying pair of trades of one account adds the pair's weight
    twice to the account's entry for itself; wherever the two trades stand in
    a batch, the wallet graph then has an edge from the account to itself; an
    account whose only edge is that one is returned as the community of itself
    alone; so a batch of just two such trades gives a graph of one self-edge
    and the single community of that account. *)
Theorem C10_self_edge :
  (∀ threshold adj ti tj,
     (threshold <=? GraphModule._co_trading_weight ti tj)%float = true →
     account_id ti = account_id tj →
     dget2 (GraphModule.add_pair threshold adj ti tj) (account_id ti) (account_id ti) =
     Some (default 0 (dget2 adj (account_id ti) (account_id ti))
           + GraphModule._co_trading_weight ti tj
           + GraphModule._co_trading_weight ti tj)%float) ∧
  (∀ threshold l1 ti l2 tj l3,
     market_id ti = market_id tj → account_id ti = account_id tj →
     (threshold <=? GraphModule._co_trading_weight ti tj)%float = true →
     has_edge (GraphModule.build_wallet_graph threshold (l1 ++ ti :: l2 ++ tj :: l3))
       (account_id ti) (account_id ti)) ∧
  (∀ threshold trades a,
     has_edge (GraphModule.build_wallet_graph threshold trades) a a →
     (∀ y, has_edge (GraphModule.build_wallet_graph threshold trades) a y → y = a) →
     ∃ cs, GraphModule.detect_communities
             (GraphModule.build_wallet_graph threshold trades) = Some cs ∧
           {[a]} ∈ cs) ∧
  (∀ threshold ti tj,
     market_id ti = market_id tj → account_id ti = account_id tj →
     (threshold <=? GraphModule._co_trading_weight ti tj)%float = true →
     GraphModule.build_wallet_graph threshold [ti; tj] =
       [ (account_id ti,
          [ {| source := account_id ti; target := account_id ti;
               weight := (0 + GraphModule._co_trading_weight ti tj
                          + GraphModule._co_trading_weight ti tj)%float |} ]) ] ∧
     GraphModule.detect_communities (GraphModule.build_wallet_graph threshold [ti; tj]) =
       Some [ {[account_id ti]} ]) ∧
  (GraphModule.build_wallet_graph GraphModule.default_threshold
     [Ex.a1; Ex.b1; Ex.c1; Ex.c2] =
   [ ("A", [ {| source := "A"; target := "B"; weight := 1 |} ]);
     ("B", [ {| source := "B"; target := "A"; weight := 1 |} ]);
     ("C", [ {| source := "C"; target := "C"; weight := 2 |} ]) ] ∧
   GraphModule.detect_communities
     (GraphModule.build_wallet_graph GraphModule.default_threshold
        [Ex.a1; Ex.b1; Ex.c1; Ex.c2]) = Some [ {[ "A"; "B" ]}; {[ "C" ]} ]).
Proof.
  split_and!.
  - intros. by apply add_pair_self.
  - intros threshold l1 ti l2 tj l3 Hm Ha Hthr.
    pose proof (wallet_graph_edge threshold l1 l2 l3 ti tj Hm Hthr) as Hedge.
    by rewrite <-Ha in Hedge.
  - intros threshold trades a Hself Honly.
    destruct (wallet_graph_communities threshold trades) as (cs & Hcs & Hfound & Hkeys).
    exists cs. split; [done|].
    assert (a ∈ ⋃ cs) as (c & Hc & Ha)%elem_of_union_list.
    { apply Hkeys, wallet_graph_keys. by exists a. }
    by rewrite <-(wallet_graph_singleton _ _ _ _ _ Hfound Hc Ha Honly).
  - intros threshold ti tj Hm Ha Hthr.
    assert (GraphModule.build_wallet_graph threshold [ti; tj] =
            [ (account_id ti,
               [ {| source := account_id ti; target := account_id ti;
                    weight := (0 + GraphModule._co_trading_weight ti tj
                               + GraphModule._co_trading_weight ti tj)%float |} ]) ]) as Hg.
    { unfold GraphModule.build_wallet_graph. rewrite build_adjacency_two by done.
      unfold GraphModule.add_pair. rewrite Hthr. unfold GraphModule.adj_add.
      rewrite <-Ha. simpl. rewrite !decide_True by done. simpl.
      by rewrite !decide_True by done. }
    split; [done|].
    destruct (wallet_graph_communities threshold [ti; tj]) as (cs & Hcs & Hfound & Hkeys).
    rewrite Hcs. f_equal.
    assert (∀ y, has_edge (GraphModule.build_wallet_graph threshold [ti; tj])
                   (account_id ti) y → y = account_id ti) as Honly.
    { intros y. rewrite Hg. unfold has_edge, succs. simpl.
      rewrite decide_True by done. simpl. set_solver. }
    apply (communities_single cs _ (account_id ti)).
    + by destruct Hfound as (_ & ? & _).
    + by apply elem_of_singleton.
    + apply Hkeys. rewrite Hg. simpl. left.
    + intros i c Hi. apply list_elem_of_lookup_2 in Hi.
      destruct (community_sound _ _ _ _ Hfound Hi) as (s & Hs & Hsc & _).
      rewrite Hg in Hs. simpl in Hs. apply list_elem_of_singleton in Hs as ->.
      by eapply wallet_graph_singleton.
  - vm_compute. reflexivity.
  - vm_compute. reflexivity.
Qed.

Lemma C10_self_edge_witness :
  GraphModule.build_wallet_graph GraphModule.default_threshold [Ex.c1; Ex.c2] =
    [ (account_id Ex.c1,
       [ {| source := account_id Ex.c1; target := account_id Ex.c1;
            weight := (0 + GraphModule._co_trading_weight Ex.c1 Ex.c2
                       + GraphModule._co_trading_weight Ex.c1 Ex.c2)%float |} ]) ] ∧
  GraphModule.detect_communities
    (GraphModule.build_wallet_graph GraphModule.default_threshold [Ex.c1; Ex.c2]) =
    Some [ {[account_id Ex.c1]} ].
Proof.
  apply (proj1 (proj2 (proj2 (proj2 C10_self_edge)))
           GraphModule.default_threshold Ex.c1 Ex.c2);
    vm_compute; reflexivity.
Defined.

(** ** Backtest *)

Section backtest_facts.
Import EnsembleCombiner.

Lemma by_model_snoc (predictions : list ModelPrediction) (q : ModelPrediction) :
  by_model (predictions ++ [q]) =
  dset (by_model predictions) (model_name q)
    (default [] (dget (by_model predictions) (model_name q)) ++ [mp_score q]).
Proof. unfold by_model. by rewrite fold_left_app. Qed.

Lemma by_model_lookup (predictions : list ModelPrediction) (m : string) :
  dget (by_model predictions) m =
  match scores_of predictions m with [] => None | l => Some l end.
Proof.
  unfold scores_of. induction predictions as [|q l IH] using rev_ind; [done|].
  rewrite by_model_snoc, dget_dset, filter_app, filter_cons, filter_nil, fmap_app.
  destruct (decide (model_name q = m)) as [<-|Hne]; csimpl.
  - rewrite IH. by destruct (mp_score <$> filter _ l).
  - by rewrite app_nil_r.
Qed.

Lemma by_model_nonempty (predictions : list ModelPrediction) :
  Forall (λ kv, kv.2 ≠ []) (by_model predictions).
Proof.
  unfold by_model. apply fold_left_inv; [constructor|].
  intros acc q Hacc _. apply (dset_Forall (λ v, v ≠ [])); [exact Hacc|].
  by destruct (default [] _).
Qed.

(** The diagnostic aggregation holds, for every model with a prediction, the
    mean of its scores, and nothing else. *)
Lemma aggregate_statistics_lookup (predictions : list ModelPrediction) (m : string) :
  dget (aggregate_statistics predictions) m =
  match scores_of predictions m with [] => None | l => Some (Py.mean l) end.
Proof.
  unfold aggregate_statistics.
  assert (dget (omap (λ '(n, scores),
                  match scores with [] => None | _ => Some (n, Py.mean scores) end)
                  (by_model predictions)) m =
          Py.mean <$> dget (by_model predictions) m) as ->.
  { pose proof (by_model_nonempty predictions) as Hne.
    induction (by_model predictions) as [|[k v] d IH]; [done|].
    apply Forall_cons in Hne as [Hv Hd]. csimpl.
    destruct v as [|x v]; [done|]. csimpl.
    case_decide; [done|]. by apply IH. }
  rewrite by_model_lookup. by destruct (scores_of predictions m).
Qed.

Lemma generate_predictions_names (p : InsiderDetectionPipeline)
    (fvs : list FeatureVector) (q : ModelPrediction) :
  q ∈ Pipeline._generate_predictions p fvs →
  ∃ w, w ∈ ModelZoo.iter_models (model_zoo p) ∧ model_name q = name w.
Proof.
  unfold Pipeline._generate_predictions.
  intros (fv & (w & Hq & Hw)%list_elem_of_bind & Hfv)%list_elem_of_bind.
  apply list_elem_of_singleton in Hq as ->. by exists w.
Qed.

Lemma scores_of_unregistered (p : InsiderDetectionPipeline)
    (fvs : list FeatureVector) (m : string) :
  (∀ w, w ∈ ModelZoo.iter_models (model_zoo p) → name w ≠ m) →
  scores_of (Pipeline._generate_predictions p fvs) m = [].
Proof.
  intros Hfree. unfold scores_of.
  replace (filter _ _) with (@nil ModelPrediction); [done|].
  symmetry. apply elem_of_nil_inv. intros q [Hm Hq]%list_elem_of_filter.
  apply generate_predictions_names in Hq as (w & Hw & Hname).
  apply (Hfree w Hw). congruence.
Qed.

(** The graph step of [run_backtest] always returns. *)
Lemma graph_metric_spec (p : InsiderDetectionPipeline) (trades : list TradeEvent)
    (metrics : odict string float) :
  ∃ metrics', Pipeline.graph_metric p trades metrics = Some metrics' ∧
    match graph_module p with
    | None => metrics' = metrics
    | Some threshold =>
        ∃ cs, GraphModule.detect_communities
                (GraphModule.build_wallet_graph threshold trades) = Some cs ∧
              metrics' = dset metrics "communities_detected"
                           (Py.float_of_int (Z.of_nat (length cs)))
    end.
Proof.
  unfold Pipeline.graph_metric. destruct (graph_module p) as [threshold|].
  - destruct (detect_communities_found (GraphModule.build_wallet_graph threshold trades))
      as (cs & Hcs & _).
    rewrite Hcs. simpl. eexists. split; [done|]. by exists cs.
  - by eexists.
Qed.

Lemma anomaly_metric_lookup (scores : list AnomalyScore) (metrics : odict string float)
    (m : string) :
  dget (Pipeline.anomaly_metric scores metrics) m =
  if decide (m = "avg_anomaly_score" ∧ scores ≠ [])
  then Some (Py.sum (as_score <$> scores)
             / Py.float_of_int (Z.of_nat (length scores)))%float
  else dget metrics m.
Proof.
  unfold Pipeline.anomaly_metric. destruct scores as [|x scores].
  - rewrite decide_False; [done|]. by intros [_ ?].
  - rewrite dget_dset. destruct (decide ("avg_anomaly_score" = m)) as [<-|Hne].
    + by rewrite decide_True.
    + rewrite decide_False; [done|]. intros [-> _]. done.
Qed.

Lemma run_backtest_unfold (libm : Libm) (p : InsiderDetectionPipeline)
    (trades : list TradeEvent) :
  Pipeline.run_backtest libm p trades =
  metrics ← Pipeline.graph_metric p trades
              (aggregate_statistics
                 (Pipeline._generate_predictions p (backtest_vectors libm p trades)));
  Some (Pipeline.anomaly_metric
          (Pipeline._run_anomaly_detectors p (backtest_vectors libm p trades)) metrics,
        Pipeline.with_feature_store p
          (FeatureStore.compute_features (feature_store p) trades).2).
Proof.
  unfold Pipeline.run_backtest, backtest_vectors.
  by destruct (FeatureStore.compute_features (feature_store p) trades).
Qed.
End backtest_facts.


(** C8 as the code has it: when no registered model is named
    "communities_detected" or "avg_anomaly_score", [run_backtest] returns a
    metrics mapping and leaves the alerts and the dispatcher's sink as they
    were; under each model's name the mapping holds the mean of that model's
    scores; "communities_detected" is present exactly when a graph module is
    configured, holding the number of communities; "avg_anomaly_score" is
    present exactly when an anomaly module is configured and produced a score,
    holding the sum of the scores over their number. *)
Theorem C8_backtest_metrics (libm : Libm) (p : InsiderDetectionPipeline)
    (trades : list TradeEvent) :
  (∀ w, w ∈ ModelZoo.iter_models (model_zoo p) →
        name w ≠ "communities_detected" ∧ name w ≠ "avg_anomaly_score") →
  ∃ metrics p',
    Pipeline.run_backtest libm p trades = Some (metrics, p') ∧
    alerts p' = alerts p ∧
    alert_dispatcher p' = alert_dispatcher p ∧
    explanations p' = explanations p ∧
    anomaly_scores p' = anomaly_scores p ∧
    (∀ m, m ≠ "communities_detected" → m ≠ "avg_anomaly_score" →
       dget metrics m =
       match scores_of (Pipeline._generate_predictions p (backtest_vectors libm p trades)) m
       with [] => None | l => Some (Py.mean l) end) ∧
    (is_Some (dget metrics "communities_detected") ↔ is_Some (graph_module p)) ∧
    (∀ threshold, graph_module p = Some threshold →
       ∃ cs, GraphModule.detect_communities
               (GraphModule.build_wallet_graph threshold trades) = Some cs ∧
             dget metrics "communities_detected" =
             Some (Py.float_of_int (Z.of_nat (length cs)))) ∧
    (is_Some (dget metrics "avg_anomaly_score") ↔
     is_Some (anomaly_module p) ∧
     Pipeline._run_anomaly_detectors p (backtest_vectors libm p trades) ≠ []) ∧
    (Pipeline._run_anomaly_detectors p (backtest_vectors libm p trades) ≠ [] →
     dget metrics "avg_anomaly_score" =
     Some (Py.sum (as_score <$>
                     Pipeline._run_anomaly_detectors p (backtest_vectors libm p trades))
           / Py.float_of_int
               (Z.of_nat (length (Pipeline._run_anomaly_detectors p
                                    (backtest_vectors libm p trades)))))%float).
Proof.
  intros Hfree. rewrite run_backtest_unfold.
  set (fvs := backtest_vectors libm p trades).
  set (predictions := Pipeline._generate_predictions p fvs).
  set (scores := Pipeline._run_anomaly_detectors p fvs).
  assert (dget (EnsembleCombiner.aggregate_statistics predictions)
            "communities_detected" = None) as Hnoc.
  { rewrite aggregate_statistics_lookup. unfold predictions.
    rewrite scores_of_unregistered; [done|]. intros w Hw. by apply Hfree. }
  assert (dget (EnsembleCombiner.aggregate_statistics predictions)
            "avg_anomaly_score" = None) as Hnoa.
  { rewrite aggregate_statistics_lookup. unfold predictions.
    rewrite scores_of_unregistered; [done|]. intros w Hw. by apply Hfree. }
  destruct (graph_metric_spec p trades (EnsembleCombiner.aggregate_statistics predictions))
    as (metrics & -> & Hmetrics).
  simpl. do 2 eexists. split; [done|]. split_and!; try done.
  - intros m Hmc Hma. rewrite anomaly_metric_lookup.
    rewrite decide_False by (by intros [? _]).
    rewrite <-aggregate_statistics_lookup.
    destruct (graph_module p); [|by subst].
    destruct Hmetrics as (cs & _ & ->). by rewrite dget_dset_ne.
  - rewrite anomaly_metric_lookup. rewrite decide_False by (by intros [? _]).
    destruct (graph_module p).
    + destruct Hmetrics as (cs & _ & ->). rewrite dget_dset_eq. by split.
    + subst. rewrite Hnoc. split; by intros [? ?].
  - intros threshold Hthr. rewrite Hthr in Hmetrics.
    destruct Hmetrics as (cs & Hcs & ->). exists cs. split; [done|].
    rewrite anomaly_metric_lookup. rewrite decide_False by (by intros [? _]).
    by rewrite dget_dset_eq.
  - rewrite anomaly_metric_lookup.
    assert (scores ≠ [] → is_Some (anomaly_module p)) as Hconf.
    { unfold scores, Pipeline._run_anomaly_detectors.
      by destruct (anomaly_module p). }
    destruct (decide (scores = [])) as [Hnil|Hsome].
    + rewrite decide_False by (by intros [_ ?]).
      assert (dget metrics "avg_anomaly_score" = None) as ->.
      { destruct (graph_module p); [|by subst].
        destruct Hmetrics as (cs & _ & ->). by rewrite dget_dset_ne. }
      split; [by intros [? ?] | by intros [_ ?]].
    + rewrite decide_True by done. split; [|by eexists]. intros _. split; [|done].
      by apply Hconf.
  - intros Hsome. rewrite anomaly_metric_lookup. by rewrite decide_True.
Qed.

Lemma C8_backtest_metrics_witness :
  ∃ metrics p',
    Pipeline.run_backtest Ex.libm Ex.full [Ex.a1; Ex.b1; Ex.c1] = Some (metrics, p') ∧
    alerts p' = alerts Ex.full ∧
    is_Some (dget metrics "communities_detected") ∧
    is_Some (dget metrics "avg_anomaly_score").
Proof.
  destruct (C8_backtest_metrics Ex.libm Ex.full [Ex.a1; Ex.b1; Ex.c1])
    as (metrics & p' & Hrun & Halerts & _ & _ & _ & _ & Hgraph & _ & Hanomaly & _).
  - intros w Hw. apply list_elem_of_singleton in Hw as ->. split; discriminate.
  - exists metrics, p'. split_and!; [done..| |].
    + apply Hgraph. by eexists.
    + apply Hanomaly. split; [by eexists|]. vm_compute. discriminate.
Defined.

(** C8 as stated fails: a registered model named "communities_detected" puts
    that key into the metrics of a pipeline without a graph module; and with a
    graph module the community count replaces that model's mean score. *)
Lemma C8_counterexample :
  graph_module Ex.collide = None ∧
  fst <$> Pipeline.run_backtest Ex.libm Ex.collide [Ex.s2] =
    Some [("communities_detected", 0.5%float)] ∧
  fst <$> Pipeline.run_backtest Ex.libm Ex.collide_graph [Ex.s2] =
    Some [("communities_detected", 0%float)].
Proof. split_and!; vm_compute; reflexivity. Qed.


(** * Further properties *)

(** ** Feature store: batches and the stored history *)

(** X1: after [compute_features], [latest_features] of an account is the last
    vector that the call computed for it; for an account without a trade in
    the batch it is what it was before the call. *)
Theorem latest_features_compute_features (st : FeatureStore.storage)
    (trades : list TradeEvent) (a : string) :
  FeatureStore.latest_features (FeatureStore.compute_features st trades).2 a =
  match last (filter (λ v, entity_id v = a) (FeatureStore.compute_features st trades).1) with
  | Some v => Some v
  | None => FeatureStore.latest_features st a
  end.
Proof.
  unfold FeatureStore.latest_features.
  rewrite compute_features_history, last_app. done.
Qed.

(** X2: feeding a batch in two successive calls gives the same vectors and
    leaves the same store as one call on the whole batch. *)
Theorem compute_features_batches (st : FeatureStore.storage) (l1 l2 : list TradeEvent) :
  FeatureStore.compute_features st (l1 ++ l2) =
  ((FeatureStore.compute_features st l1).1 ++
     (FeatureStore.compute_features (FeatureStore.compute_features st l1).2 l2).1,
   (FeatureStore.compute_features (FeatureStore.compute_features st l1).2 l2).2).
Proof. apply compute_features_app. Qed.

Lemma compute_features_vectors (st : FeatureStore.storage) (trades : list TradeEvent) :
  (λ v, (entity_id v, as_of v, features v)) <$> (FeatureStore.compute_features st trades).1 =
  imap (λ i t,
          (account_id t, timestamp t,
           [ ("avg_trade_size",
              FeatureStore._rolling_average
                (FeatureStore.compute_features st (take i trades)).2 (account_id t) (size t));
             ("profit_proxy", FeatureStore._profit_proxy t);
             ("time_to_resolution_est", FeatureStore._time_to_resolution_proxy t) ]))
       trades.
Proof.
  revert st. induction trades as [|t l IH] using rev_ind; intros st; [done|].
  rewrite compute_features_app. cbn [fst snd]. rewrite fmap_app, imap_app, IH. f_equal.
  - apply imap_ext. intros i x Hx. simpl.
    rewrite take_app_le; [done|]. apply lookup_lt_Some in Hx. lia.
  - simpl. rewrite Nat.add_0_r, take_app_length. done.
Qed.

(** X3: [compute_features] returns one vector per trade, in order; the vector
    of a trade carries the trade's account and timestamp and exactly the
    three features, the rolling average being taken on the store as the
    trades before it left it; and the history stored for an account grows by
    exactly the vectors computed for it, nothing stored being dropped or
    rewritten. *)
Theorem compute_features_vector_per_trade (st : FeatureStore.storage)
    (trades : list TradeEvent) :
  (λ v, (entity_id v, as_of v, features v)) <$> (FeatureStore.compute_features st trades).1 =
  imap (λ i t,
          (account_id t, timestamp t,
           [ ("avg_trade_size",
              FeatureStore._rolling_average
                (FeatureStore.compute_features st (take i trades)).2 (account_id t) (size t));
             ("profit_proxy", FeatureStore._profit_proxy t);
             ("time_to_resolution_est", FeatureStore._time_to_resolution_proxy t) ]))
       trades ∧
  ∀ a, default [] ((FeatureStore.compute_features st trades).2 !! a) =
       default [] (st !! a) ++
       filter (λ v, entity_id v = a) (FeatureStore.compute_features st trades).1.
Proof.
  split; [apply compute_features_vectors|]. intros a. apply compute_features_history.
Qed.

(** ** Binary64: signs, comparisons and the quotient of two integers *)

Section float_rounding_facts.

Lemma binary_round_aux_opp (s : bool) (m e : Z) (l : location) :
  binary_round_aux prec emax (negb s) m e l = SFopp (binary_round_aux prec emax s m e l).
Proof.
  unfold binary_round_aux.
  destruct (shr_fexp prec emax m e l) as [mrs' e'].
  destruct (shr_fexp prec emax _ e' loc_Exact) as [mrs'' e''].
  destruct (shr_m mrs''); [done| |done].
  by destruct (e'' <=? emax - prec)%Z.
Qed.

Lemma SFmul_opp_l (x y : spec_float) :
  SFmul prec emax (SFopp x) y = SFopp (SFmul prec emax x y).
Proof.
  destruct x as [sx|sx| |sx mx ex], y as [sy|sy| |sy my ey]; simpl; try done.
  all: try (by destruct sx, sy).
  rewrite <-binary_round_aux_opp. by destruct sx, sy.
Qed.

Lemma mul_opp_l (x y : float) : (- x * y)%float = (- (x * y))%float.
Proof.
  apply Prim2SF_inj.
  rewrite FloatAxioms.opp_spec, !FloatAxioms.mul_spec, FloatAxioms.opp_spec.
  apply SFmul_opp_l.
Qed.

Lemma SFcompare_antisym (x y : spec_float) :
  SFcompare y x = CompOpp <$> SFcompare x y.
Proof.
  destruct x as [sx|sx| |sx mx ex], y as [sy|sy| |sy my ey]; simpl;
    try destruct sx; try destruct sy; try done.
  all: pose proof (Pos.compare_antisym mx my) as Hm; unfold Pos.compare in Hm.
  all: rewrite (Z.compare_antisym ex ey), Hm.
  all: destruct (ex ?= ey); simpl; [|done..].
  all: by destruct (Pos.compare_cont Eq mx my).
Qed.

(** Two floats that are not NaN compare: one is at most the other. *)
Lemma leb_total (x y : float) :
  Prim2SF x ≠ S754_nan → Prim2SF y ≠ S754_nan →
  (x <? y)%float = false → (y <=? x)%float = true.
Proof.
  rewrite FloatAxioms.ltb_spec, FloatAxioms.leb_spec. unfold SFltb, SFleb.
  intros Hx Hy. rewrite (SFcompare_antisym (Prim2SF x) (Prim2SF y)).
  destruct (SFcompare (Prim2SF x) (Prim2SF y)) as [[]|] eqn:Hcmp; try done.
  by destruct (Prim2SF x), (Prim2SF y).
Qed.

Lemma leb_nan_r (x y : float) : Prim2SF y = S754_nan → (x <=? y)%float = false.
Proof.
  intros Hy. rewrite FloatAxioms.leb_spec, Hy. unfold SFleb. by destruct (Prim2SF x).
Qed.

Lemma shr_1_nonneg (mrs : shr_record) : 0 ≤ shr_m mrs → 0 ≤ shr_m (shr_1 mrs).
Proof. destruct mrs as [[|[p|p|]|p] r s]; simpl; lia. Qed.

Lemma iter_pos_inv {A} (P : A → Prop) (f : A → A) :
  (∀ x, P x → P (f x)) → ∀ p x, P x → P (@SpecFloat.iter_pos A f p x).
Proof. intros Hf. induction p as [p IH|p IH|]; simpl; auto. Qed.

Lemma shr_fexp_nonneg (m e : Z) (l : location) :
  0 ≤ m → 0 ≤ shr_m (shr_fexp prec emax m e l).1.
Proof.
  intros Hm. unfold shr_fexp, shr.
  assert (0 ≤ shr_m (shr_record_of_loc m l)) by (by destruct l as [|[]]).
  destruct (fexp prec emax (Zdigits2 m + e) - e); simpl; [done| |done].
  by apply (iter_pos_inv (λ mrs, 0 ≤ shr_m mrs)); [apply shr_1_nonneg|].
Qed.

Lemma round_nearest_even_nonneg (m : Z) (l : location) :
  0 ≤ m → 0 ≤ round_nearest_even m l.
Proof. intros Hm. destruct l as [|[]]; simpl; try done; [destruct (Z.even m)|]; lia. Qed.

Lemma binary_round_aux_not_nan (s : bool) (m e : Z) (l : location) :
  0 ≤ m → binary_round_aux prec emax s m e l ≠ S754_nan.
Proof.
  intros Hm. unfold binary_round_aux.
  pose proof (shr_fexp_nonneg m e l Hm) as H1.
  destruct (shr_fexp prec emax m e l) as [mrs' e']. simpl in H1.
  pose proof (shr_fexp_nonneg _ e' loc_Exact
                (round_nearest_even_nonneg _ (loc_of_shr_record mrs') H1)) as H2.
  destruct (shr_fexp prec emax _ e' loc_Exact) as [mrs'' e'']. simpl in H2.
  destruct (shr_m mrs''); [done| |lia].
  by destruct (e'' <=? emax - prec)%Z.
Qed.

Lemma binary_round_not_nan (s : bool) (m : positive) (e : Z) :
  binary_round prec emax s m e ≠ S754_nan.
Proof.
  unfold binary_round. destruct (shl_align _ _ _) as [mz ez].
  by apply binary_round_aux_not_nan.
Qed.

Lemma SFldexp_not_nan (x : spec_float) (e : Z) :
  x ≠ S754_nan → SFldexp prec emax x e ≠ S754_nan.
Proof. destruct x; simpl; try done. intros _. apply binary_round_not_nan. Qed.

Lemma SF2Prim_not_nan (x : spec_float) :
  x ≠ S754_nan → Prim2SF (SF2Prim x) ≠ S754_nan.
Proof.
  destruct x as [[]|[]| |s m e]; try done; intros _.
  unfold SF2Prim.
  assert (Prim2SF (Z.ldexp (of_uint63 (Uint63.of_Z (Z.pos m))) e) ≠ S754_nan) as Hf.
  { rewrite FloatLemmas.Z_ldexp_spec. apply SFldexp_not_nan.
    rewrite FloatAxioms.of_uint63_spec. unfold binary_normalize.
    destruct (Uint63Axioms.to_Z _); [done|apply binary_round_not_nan..]. }
  destruct s; [|done]. rewrite FloatAxioms.opp_spec.
  by destruct (Prim2SF _).
Qed.

Lemma SFdiv_not_nan (a b : Z) :
  b ≠ 0 → SFdiv prec emax (Py.Z2SF a 0) (Py.Z2SF b 0) ≠ S754_nan.
Proof.
  intros Hb. destruct a as [|p|p], b as [|q|q]; try done; simpl.
  all: unfold SFdiv_core_binary.
  all: match goal with |- context [Z.div_eucl ?x ?y] =>
         pose proof (Z.div_eucl_eq x y ltac:(done)) as Heq;
         pose proof (Z_div_mod x y ltac:(done)) as Hdm;
         assert (0 ≤ x) as Hx; [|destruct (Z.div_eucl x y) as [q' r']]
       end.
  all: try (apply binary_round_aux_not_nan; nia).
  all: match goal with |- 0 ≤ match ?s with _ => _ end =>
         destruct s eqn:Hs; try done; rewrite Z.shiftl_mul_pow2 by done; lia end.
Qed.

(** The quotient of two integers, the divisor not zero, is never NaN. *)
Lemma int_truediv_not_nan (a b : Z) : b ≠ 0 → Prim2SF (Py.int_truediv a b) ≠ S754_nan.
Proof. intros Hb. apply SF2Prim_not_nan. by apply SFdiv_not_nan. Qed.

Lemma int_truediv_0_l (b : Z) : 0 < b → Py.int_truediv 0 b = 0%float.
Proof. intros Hb. unfold Py.int_truediv. destruct b; [lia|reflexivity|lia]. Qed.

End float_rounding_facts.

Section float_unit_facts.

Lemma digits2_pos_shift52 (m : positive) :
  Z.pos (digits2_pos (4503599627370496 * m)) = Z.pos (digits2_pos m) + 52.
Proof.
  change (4503599627370496 * m)%positive with
    (m~0~0~0~0~0~0~0~0~0~0~0~0~0~0~0~0~0~0~0~0~0~0~0~0~0~0~0~0~0~0~0~0~0~0~0~0~0~0~0~0~0~0~0~0~0~0~0~0~0~0~0~0)%positive.
  cbn [digits2_pos]. rewrite !Pos2Z.inj_succ. lia.
Qed.

Lemma shr_52 (m : positive) :
  SpecFloat.iter_pos shr_1 52
    {| shr_m := Z.pos (4503599627370496 * m); shr_r := false; shr_s := false |} =
  {| shr_m := Z.pos m; shr_r := false; shr_s := false |}.
Proof. reflexivity. Qed.

Lemma SFmul_1_l (x : spec_float) :
  valid_binary x = true → SFmul prec emax (Prim2SF 1) x = x.
Proof.
  intros Hv. change (Prim2SF 1) with (S754_finite false 4503599627370496 (-52)).
  destruct x as [s|s| |s m e]; try done.
  simpl in Hv. unfold bounded, canonical_mantissa in Hv.
  apply andb_prop in Hv as [Hc He]. apply Z.eqb_eq in Hc.
  unfold SFmul, binary_round_aux, shr_fexp. cbn [xorb].
  unfold Zdigits2 at 1. rewrite digits2_pos_shift52.
  replace (Z.pos (digits2_pos m) + 52 + (-52 + e)) with (Z.pos (digits2_pos m) + e) by lia.
  rewrite Hc. replace (e - (-52 + e)) with 52 by lia.
  unfold shr at 1. cbn [shr_record_of_loc]. rewrite shr_52.
  cbn [shr_m loc_of_shr_record round_nearest_even Zdigits2].
  replace (-52 + e + 52) with e by lia. rewrite Hc, Z.sub_diag.
  cbn [shr shr_record_of_loc shr_m]. by rewrite He.
Qed.

Lemma mul_1_l (x : float) : (1 * x)%float = x.
Proof.
  apply Prim2SF_inj. rewrite FloatAxioms.mul_spec.
  apply SFmul_1_l, FloatAxioms.Prim2SF_valid.
Qed.

Lemma mul_m1_l (x : float) : ((-1) * x)%float = (- x)%float.
Proof.
  change (-1)%float with (PrimFloat.opp 1). by rewrite mul_opp_l, mul_1_l.
Qed.

End float_unit_facts.

(** ** Feature store: the two proxies *)

(** X4: [_profit_proxy] is exactly [1 - price] when the outcome reads "yes" or
    "win" in any letter case, and exactly the negation of [1 - price] for
    every other outcome. *)
Theorem profit_proxy_value (trade : TradeEvent) :
  (winning (outcome trade) →
   FeatureStore._profit_proxy trade = (1 - price trade)%float) ∧
  (¬ winning (outcome trade) →
   FeatureStore._profit_proxy trade = (- (1 - price trade))%float).
Proof.
  unfold winning, FeatureStore._profit_proxy. split; intros Hw.
  - rewrite orb_true_intro; [apply mul_1_l|].
    destruct Hw as [Hw|Hw]; rewrite Hw; by vm_compute; auto.
  - rewrite (proj2 (orb_false_iff _ _)); [apply mul_m1_l|].
    split; apply bool_decide_eq_false; tauto.
Qed.

Lemma profit_proxy_value_witness :
  FeatureStore._profit_proxy (Ex.trade "alice" "m1" 0 "YES" 2) = (1 - 0.5)%float ∧
  FeatureStore._profit_proxy (Ex.trade "alice" "m1" 0 "maybe" 2) = (- (1 - 0.5))%float.
Proof.
  split.
  - apply (proj1 (profit_proxy_value (Ex.trade "alice" "m1" 0 "YES" 2))).
    left. reflexivity.
  - apply (proj2 (profit_proxy_value (Ex.trade "alice" "m1" 0 "maybe" 2))).
    intros [H|H]; vm_compute in H; discriminate H.
Defined.

Lemma time_of_day (ts : datetime) : ts - midnight_of ts = ts mod us_per_day.
Proof. unfold midnight_of. lia. Qed.

(** X5: [_time_to_resolution_proxy] is never below 1.0 (and never NaN), and
    it depends on the trade only through the time of day of its timestamp:
    two trades whose timestamps differ by whole days get the same value. *)
Theorem time_to_resolution_proxy_floor (trade trade' : TradeEvent) :
  (1 <=? FeatureStore._time_to_resolution_proxy trade)%float = true ∧
  (timestamp trade' mod us_per_day = timestamp trade mod us_per_day →
   FeatureStore._time_to_resolution_proxy trade' =
   FeatureStore._time_to_resolution_proxy trade).
Proof.
  unfold FeatureStore._time_to_resolution_proxy. rewrite !time_of_day. split.
  - unfold Py.max2, Py.total_seconds.
    destruct (_ <? 1)%float eqn:Hlt; [reflexivity|].
    apply leb_total; [|done|done]. by apply int_truediv_not_nan.
  - by intros ->.
Qed.

Lemma time_to_resolution_proxy_floor_witness :
  (1 <=? FeatureStore._time_to_resolution_proxy Ex.s4)%float = true ∧
  FeatureStore._time_to_resolution_proxy
    (Ex.trade "bob" "m2" (1000000 + 3 * us_per_day) "no" 1) =
  FeatureStore._time_to_resolution_proxy Ex.s4.
Proof.
  split.
  - apply (proj1 (time_to_resolution_proxy_floor Ex.s4 Ex.s4)).
  - apply (proj2 (time_to_resolution_proxy_floor Ex.s4
                    (Ex.trade "bob" "m2" (1000000 + 3 * us_per_day) "no" 1))).
    reflexivity.
Defined.

(** ** Model registry: construction from a list of wrappers *)

Section model_zoo_facts.
Import ModelZoo.

Lemma init_from_fresh (zoo : t) (models : list ModelWrapper) :
  NoDup (dkeys zoo ++ (name <$> models)) →
  init_from zoo models = (Ok (), zoo ++ ((λ m, (name m, m)) <$> models)).
Proof.
  revert zoo. induction models as [|m rest IH]; intros zoo Hnd; simpl.
  { by rewrite app_nil_r. }
  csimpl in Hnd. pose proof Hnd as Hnd'.
  apply NoDup_app in Hnd as (Hzoo & Hdisj & Hrest).
  assert (name m ∉ dkeys zoo) as Hfresh.
  { intros Hin. apply (Hdisj _ Hin). left. }
  unfold register. rewrite bool_decide_eq_false_2 by done.
  rewrite dset_fresh by done. rewrite IH.
  - by rewrite <-app_assoc.
  - unfold dkeys. rewrite fmap_app. simpl. by rewrite <-app_assoc.
Qed.

Lemma init_from_repeated (zoo : t) (pre post : list ModelWrapper) (m : ModelWrapper) :
  NoDup (dkeys zoo ++ (name <$> pre)) →
  name m ∈ dkeys zoo ++ (name <$> pre) →
  init_from zoo (pre ++ m :: post) =
  (Raise (ValueError ("Model " +:+ name m +:+ " already registered")),
   zoo ++ ((λ m, (name m, m)) <$> pre)).
Proof.
  revert zoo. induction pre as [|w pre IH]; intros zoo Hnd Hin; simpl.
  - rewrite !app_nil_r in *. unfold register. by rewrite bool_decide_eq_true_2.
  - csimpl in Hnd. pose proof Hnd as Hnd'.
    apply NoDup_app in Hnd as (Hzoo & Hdisj & Hrest).
    assert (name w ∉ dkeys zoo) as Hfresh.
    { intros Hw. apply (Hdisj _ Hw). left. }
    unfold register. rewrite bool_decide_eq_false_2 by done.
    rewrite dset_fresh by done. rewrite IH.
    + by rewrite <-app_assoc.
    + unfold dkeys. rewrite fmap_app. simpl. by rewrite <-app_assoc.
    + unfold dkeys. rewrite fmap_app. simpl. rewrite <-app_assoc. by csimpl in Hin.
Qed.

End model_zoo_facts.

(** X6: constructing a registry from wrappers with pairwise distinct names
    succeeds, [iter_models] then yields the wrappers in the given order,
    [get] finds each by its name and raises [KeyError] for any other name;
    when a name repeats, the construction raises [ValueError] for the first
    wrapper whose name was already given. *)
Theorem init_from_names (models : list ModelWrapper) :
  (NoDup (name <$> models) →
   ∃ zoo, ModelZoo.init_from [] models = (Ok (), zoo) ∧
          ModelZoo.iter_models zoo = models ∧
          (∀ m, m ∈ models → ModelZoo.get zoo (name m) = Ok m) ∧
          (∀ n, n ∉ name <$> models → ModelZoo.get zoo n = Raise (KeyError n))) ∧
  (∀ pre m post,
     models = pre ++ m :: post → NoDup (name <$> pre) → name m ∈ name <$> pre →
     (ModelZoo.init_from [] models).1 =
     Raise (ValueError ("Model " +:+ name m +:+ " already registered"))).
Proof.
  split.
  - intros Hnd. eexists. split; [by apply init_from_fresh|]. simpl.
    assert (dkeys ((λ m, (name m, m)) <$> models) = name <$> models) as Hkeys.
    { unfold dkeys. rewrite <-list_fmap_compose. done. }
    split_and!.
    + unfold ModelZoo.iter_models, dvalues. rewrite <-list_fmap_compose.
      apply list_fmap_id.
    + intros m Hm. unfold ModelZoo.get.
      rewrite (elem_of_dget_Some _ (name m) m); [done|by rewrite Hkeys|].
      apply list_elem_of_fmap. by exists m.
    + intros n Hn. unfold ModelZoo.get.
      rewrite (proj1 (not_elem_of_dkeys _ n)); [done|by rewrite Hkeys].
  - intros pre m post -> Hnd Hin. by rewrite init_from_repeated.
Qed.

Lemma init_from_names_witness :
  (∃ zoo, ModelZoo.init_from [] [Ex.const_model "a" 0; Ex.const_model "b" 1] = (Ok (), zoo) ∧
          ModelZoo.iter_models zoo = [Ex.const_model "a" 0; Ex.const_model "b" 1] ∧
          (∀ m, m ∈ [Ex.const_model "a" 0; Ex.const_model "b" 1] →
                ModelZoo.get zoo (name m) = Ok m) ∧
          (∀ n, n ∉ name <$> [Ex.const_model "a" 0; Ex.const_model "b" 1] →
                ModelZoo.get zoo n = Raise (KeyError n))) ∧
  (ModelZoo.init_from [] [Ex.const_model "a" 0; Ex.const_model "b" 1; Ex.const_model "a" 2]).1 =
  Raise (ValueError ("Model " +:+ "a" +:+ " already registered")).
Proof.
  split.
  - apply (proj1 (init_from_names [Ex.const_model "a" 0; Ex.const_model "b" 1])).
    refine (bool_decide_unpack _ _). vm_compute. exact I.
  - apply (proj2 (init_from_names
                    [Ex.const_model "a" 0; Ex.const_model "b" 1; Ex.const_model "a" 2])
             [Ex.const_model "a" 0; Ex.const_model "b" 1] (Ex.const_model "a" 2) []).
    + reflexivity.
    + refine (bool_decide_unpack _ _). vm_compute. exact I.
    + refine (bool_decide_unpack _ _). vm_compute. exact I.
Defined.

(** ** Cartesian loops *)

Lemma inner_loop {A B C} (f : A → B → C) (x : A) (k : list B) :
  (y ← k; [f x y]) = f x <$> k.
Proof. induction k as [|y k IH]; [done|]. csimpl. by rewrite IH. Qed.

Lemma product_length {A B C} (f : A → B → C) (l : list A) (k : list B) :
  length (x ← l; y ← k; [f x y]) = (length l * length k)%nat.
Proof.
  induction l as [|x l IH]; [done|]. csimpl.
  rewrite length_app, IH, inner_loop, length_fmap. done.
Qed.

Lemma product_lookup {A B C} (f : A → B → C) (l : list A) (k : list B)
    (i j : nat) (x : A) (y : B) :
  l !! i = Some x → k !! j = Some y →
  (x ← l; y ← k; [f x y]) !! (i * length k + j)%nat = Some (f x y).
Proof.
  revert i. induction l as [|x' l IH]; intros i Hi Hj; [done|]. csimpl.
  rewrite inner_loop. destruct i as [|i]; simplify_eq/=.
  - rewrite lookup_app_l by (rewrite length_fmap; by eapply lookup_lt_Some).
    by rewrite list_lookup_fmap, Hj.
  - rewrite lookup_app_r by (rewrite length_fmap; lia).
    rewrite length_fmap.
    replace (length k + i * length k + j - length k)%nat with (i * length k + j)%nat by lia.
    by apply IH.
Qed.

(** X7: [_generate_predictions] makes one prediction per vector and
    registered model, vector by vector and, within a vector, in registration
    order: the prediction of the [j]-th model on the [i]-th vector sits at
    position [i * (number of models) + j]. *)
Theorem generate_predictions_order (p : InsiderDetectionPipeline)
    (fvs : list FeatureVector) :
  length (Pipeline._generate_predictions p fvs) =
    (length fvs * length (ModelZoo.iter_models (model_zoo p)))%nat ∧
  ∀ i j fv m,
    fvs !! i = Some fv → ModelZoo.iter_models (model_zoo p) !! j = Some m →
    Pipeline._generate_predictions p fvs
      !! (i * length (ModelZoo.iter_models (model_zoo p)) + j)%nat =
    Some (ModelZoo.predict m fv).
Proof.
  split.
  - apply (product_length (λ fv m, ModelZoo.predict m fv)).
  - intros i j fv m Hi Hj.
    by apply (product_lookup (λ fv m, ModelZoo.predict m fv)).
Qed.

Lemma generate_predictions_order_witness :
  Pipeline._generate_predictions (Ex.pipeline [("size", Ex.size_model)] ∅ None None)
    (FeatureStore.compute_features ∅ [Ex.s2; Ex.s4]).1 !! (1 * 1 + 0)%nat =
  Some (ModelZoo.predict Ex.size_model
          {| entity_id := "alice";
             features := [("avg_trade_size", 3%float); ("profit_proxy", 0.5%float);
                          ("time_to_resolution_est", 1%float)];
             as_of := 1000000 |}).
Proof.
  apply (proj2 (generate_predictions_order
                  (Ex.pipeline [("size", Ex.size_model)] ∅ None None)
                  (FeatureStore.compute_features ∅ [Ex.s2; Ex.s4]).1) 1%nat 0%nat).
  - vm_compute. reflexivity.
  - reflexivity.
Defined.

(** X8: [AnomalyModule.run] scores every vector with every detector, vector
    by vector and in the detectors' order: the score of the [j]-th detector
    on the [i]-th vector sits at position [i * (number of detectors) + j],
    and there are no other scores. *)
Theorem anomaly_run_order (detectors : list AnomalyDetector) (fvs : list FeatureVector) :
  length (AnomalyModule.run detectors fvs) = (length fvs * length detectors)%nat ∧
  ∀ i j fv d,
    fvs !! i = Some fv → detectors !! j = Some d →
    AnomalyModule.run detectors fvs !! (i * length detectors + j)%nat =
    Some {| as_entity_id := entity_id fv; as_detector_name := detector_name d;
            as_score := score d (features fv) |}.
Proof.
  split.
  - apply (product_length
             (λ fv d, {| as_entity_id := entity_id fv; as_detector_name := detector_name d;
                         as_score := score d (features fv) |})).
  - intros i j fv d Hi Hj.
    by apply (product_lookup
                (λ fv d, {| as_entity_id := entity_id fv; as_detector_name := detector_name d;
                            as_score := score d (features fv) |})).
Qed.

Lemma anomaly_run_order_witness :
  AnomalyModule.run [Ex.size_detector]
    (FeatureStore.compute_features ∅ [Ex.s2; Ex.s4]).1 !! (1 * 1 + 0)%nat =
  Some {| as_entity_id := "alice"; as_detector_name := "size"; as_score := 3 |}.
Proof.
  apply (proj2 (anomaly_run_order [Ex.size_detector]
                  (FeatureStore.compute_features ∅ [Ex.s2; Ex.s4]).1) 1%nat 0%nat
           {| entity_id := "alice";
              features := [("avg_trade_size", 3%float); ("profit_proxy", 0.5%float);
                           ("time_to_resolution_est", 1%float)];
              as_of := 1000000 |} Ex.size_detector).
  - vm_compute. reflexivity.
  - reflexivity.
Defined.

(** ** Dictionaries built by a grouping loop *)

Lemma first_seen_snoc (l : list string) (x : string) :
  first_seen (l ++ [x]) =
  if decide (x ∈ first_seen l) then first_seen l else first_seen l ++ [x].
Proof. unfold first_seen. by rewrite fold_left_app. Qed.

Lemma elem_of_first_seen (l : list string) (x : string) : x ∈ first_seen l ↔ x ∈ l.
Proof.
  induction l as [|y l IH] using rev_ind; [done|].
  rewrite first_seen_snoc, elem_of_app, list_elem_of_singleton, <-IH.
  case_decide as Hy; [|by rewrite elem_of_app, list_elem_of_singleton].
  split; [tauto|]. by intros [?| ->].
Qed.

Lemma NoDup_first_seen (l : list string) : NoDup (first_seen l).
Proof.
  induction l as [|y l IH] using rev_ind; [constructor|].
  rewrite first_seen_snoc. case_decide as Hy; [done|].
  apply NoDup_app. split_and!; [done| |apply NoDup_singleton].
  intros x Hx ->%list_elem_of_singleton. done.
Qed.

(** The keys of a dictionary filled by [d[key(x)] = ...] over a list are the
    distinct keys of the list, in order of first occurrence. *)
Lemma dkeys_grouped {A V} (key : A → string) (val : odict string V → A → V) (l : list A) :
  dkeys (fold_left (λ acc x, dset acc (key x) (val acc x)) l []) = first_seen (key <$> l).
Proof.
  induction l as [|x l IH] using rev_ind; [done|].
  rewrite fold_left_app, fmap_app. change (key <$> [x]) with [key x].
  rewrite first_seen_snoc. simpl. rewrite dkeys_dset, IH. done.
Qed.

Section ensemble_order_facts.
Import EnsembleCombiner.

Lemma group_keys (predictions : list ModelPrediction) :
  dkeys (group predictions) = first_seen (mp_entity_id <$> predictions).
Proof.
  apply (dkeys_grouped mp_entity_id
           (λ grouped p, dset (default [] (dget grouped (mp_entity_id p)))
                           (model_name p) (mp_score p))).
Qed.

Lemma combine_keys (weights : weights_t) (predictions : list ModelPrediction) :
  es_entity_id <$> combine weights predictions = dkeys (group predictions).
Proof.
  unfold combine, dkeys. rewrite <-list_fmap_compose.
  apply list_fmap_ext. by intros i [e ms] _.
Qed.

Lemma group_inner_keys (predictions : list ModelPrediction) (e : string) :
  dkeys (default [] (dget (group predictions) e)) =
  first_seen (model_name <$> filter (λ q, mp_entity_id q = e) predictions).
Proof.
  induction predictions as [|p l IH] using rev_ind; [done|].
  rewrite group_snoc, dget_dset, filter_app, filter_cons, filter_nil.
  destruct (decide (mp_entity_id p = e)) as [<-|Hne]; simpl.
  - rewrite fmap_app. change (model_name <$> [p]) with [model_name p].
    rewrite first_seen_snoc, dkeys_dset, IH. done.
  - by rewrite app_nil_r.
Qed.

Lemma by_model_keys (predictions : list ModelPrediction) :
  dkeys (by_model predictions) = first_seen (model_name <$> predictions).
Proof.
  apply (dkeys_grouped model_name
           (λ acc p, default [] (dget acc (model_name p)) ++ [mp_score p])).
Qed.

Lemma aggregate_statistics_keys (predictions : list ModelPrediction) :
  dkeys (aggregate_statistics predictions) = first_seen (model_name <$> predictions).
Proof.
  rewrite <-by_model_keys. unfold aggregate_statistics.
  pose proof (by_model_nonempty predictions) as Hne.
  induction (by_model predictions) as [|[k v] d IH]; [done|].
  apply Forall_cons in Hne as [Hv Hd]. csimpl.
  destruct v as [|x v]; [done|]. csimpl. f_equal. by apply IH.
Qed.

Lemma scores_of_Permutation (l l' : list ModelPrediction) (m : string) :
  l ≡ₚ l' → scores_of l m ≡ₚ scores_of l' m.
Proof. intros Hperm. unfold scores_of. by rewrite Hperm. Qed.

End ensemble_order_facts.

(** X9: [combine] returns exactly one score per entity that has a
    prediction, the entities in the order in which they first occur among
    the predictions; and the breakdown of an entity lists exactly the models
    that predicted for it, in the order in which they first did. *)
Theorem combine_entities_in_order (weights : gmap string float)
    (predictions : list ModelPrediction) :
  es_entity_id <$> EnsembleCombiner.combine weights predictions =
    first_seen (mp_entity_id <$> predictions) ∧
  NoDup (es_entity_id <$> EnsembleCombiner.combine weights predictions) ∧
  Forall (λ es, dkeys (breakdown es) =
                first_seen (model_name <$>
                              filter (λ q, mp_entity_id q = es_entity_id es) predictions))
    (EnsembleCombiner.combine weights predictions).
Proof.
  assert (es_entity_id <$> EnsembleCombiner.combine weights predictions =
          first_seen (mp_entity_id <$> predictions)) as Hkeys.
  { by rewrite combine_keys, group_keys. }
  split_and!; [done|rewrite Hkeys; apply NoDup_first_seen|].
  apply Forall_forall. intros es [Hget _]%elem_of_combine_dget.
  by rewrite <-group_inner_keys, Hget.
Qed.

(** X10: [aggregate_statistics] has one entry per model that made a
    prediction, in order of first occurrence; and reordering the predictions
    changes no model's statistic: the result is the same mapping, with the
    same entries. *)
Theorem aggregate_statistics_reordering (predictions : list ModelPrediction) :
  dkeys (EnsembleCombiner.aggregate_statistics predictions) =
    first_seen (model_name <$> predictions) ∧
  ∀ predictions',
    predictions ≡ₚ predictions' →
    (∀ m, dget (EnsembleCombiner.aggregate_statistics predictions) m =
          dget (EnsembleCombiner.aggregate_statistics predictions') m) ∧
    EnsembleCombiner.aggregate_statistics predictions ≡ₚ
    EnsembleCombiner.aggregate_statistics predictions'.
Proof.
  split; [apply aggregate_statistics_keys|]. intros predictions' Hperm.
  assert (∀ m, dget (EnsembleCombiner.aggregate_statistics predictions) m =
               dget (EnsembleCombiner.aggregate_statistics predictions') m) as Hget.
  { intros m. rewrite !aggregate_statistics_lookup.
    pose proof (scores_of_Permutation _ _ m Hperm) as Hs.
    destruct (scores_of predictions m) as [|x l] eqn:Hl.
    - by apply Permutation_nil_l in Hs as <-.
    - destruct (scores_of predictions' m) as [|x' l'] eqn:Hl'.
      + by apply Permutation_nil_r in Hs.
      + f_equal. by apply mean_Permutation. }
  split; [done|].
  apply odict_Permutation; [| |done]; rewrite aggregate_statistics_keys;
    apply NoDup_first_seen.
Qed.

Lemma aggregate_statistics_reordering_witness :
  (∀ m, dget (EnsembleCombiner.aggregate_statistics Ex.abc) m =
        dget (EnsembleCombiner.aggregate_statistics Ex.cba) m) ∧
  EnsembleCombiner.aggregate_statistics Ex.abc ≡ₚ
  EnsembleCombiner.aggregate_statistics Ex.cba.
Proof.
  apply (proj2 (aggregate_statistics_reordering Ex.abc) Ex.cba).
  apply abc_cba_Permutation.
Defined.

(** ** Alerts: scores that are not numbers *)

(** X11: whatever the dispatcher's thresholds, a NaN score is classified
    "info", so [create_alerts] skips it. *)
Theorem nan_score_no_alert (format_2f : float → string) (d : AlertDispatcher)
    (s : EnsembleScore) (scores : list EnsembleScore) :
  is_nan (es_score s) = true →
  _determine_severity d (es_score s) = "info" ∧
  create_alerts format_2f d (s :: scores) = create_alerts format_2f d scores.
Proof.
  intros Hnan.
  assert (Prim2SF (es_score s) = S754_nan) as HSF.
  { unfold is_nan in Hnan. rewrite FloatAxioms.eqb_spec in Hnan.
    destruct (Prim2SF (es_score s)) as [[]|[]| |[] m e] eqn:H; try done.
    - unfold SFeqb in Hnan. simpl in Hnan.
      by rewrite Z.compare_refl, Pos.compare_cont_refl in Hnan.
    - unfold SFeqb in Hnan. simpl in Hnan.
      by rewrite Z.compare_refl, Pos.compare_cont_refl in Hnan. }
  assert (_determine_severity d (es_score s) = "info") as Hsev.
  { unfold _determine_severity. by rewrite !leb_nan_r. }
  split; [done|]. simpl. by rewrite Hsev.
Qed.

Lemma nan_score_no_alert_witness :
  _determine_severity default_dispatcher nan = "info" ∧
  create_alerts (λ _, "nan") default_dispatcher
    [ {| es_entity_id := "e"; es_score := nan; breakdown := [] |} ] =
  create_alerts (λ _, "nan") default_dispatcher [].
Proof.
  apply (nan_score_no_alert (λ _, "nan") default_dispatcher
           {| es_entity_id := "e"; es_score := nan; breakdown := [] |} []).
  reflexivity.
Defined.

(** ** Coordination graph: weights, edges and connected components *)

Section wallet_graph_weight_facts.
Import GraphModule.
Implicit Types (adj : adjacency_t).

(** Induction over the pairs of trades that [build_wallet_graph] weighs. *)
Lemma build_adjacency_ind (P : adjacency_t → Prop) threshold (trades : list TradeEvent) :
  P [] →
  (∀ adj ti tj, P adj → weighed trades ti tj → P (add_pair threshold adj ti tj)) →
  P (build_adjacency threshold trades).
Proof.
  intros Hnil Hstep. rewrite build_adjacency_pairs.
  apply fold_left_inv; [done|].
  intros adj [m mts] Hadj Hin. apply elem_of_trades_by_market in Hin as ->.
  apply fold_left_inv; [done|].
  intros adj' [ti tj] Hadj' Hpair. apply Hstep; [done|]. by exists m.
Qed.

Lemma adj_add_NoDup adj a b w :
  NoDup (dkeys adj) ∧ Forall (λ kv, NoDup (dkeys kv.2)) adj →
  NoDup (dkeys (adj_add adj a b w)) ∧
  Forall (λ kv, NoDup (dkeys kv.2)) (adj_add adj a b w).
Proof.
  intros [Hout Hin]. unfold adj_add. split; [by apply NoDup_dkeys_dset|].
  apply (dset_Forall (λ v, NoDup (dkeys v))); [done|].
  apply NoDup_dkeys_dset.
  destruct (dget adj a) as [inner|] eqn:Hget; simpl; [|constructor].
  apply dget_Some_elem_of in Hget. rewrite Forall_forall in Hin. apply (Hin _ Hget).
Qed.

Lemma build_adjacency_NoDup threshold (trades : list TradeEvent) :
  NoDup (dkeys (build_adjacency threshold trades)) ∧
  Forall (λ kv, NoDup (dkeys kv.2)) (build_adjacency threshold trades).
Proof.
  apply build_adjacency_ind; [split; constructor|].
  intros adj ti tj Hadj _. unfold add_pair.
  destruct (threshold <=? _)%float; [|done]. by do 2 apply adj_add_NoDup.
Qed.

Lemma add_pair_sym threshold adj ti tj :
  (∀ a b, dget2 adj a b = dget2 adj b a) →
  ∀ a b, dget2 (add_pair threshold adj ti tj) a b =
         dget2 (add_pair threshold adj ti tj) b a.
Proof.
  intros Hsym a b.
  destruct (threshold <=? _co_trading_weight ti tj)%float eqn:Hthr;
    [|by rewrite !add_pair_below].
  destruct (decide (account_id ti = account_id tj)) as [Heq|Hne].
  - unfold add_pair. rewrite Hthr, Heq, !dget2_adj_add.
    destruct (decide ((account_id tj, account_id tj) = (a, b))) as [[= <- <-]|Hab].
    + by rewrite !decide_True.
    + rewrite !decide_False by congruence. by rewrite Hsym.
  - rewrite !add_pair_lookup by done.
    destruct (decide ((a, b) = (account_id ti, account_id tj) ∨
                      (a, b) = (account_id tj, account_id ti))) as [Hab|Hab].
    + rewrite decide_True by (destruct Hab as [[= -> ->]|[= -> ->]]; auto).
      by rewrite Hsym.
    + rewrite decide_False; [done|].
      intros [[= -> ->]|[= -> ->]]; apply Hab; auto.
Qed.

Lemma build_adjacency_sym threshold (trades : list TradeEvent) (a b : string) :
  dget2 (build_adjacency threshold trades) a b =
  dget2 (build_adjacency threshold trades) b a.
Proof.
  revert a b. apply build_adjacency_ind; [done|].
  intros adj ti tj Hadj _. by apply add_pair_sym.
Qed.

Lemma edges_at_graph adj (a : string) :
  edges_at (map (λ '(node, edges), (node, edges_of node edges)) adj) a =
  edges_of a (default [] (dget adj a)).
Proof. unfold edges_at. rewrite dget_graph. by destruct (dget adj a). Qed.

Lemma elem_of_edges_of (a : string) (inner : odict string float) (e : GraphEdge) :
  e ∈ edges_of a inner ↔ source e = a ∧ (target e, weight e) ∈ inner.
Proof.
  unfold edges_of. rewrite list_elem_of_fmap. split.
  - by intros ([b w] & -> & Hin).
  - intros [<- Hin]. exists (target e, weight e). split; [by destruct e|done].
Qed.

(** An edge listed for [a] is an entry of the adjacency. *)
Lemma elem_of_edges_at threshold (trades : list TradeEvent) (a : string) (e : GraphEdge) :
  e ∈ edges_at (build_wallet_graph threshold trades) a ↔
  source e = a ∧ dget2 (build_adjacency threshold trades) a (target e) = Some (weight e).
Proof.
  unfold build_wallet_graph. rewrite edges_at_graph, elem_of_edges_of. unfold dget2.
  destruct (build_adjacency_NoDup threshold trades) as [_ Hin].
  destruct (dget (build_adjacency threshold trades) a) as [inner|] eqn:Hget; simpl.
  - apply dget_Some_elem_of in Hget. rewrite Forall_forall in Hin.
    specialize (Hin _ Hget). simpl in Hin. split; intros [? ?]; (split; [done|]).
    + by apply elem_of_dget_Some.
    + by apply dget_Some_elem_of.
  - rewrite elem_of_nil. split; intros [? ?]; done.
Qed.

Lemma build_adjacency_origin threshold (trades : list TradeEvent) (a b : string) :
  is_Some (dget2 (build_adjacency threshold trades) a b) →
  ∃ ti tj, weighed trades ti tj ∧
           (threshold <=? _co_trading_weight ti tj)%float = true ∧
           ((a, b) = (account_id ti, account_id tj) ∨
            (a, b) = (account_id tj, account_id ti)).
Proof.
  revert a b. apply build_adjacency_ind; [by intros a b [? ?]|].
  intros adj ti tj Hadj Hw a b. unfold add_pair.
  destruct (threshold <=? _)%float eqn:Hthr; [|by apply Hadj].
  rewrite !is_Some_dget2_adj_add. intros [Heq|[Heq|Hold]]; [| |by apply Hadj].
  - exists ti, tj. split_and!; [done..|by right].
  - exists ti, tj. split_and!; [done..|by left].
Qed.

Lemma build_adjacency_established threshold (trades : list TradeEvent) ti tj :
  weighed trades ti tj →
  (threshold <=? _co_trading_weight ti tj)%float = true →
  is_Some (dget2 (build_adjacency threshold trades) (account_id ti) (account_id tj)).
Proof.
  intros [m Hpair] Hthr. rewrite build_adjacency_pairs.
  set (mts := filter (λ t, market_id t = m) trades) in *.
  assert ((m, mts) ∈ trades_by_market trades) as Hin.
  { apply dget_Some_elem_of. rewrite trades_by_market_lookup. fold mts.
    destruct mts; [by apply elem_of_nil in Hpair|done]. }
  apply (fold_left_established
           (λ adj, is_Some (dget2 adj (account_id ti) (account_id tj))) _ _ _ _ Hin).
  - intros acc. apply (fold_left_established
           (λ adj, is_Some (dget2 adj (account_id ti) (account_id tj))) _ _ (ti, tj)).
    + done.
    + intros acc'. by apply add_pair_adds.
    + intros acc' [x y]. apply add_pair_keeps.
  - intros acc [m' mts'] Hacc. apply fold_left_inv; [done|].
    intros acc' [x y] Hacc' _. by apply add_pair_keeps.
Qed.

Lemma wallet_graph_has_edge_iff threshold (trades : list TradeEvent) (a b : string) :
  has_edge (build_wallet_graph threshold trades) a b ↔
  ∃ ti tj, weighed trades ti tj ∧
           (threshold <=? _co_trading_weight ti tj)%float = true ∧
           ((a, b) = (account_id ti, account_id tj) ∨
            (a, b) = (account_id tj, account_id ti)).
Proof.
  split.
  - intros Hab%has_edge_graph. by apply build_adjacency_origin.
  - intros (ti & tj & Hw & Hthr & Hab).
    assert (has_edge (build_wallet_graph threshold trades)
              (account_id ti) (account_id tj)) as Hedge.
    { apply has_edge_graph. by apply build_adjacency_established. }
    destruct Hab as [[= -> ->]|[= -> ->]]; [done|].
    by apply wallet_graph_symmetric.
Qed.

(** Two accounts are in one community of a wallet graph exactly when a path
    of edges joins them. *)
Lemma wallet_same_community threshold (trades : list TradeEvent)
    (cs : list (gset string)) (x y : string) :
  detect_communities (build_wallet_graph threshold trades) = Some cs →
  (∃ c, c ∈ cs ∧ x ∈ c ∧ y ∈ c) ↔
  tc (has_edge (build_wallet_graph threshold trades)) x y.
Proof.
  intros Hcs.
  destruct (wallet_graph_communities threshold trades) as (cs' & Hcs' & Hfound & Hkeys).
  assert (cs' = cs) as -> by congruence.
  pose proof (wallet_graph_symmetric threshold trades) as Hsym.
  set (G := build_wallet_graph threshold trades) in *.
  split.
  - intros (c & Hc & Hx & Hy).
    destruct (community_sound _ _ _ _ Hfound Hc) as (s & _ & _ & Hreach).
    assert (rtc (has_edge G) x y) as Hxy.
    { etrans; [apply rtc_symmetric, Hreach; done|by apply Hreach]. }
    apply rtc_tc in Hxy as [<-|Htc]; [|done].
    assert (x ∈ dkeys G) as Hkey.
    { apply Hkeys, elem_of_union_list. by exists c. }
    apply wallet_graph_keys in Hkey as [b Hb].
    eapply tc_l; [apply Hb|]. apply tc_once. by apply Hsym.
  - intros Htc.
    assert (x ∈ dkeys G) as Hkey.
    { apply wallet_graph_keys. inversion Htc; subst; by eexists. }
    apply Hkeys, elem_of_union_list in Hkey as (c & Hc & Hx).
    exists c. split_and!; [done..|].
    apply list_elem_of_lookup in Hc as [i Hi].
    eapply (rtc_closed G c x y); [by eapply community_closed|done|by apply tc_rtc].
Qed.

Lemma has_edge_nil (a b : string) : ¬ has_edge [] a b.
Proof. unfold has_edge, succs. simpl. set_solver. Qed.

End wallet_graph_weight_facts.

(** X12: a wallet graph is symmetric with equal weights: the edges listed
    for an account all have it as source and pairwise distinct targets, and
    [a] has an edge to [b] of weight [w] exactly when [b] has an edge to [a]
    of the same weight. *)
Theorem wallet_graph_weights_mirrored (threshold : float) (trades : list TradeEvent)
    (a b : string) (w : float) :
  Forall (λ e, source e = a) (edges_at (GraphModule.build_wallet_graph threshold trades) a) ∧
  NoDup (target <$> edges_at (GraphModule.build_wallet_graph threshold trades) a) ∧
  ({| source := a; target := b; weight := w |}
     ∈ edges_at (GraphModule.build_wallet_graph threshold trades) a ↔
   {| source := b; target := a; weight := w |}
     ∈ edges_at (GraphModule.build_wallet_graph threshold trades) b).
Proof.
  split_and!.
  - apply Forall_forall. by intros e [? _]%elem_of_edges_at.
  - unfold GraphModule.build_wallet_graph. rewrite edges_at_graph, targets_edges_of.
    destruct (build_adjacency_NoDup threshold trades) as [_ Hin].
    destruct (dget (GraphModule.build_adjacency threshold trades) a) as [inner|] eqn:Hget;
      simpl; [|constructor].
    apply dget_Some_elem_of in Hget. rewrite Forall_forall in Hin. apply (Hin _ Hget).
  - rewrite !elem_of_edges_at. simpl.
    rewrite (build_adjacency_sym threshold trades a b). tauto.
Qed.

(** X13: a wallet graph has an edge between two accounts exactly when some
    pair of trades of one market, one trade by each account, weighs at least
    the threshold; so the graph is empty exactly when no such pair of trades
    reaches the threshold. *)
Theorem wallet_graph_edge_iff (threshold : float) (trades : list TradeEvent) :
  (∀ a b,
     has_edge (GraphModule.build_wallet_graph threshold trades) a b ↔
     ∃ ti tj, weighed trades ti tj ∧
              (threshold <=? GraphModule._co_trading_weight ti tj)%float = true ∧
              ((a, b) = (account_id ti, account_id tj) ∨
               (a, b) = (account_id tj, account_id ti))) ∧
  (GraphModule.build_wallet_graph threshold trades = [] ↔
   ∀ ti tj, weighed trades ti tj →
            (threshold <=? GraphModule._co_trading_weight ti tj)%float = false).
Proof.
  split; [intros a b; apply wallet_graph_has_edge_iff|]. split.
  - intros Hnil ti tj Hw.
    destruct (threshold <=? _)%float eqn:Hthr; [|done].
    assert (has_edge (GraphModule.build_wallet_graph threshold trades)
              (account_id ti) (account_id tj)) as He.
    { apply wallet_graph_has_edge_iff. exists ti, tj. split_and!; [done..|by left]. }
    rewrite Hnil in He. by apply has_edge_nil in He.
  - intros Hall. unfold GraphModule.build_wallet_graph.
    assert (GraphModule.build_adjacency threshold trades = []) as ->; [|done].
    apply build_adjacency_ind; [done|].
    intros adj ti tj -> Hw. apply add_pair_below. by apply Hall.
Qed.

(** X14: the communities of a wallet graph are its connected components: two
    accounts are in the same community exactly when a path of one or more
    edges leads from one to the other. *)
Theorem wallet_graph_components (threshold : float) (trades : list TradeEvent) :
  ∃ cs, GraphModule.detect_communities
          (GraphModule.build_wallet_graph threshold trades) = Some cs ∧
        ∀ x y, (∃ c, c ∈ cs ∧ x ∈ c ∧ y ∈ c) ↔
               tc (has_edge (GraphModule.build_wallet_graph threshold trades)) x y.
Proof.
  destruct (wallet_graph_communities threshold trades) as (cs & Hcs & _).
  exists cs. split; [done|]. intros x y. by apply wallet_same_community.
Qed.

Section component_facts.
Import GraphModule.

Lemma components_length (fuel : nat) (graph : graph_t) (nodes : list string)
    (visited : gset string) (cs cs' : list (gset string)) :
  components fuel graph nodes visited cs = Some cs' →
  (length cs' ≤ length cs + length nodes)%nat.
Proof.
  revert visited cs. induction nodes as [|node rest IH]; intros visited cs; simpl.
  - intros [= <-]. lia.
  - case_bool_decide.
    + intros H'%IH. lia.
    + destruct (bfs fuel graph [node] _ ∅) as [[visited' c]|]; [|done].
      intros H'%IH. rewrite length_app in H'. simpl in H'. lia.
Qed.

End component_facts.

(** X15: on any graph, directed or not, [detect_communities] returns at most
    as many communities as the graph has keys, and each community is grown
    from one key of the graph: it holds that key and is exactly the set of
    nodes that can be reached from the key and are in no earlier community. *)
Theorem detect_communities_reachable (graph : GraphModule.graph_t) :
  ∃ cs, GraphModule.detect_communities graph = Some cs ∧
        (length cs ≤ length (dkeys graph))%nat ∧
        ∀ i c, cs !! i = Some c →
          ∃ s, s ∈ dkeys graph ∧ s ∈ c ∧
               ∀ x, x ∈ c ↔ rtc (has_edge graph) s x ∧ x ∉ ⋃ take i cs.
Proof.
  destruct (detect_communities_found graph) as (cs & Hcs & Hfound & _).
  exists cs. split_and!; [done| |].
  - apply components_length in Hcs. simpl in Hcs. lia.
  - intros i c Hi.
    destruct (community_sound _ _ _ _ Hfound (list_elem_of_lookup_2 _ _ _ Hi))
      as (s & Hkey & Hs & Hreach).
    exists s. split_and!; [done..|]. intros x.
    destruct Hfound as (_ & Hdisj & Hclosed & _). split.
    + intros Hx. split; [by apply Hreach|].
      intros (k & ck & Hk & Hck & Hxk)%elem_of_union_take.
      assert (k ≠ i) as Hne by lia.
      specialize (Hdisj k i ck c Hck Hi Hne). set_solver.
    + intros [Hrtc Hnot].
      assert (x ∈ ⋃ take (S i) cs) as Hx.
      { eapply rtc_closed; [apply Hclosed| |done].
        apply elem_of_union_take. exists i, c. split_and!; [lia|done..]. }
      apply elem_of_union_take in Hx as (k & ck & Hk & Hck & Hxk).
      destruct (decide (k = i)) as [->|Hne]; [congruence|].
      exfalso. apply Hnot, elem_of_union_take. exists k, ck. split_and!; [lia|done..].
Qed.

Lemma detect_communities_reachable_witness :
  ∃ s, s ∈ dkeys (GraphModule.build_wallet_graph GraphModule.default_threshold
                    [Ex.a1; Ex.b1; Ex.c1]) ∧
       ∀ x, x ∈ ({[ "A"; "B" ]} : gset string) ↔
            rtc (has_edge (GraphModule.build_wallet_graph GraphModule.default_threshold
                             [Ex.a1; Ex.b1; Ex.c1])) s x ∧
            x ∉ ⋃ take 0 [ ({[ "A"; "B" ]} : gset string) ].
Proof.
  destruct (detect_communities_reachable
              (GraphModule.build_wallet_graph GraphModule.default_threshold
                 [Ex.a1; Ex.b1; Ex.c1])) as (cs & Hcs & _ & Hall).
  assert (cs = [ {[ "A"; "B" ]} ]) as ->.
  { vm_compute in Hcs. injection Hcs as <-. vm_compute. reflexivity. }
  destruct (Hall 0%nat {[ "A"; "B" ]} eq_refl) as (s & Hs & _ & Hx).
  by exists s.
Defined.

(** ** Sequence module *)

Section sequence_facts.
Import SequenceModule.
Variable libm : Libm.
Variable embedding_dim : nat.

Lemma insert_by_time_length (t : TradeEvent) (sorted : list TradeEvent) :
  length (insert_by_time t sorted) = S (length sorted).
Proof.
  induction sorted as [|u rest IH]; simpl; [done|].
  destruct (timestamp t <=? timestamp u)%Z; simpl; by rewrite ?IH.
Qed.

Lemma sorted_by_time_length (trades : list TradeEvent) :
  length (sorted_by_time trades) = length trades.
Proof.
  induction trades as [|t l IH]; simpl; [done|].
  by rewrite insert_by_time_length, IH.
Qed.

Lemma add_positions_length (positions : list nat) (vals : list float) :
  length (fold_left (add_position libm embedding_dim) positions vals) = length vals.
Proof.
  revert vals. induction positions as [|p l IH]; intros vals; simpl; [done|].
  rewrite IH. apply length_imap.
Qed.

Lemma add_positions_lookup (positions : list nat) (vals : list float) (idx : nat) (v : float) :
  vals !! idx = Some v →
  fold_left (add_position libm embedding_dim) positions vals !! idx =
  Some (fold_left
          (λ acc position,
             if Nat.even idx
             then (acc + libm_sin libm (angle libm embedding_dim position idx))%float
             else (acc + libm_cos libm (angle libm embedding_dim position idx))%float)
          positions v).
Proof.
  revert vals v. induction positions as [|p l IH]; intros vals v Hv; simpl; [done|].
  apply IH. unfold add_position. rewrite list_lookup_imap, Hv. simpl.
  by destruct (Nat.even idx).
Qed.

Lemma sequences_snoc (trades : list TradeEvent) (t : TradeEvent) :
  sequences (trades ++ [t]) =
  dset (sequences trades) (account_id t)
    (default [] (dget (sequences trades) (account_id t)) ++ [t]).
Proof. unfold sequences. by rewrite fold_left_app. Qed.

Lemma sequences_lookup (trades : list TradeEvent) (a : string) :
  dget (sequences trades) a =
  match filter (λ t, account_id t = a) trades with
  | [] => None
  | l => Some l
  end.
Proof.
  induction trades as [|t l IH] using rev_ind; [done|].
  rewrite sequences_snoc, dget_dset, filter_app, filter_cons, filter_nil.
  destruct (decide (account_id t = a)) as [<-|Hne].
  - rewrite IH. by destruct (filter _ l).
  - by rewrite app_nil_r.
Qed.

Lemma sequences_keys (trades : list TradeEvent) :
  dkeys (sequences trades) = first_seen (account_id <$> trades).
Proof.
  apply (dkeys_grouped account_id (λ acc t, default [] (dget acc (account_id t)) ++ [t])).
Qed.

Lemma elem_of_sequences (trades : list TradeEvent) (a : string) (l : list TradeEvent) :
  (a, l) ∈ sequences trades → l = filter (λ t, account_id t = a) trades.
Proof.
  intros Hin. apply elem_of_dget_Some in Hin;
    [|rewrite sequences_keys; apply NoDup_first_seen].
  rewrite sequences_lookup in Hin. by destruct (filter _ trades); simplify_eq.
Qed.

Lemma encode_entities (trades : list TradeEvent) :
  se_entity_id <$> encode libm embedding_dim trades = first_seen (account_id <$> trades).
Proof.
  rewrite <-sequences_keys. unfold encode, dkeys.
  rewrite <-list_fmap_compose. apply list_fmap_ext. by intros i [a l] _.
Qed.

Lemma elem_of_encode (trades : list TradeEvent) (e : SequenceEmbedding) :
  e ∈ encode libm embedding_dim trades →
  values e = _positional_encoding libm embedding_dim
               (filter (λ t, account_id t = se_entity_id e) trades).
Proof.
  unfold encode. intros ([a l] & -> & Hin)%list_elem_of_fmap. simpl.
  by rewrite (elem_of_sequences _ _ _ Hin).
Qed.

Lemma embed_lookup_last (embeddings : list SequenceEmbedding) (a : string) :
  dget (embed_lookup embeddings) a = last (filter (λ e, se_entity_id e = a) embeddings).
Proof.
  unfold embed_lookup.
  induction embeddings as [|e l IH] using rev_ind; [done|].
  rewrite fold_left_app, filter_app, filter_cons, filter_nil. simpl.
  rewrite dget_dset. destruct (decide (se_entity_id e = a)) as [<-|Hne].
  - by rewrite last_snoc.
  - by rewrite app_nil_r.
Qed.

(** The embedding that [encode] holds for an account with a trade. *)
Lemma encode_lookup (trades : list TradeEvent) (a : string) :
  a ∈ account_id <$> trades →
  dget (embed_lookup (encode libm embedding_dim trades)) a =
  Some {| se_entity_id := a;
          values := _positional_encoding libm embedding_dim
                      (filter (λ t, account_id t = a) trades) |}.
Proof.
  intros Ha. rewrite embed_lookup_last.
  assert (a ∈ se_entity_id <$> encode libm embedding_dim trades) as Hin.
  { rewrite encode_entities. by apply elem_of_first_seen. }
  apply list_elem_of_fmap in Hin as (e & -> & He).
  assert (NoDup (se_entity_id <$> encode libm embedding_dim trades)) as Hnd.
  { rewrite encode_entities. apply NoDup_first_seen. }
  pose proof (elem_of_encode _ _ He) as Hval.
  revert Hnd He. generalize (encode libm embedding_dim trades).
  intros l Hnd Hin. induction l as [|e' l IH]; [by apply elem_of_nil in Hin|].
  csimpl in Hnd. apply NoDup_cons in Hnd as [Hnotin Hnd].
  rewrite filter_cons. apply elem_of_cons in Hin as [<-|Hin].
  - rewrite decide_True by done.
    assert (filter (λ e0, se_entity_id e0 = se_entity_id e) l = []) as ->.
    { apply elem_of_nil_inv. intros x [Hx Hxl]%list_elem_of_filter.
      apply Hnotin. rewrite <-Hx. by apply list_elem_of_fmap_2. }
    simpl. f_equal. destruct e. simpl in *. by rewrite Hval.
  - rewrite decide_False; [by apply IH|].
    intros Heq. apply Hnotin. rewrite Heq. by apply list_elem_of_fmap_2.
Qed.

End sequence_facts.

Lemma str_of_nat_inj (i j : nat) : Py.str_of_nat i = Py.str_of_nat j → i = j.
Proof.
  unfold Py.str_of_nat. intros Heq.
  assert (Some (Nat.to_uint i) = Some (Nat.to_uint j)) as [= Hu].
  { by rewrite <-!NilEmpty.usu, Heq. }
  by rewrite <-(DecimalNat.Unsigned.of_to i), <-(DecimalNat.Unsigned.of_to j), Hu.
Qed.

Lemma seq_key_inj (i j : nat) :
  "seq_" +:+ Py.str_of_nat i = "seq_" +:+ Py.str_of_nat j → i = j.
Proof. intros Heq. apply str_of_nat_inj. by simplify_eq/=. Qed.

Lemma augment_snoc (feats : odict string float) (vals : list float) (x : float) :
  SequenceModule.augment feats (vals ++ [x]) =
  dset (SequenceModule.augment feats vals) ("seq_" +:+ Py.str_of_nat (length vals)) x.
Proof.
  unfold SequenceModule.augment. rewrite imap_app, fold_left_app. simpl.
  by rewrite Nat.add_0_r.
Qed.

(** X16: the encoding of a trade sequence has [embedding_dim] values and
    depends on the sequence only through its length: entry [idx] is the sum,
    over the positions [0 .. n-1], of the sine (even [idx]) or cosine (odd
    [idx]) of the position's angle, so two sequences of equally many trades
    get the same encoding. *)
Theorem positional_encoding_count_only (libm : Libm) (embedding_dim : nat)
    (trades : list TradeEvent) :
  length (SequenceModule._positional_encoding libm embedding_dim trades) = embedding_dim ∧
  (∀ idx, (idx < embedding_dim)%nat →
     SequenceModule._positional_encoding libm embedding_dim trades !! idx =
     Some (fold_left
             (λ acc position,
                if Nat.even idx
                then (acc + libm_sin libm
                              (SequenceModule.angle libm embedding_dim position idx))%float
                else (acc + libm_cos libm
                              (SequenceModule.angle libm embedding_dim position idx))%float)
             (seq 0 (length trades)) 0%float)) ∧
  (∀ trades', length trades' = length trades →
     SequenceModule._positional_encoding libm embedding_dim trades' =
     SequenceModule._positional_encoding libm embedding_dim trades).
Proof.
  unfold SequenceModule._positional_encoding. split_and!.
  - by rewrite add_positions_length, length_replicate.
  - intros idx Hidx. rewrite sorted_by_time_length.
    apply add_positions_lookup. by apply lookup_replicate_2.
  - intros trades' Hlen. by rewrite !sorted_by_time_length, Hlen.
Qed.

Lemma positional_encoding_count_only_witness :
  SequenceModule._positional_encoding Ex.libm 2 [Ex.s2; Ex.s4] !! 1%nat =
    Some (fold_left
            (λ acc position,
               if Nat.even 1
               then (acc + libm_sin Ex.libm (SequenceModule.angle Ex.libm 2 position 1))%float
               else (acc + libm_cos Ex.libm (SequenceModule.angle Ex.libm 2 position 1))%float)
            (seq 0 (length [Ex.s2; Ex.s4])) 0%float) ∧
  SequenceModule._positional_encoding Ex.libm 2 [Ex.a1; Ex.c1] =
  SequenceModule._positional_encoding Ex.libm 2 [Ex.s2; Ex.s4].
Proof.
  split.
  - apply (proj1 (proj2 (positional_encoding_count_only Ex.libm 2 [Ex.s2; Ex.s4])) 1%nat).
    lia.
  - apply (proj2 (proj2 (positional_encoding_count_only Ex.libm 2 [Ex.s2; Ex.s4]))
             [Ex.a1; Ex.c1]).
    reflexivity.
Defined.

(** X17: [encode] returns exactly one embedding per account that has a trade,
    the accounts in the order in which they first trade; the embedding of an
    account is the encoding of that account's trades of the batch. *)
Theorem encode_one_per_account (libm : Libm) (embedding_dim : nat)
    (trades : list TradeEvent) :
  se_entity_id <$> SequenceModule.encode libm embedding_dim trades =
    first_seen (account_id <$> trades) ∧
  NoDup (se_entity_id <$> SequenceModule.encode libm embedding_dim trades) ∧
  Forall (λ e, values e =
               SequenceModule._positional_encoding libm embedding_dim
                 (filter (λ t, account_id t = se_entity_id e) trades))
    (SequenceModule.encode libm embedding_dim trades).
Proof.
  split_and!.
  - apply encode_entities.
  - rewrite encode_entities. apply NoDup_first_seen.
  - apply Forall_forall. intros e He. by apply elem_of_encode.
Qed.

(** X18: the loop that adds an embedding to a feature mapping stores value
    [i] under the name "seq_i", overwriting a feature of that name, and
    leaves every feature of another name as it was. *)
Theorem augment_lookup (feats : odict string float) (vals : list float) :
  (∀ i x, vals !! i = Some x →
     dget (SequenceModule.augment feats vals) ("seq_" +:+ Py.str_of_nat i) = Some x) ∧
  (∀ k, (∀ i, (i < length vals)%nat → k ≠ "seq_" +:+ Py.str_of_nat i) →
     dget (SequenceModule.augment feats vals) k = dget feats k).
Proof.
  induction vals as [|v l [IH1 IH2]] using rev_ind; [by split|].
  rewrite augment_snoc. split.
  - intros i x Hi. rewrite dget_dset.
    apply lookup_snoc_Some in Hi as [[Hlt Hi]|[-> ->]].
    + rewrite decide_False; [by apply IH1|].
      intros Heq%seq_key_inj. lia.
    + by rewrite decide_True.
  - intros k Hk. rewrite length_app in Hk. simpl in Hk.
    rewrite dget_dset, decide_False.
    + apply IH2. intros i Hi. apply Hk. lia.
    + intros Heq. apply (Hk (length l)); [lia|done].
Qed.

Lemma augment_lookup_witness :
  dget (SequenceModule.augment [("seq_1", 9%float); ("x", 7%float)] [0.5; 0.25]%float)
       ("seq_" +:+ Py.str_of_nat 1) = Some 0.25%float ∧
  dget (SequenceModule.augment [("seq_1", 9%float); ("x", 7%float)] [0.5; 0.25]%float) "x" =
  dget [("seq_1", 9%float); ("x", 7%float)] "x".
Proof.
  split.
  - apply (proj1 (augment_lookup [("seq_1", 9%float); ("x", 7%float)] [0.5; 0.25]%float)
             1%nat).
    reflexivity.
  - apply (proj2 (augment_lookup [("seq_1", 9%float); ("x", 7%float)] [0.5; 0.25]%float)).
    intros i Hi Heq. vm_compute in Heq. simpl in Hi.
    destruct i as [|[|i]]; [discriminate Heq..|lia].
Defined.

(** X19: [enrich_features] returns the vectors in order with their entity
    and timestamp unchanged; a vector whose entity has an embedding gets the
    values of the last embedding given for that entity added to a copy of its
    features, and a vector whose entity has none is returned as it is. *)
Theorem enrich_features_last_embedding (fvs : list FeatureVector)
    (embeddings : list SequenceEmbedding) :
  (λ v, (entity_id v, as_of v)) <$> SequenceModule.enrich_features fvs embeddings =
    (λ v, (entity_id v, as_of v)) <$> fvs ∧
  features <$> SequenceModule.enrich_features fvs embeddings =
    (λ v, match last (filter (λ e, se_entity_id e = entity_id v) embeddings) with
          | Some e => SequenceModule.augment (features v) (values e)
          | None => features v
          end) <$> fvs ∧
  (∀ i v, fvs !! i = Some v → entity_id v ∉ se_entity_id <$> embeddings →
     SequenceModule.enrich_features fvs embeddings !! i = Some v).
Proof.
  unfold SequenceModule.enrich_features. split_and!.
  - rewrite <-list_fmap_compose. apply list_fmap_ext. intros i v _. simpl.
    by destruct (dget _ _).
  - rewrite <-list_fmap_compose. apply list_fmap_ext. intros i v _. simpl.
    rewrite embed_lookup_last. by destruct (last _).
  - intros i v Hi Hnot. rewrite list_lookup_fmap, Hi. simpl.
    rewrite embed_lookup_last.
    assert (filter (λ e, se_entity_id e = entity_id v) embeddings = []) as ->; [|done].
    apply elem_of_nil_inv. intros e [He Hin]%list_elem_of_filter.
    apply Hnot. rewrite <-He. by apply list_elem_of_fmap_2.
Qed.

Lemma enrich_features_last_embedding_witness :
  SequenceModule.enrich_features (FeatureStore.compute_features ∅ [Ex.s2]).1
    [ {| se_entity_id := "bob"; values := [1%float] |} ] !! 0%nat =
  Some {| entity_id := "alice";
          features := [("avg_trade_size", 2%float); ("profit_proxy", 0.5%float);
                       ("time_to_resolution_est", 1%float)];
          as_of := 0 |}.
Proof.
  apply (proj2 (proj2 (enrich_features_last_embedding
                         (FeatureStore.compute_features ∅ [Ex.s2]).1
                         [ {| se_entity_id := "bob"; values := [1%float] |} ])) 0%nat).
  - vm_compute. reflexivity.
  - intros Hin. vm_compute in Hin. apply list_elem_of_singleton in Hin. discriminate Hin.
Defined.

(** X20: with a sequence module configured, every feature vector of a run
    gets the encoding of its own account's trades of the batch added to its
    features, so all the vectors of one account get the same added values. *)
Theorem enrich_with_sequences_per_account (libm : Libm) (p : InsiderDetectionPipeline)
    (dim : nat) (trades : list TradeEvent) :
  sequence_module p = Some dim →
  backtest_vectors libm p trades =
  (λ v, {| entity_id := entity_id v;
           features :=
             SequenceModule.augment (features v)
               (SequenceModule._positional_encoding libm dim
                  (filter (λ t, account_id t = entity_id v) trades));
           as_of := as_of v |})
    <$> (FeatureStore.compute_features (feature_store p) trades).1.
Proof.
  intros Hdim. unfold backtest_vectors, Pipeline._enrich_with_sequences.
  rewrite Hdim. unfold SequenceModule.enrich_features.
  apply list_fmap_ext. intros i v Hv.
  rewrite encode_lookup; [done|].
  rewrite <-(compute_features_entities (feature_store p)). apply list_elem_of_fmap_2.
  by eapply list_elem_of_lookup_2.
Qed.

Lemma enrich_with_sequences_per_account_witness :
  backtest_vectors Ex.libm
    {| data_ingestion := []; feature_store := ∅; model_zoo := []; ensemble := ∅;
       alert_dispatcher := default_dispatcher; sequence_module := Some 2%nat;
       graph_module := None; anomaly_module := None; explainability := None;
       markets_of_interest := None; alerts := []; explanations := [];
       anomaly_scores := [] |} [Ex.s2] =
  (λ v, {| entity_id := entity_id v;
           features :=
             SequenceModule.augment (features v)
               (SequenceModule._positional_encoding Ex.libm 2
                  (filter (λ t, account_id t = entity_id v) [Ex.s2]));
           as_of := as_of v |})
    <$> (FeatureStore.compute_features ∅ [Ex.s2]).1.
Proof.
  apply (enrich_with_sequences_per_account Ex.libm
           {| data_ingestion := []; feature_store := ∅; model_zoo := []; ensemble := ∅;
              alert_dispatcher := default_dispatcher; sequence_module := Some 2%nat;
              graph_module := None; anomaly_module := None; explainability := None;
              markets_of_interest := None; alerts := []; explanations := [];
              anomaly_scores := [] |} 2%nat [Ex.s2]).
  reflexivity.
Defined.

(** ** Evaluation *)

Section evaluation_facts.
Import Evaluation.

Lemma count_one_spec (ground_truth : gmap string Z) (threshold : float)
    (tp fp fn : nat) (q : EnsembleScore) :
  count_one ground_truth threshold (tp, fp, fn) q =
  ((tp + if decide (flagged threshold q = true ∧ label_of ground_truth q = 1%Z)
         then 1 else 0)%nat,
   (fp + if decide (flagged threshold q = true ∧ label_of ground_truth q = 0%Z)
         then 1 else 0)%nat,
   (fn + if decide (flagged threshold q = false ∧ label_of ground_truth q = 1%Z)
         then 1 else 0)%nat).
Proof.
  unfold count_one. fold (label_of ground_truth q). fold (flagged threshold q).
  destruct (flagged threshold q) eqn:Hf; simpl;
    repeat case_bool_decide; repeat case_decide;
    first [ by (f_equal; [f_equal|]; lia) | exfalso; intuition (congruence || lia) ].
Qed.

Lemma counts_from (predictions : list EnsembleScore) (ground_truth : gmap string Z)
    (threshold : float) (tp fp fn : nat) :
  fold_left (count_one ground_truth threshold) predictions (tp, fp, fn) =
  ((tp + length (filter (λ q, flagged threshold q = true ∧ label_of ground_truth q = 1%Z)
                   predictions))%nat,
   (fp + length (filter (λ q, flagged threshold q = true ∧ label_of ground_truth q = 0%Z)
                   predictions))%nat,
   (fn + length (filter (λ q, flagged threshold q = false ∧ label_of ground_truth q = 1%Z)
                   predictions))%nat).
Proof.
  revert tp fp fn. induction predictions as [|q l IH]; intros tp fp fn.
  { simpl. by rewrite !Nat.add_0_r. }
  cbn [fold_left]. rewrite count_one_spec, IH, !filter_cons.
  repeat case_decide; simpl; (f_equal; [f_equal|]); lia.
Qed.

Lemma ratio_0_l (den : nat) : ratio 0 den = 0%float.
Proof.
  unfold ratio. destruct den as [|n]; [done|].
  apply int_truediv_0_l. lia.
Qed.

End evaluation_facts.

(** X21: the counting loop of [compute_classification_metrics] counts as
    a true positive each prediction at or above the threshold whose entity is
    labelled 1, as a false positive each one at or above it whose entity is
    labelled 0 or has no label, and as a false negative each one below it (or
    with a NaN score) whose entity is labelled 1; every other prediction,
    one with a label other than 0 and 1 included, is counted nowhere. *)
Theorem counts_spec (predictions : list EnsembleScore) (ground_truth : gmap string Z)
    (threshold : float) :
  Evaluation.counts predictions ground_truth threshold =
  (length (filter (λ q, flagged threshold q = true ∧ label_of ground_truth q = 1)
             predictions),
   length (filter (λ q, flagged threshold q = true ∧ label_of ground_truth q = 0)
             predictions),
   length (filter (λ q, flagged threshold q = false ∧ label_of ground_truth q = 1)
             predictions)).
Proof. unfold Evaluation.counts. by rewrite counts_from. Qed.

(** X22: when no prediction is a true positive (in particular when there are
    no predictions at all), precision, recall and F1 are all exactly 0.0: no
    division by zero is attempted. *)
Theorem metrics_without_true_positive (predictions : list EnsembleScore)
    (ground_truth : gmap string Z) (threshold : float) :
  (∀ q, q ∈ predictions → flagged threshold q = true → label_of ground_truth q ≠ 1) →
  Evaluation.compute_classification_metrics predictions ground_truth threshold =
  {| precision := 0; recall := 0; f1 := 0 |}.
Proof.
  intros Hno. unfold Evaluation.compute_classification_metrics, Evaluation.counts.
  rewrite counts_from.
  assert (filter (λ q, flagged threshold q = true ∧ label_of ground_truth q = 1)
            predictions = []) as ->.
  { apply elem_of_nil_inv. intros q [[Hf Hl] Hin]%list_elem_of_filter.
    by apply (Hno q). }
  simpl. by rewrite !ratio_0_l.
Qed.

Lemma metrics_without_true_positive_witness :
  Evaluation.compute_classification_metrics
    [ {| es_entity_id := "e"; es_score := 0.6; breakdown := [] |} ] ∅ 0.5 =
  {| precision := 0; recall := 0; f1 := 0 |}.
Proof.
  apply (metrics_without_true_positive
           [ {| es_entity_id := "e"; es_score := 0.6; breakdown := [] |} ] ∅ 0.5).
  intros q Hq _. apply list_elem_of_singleton in Hq. rewrite Hq. discriminate.
Defined.

(** ** The inference run *)

Section inference_facts.
Variable libm : Libm.
Variable format_2f : float → string.
Variable sorted_by_abs_desc : list (string * float) → list (string * float).

Lemma create_alerts_sublist (d : AlertDispatcher) (scores : list EnsembleScore) :
  sublist (al_entity_id <$> create_alerts format_2f d scores) (es_entity_id <$> scores).
Proof.
  induction scores as [|s l IH]; simpl; [done|].
  case_bool_decide; csimpl; [by apply sublist_cons|by apply sublist_skip].
Qed.

Lemma elem_of_load_trade_events (p : InsiderDetectionPipeline) (trade : TradeEvent) :
  trade ∈ Inference._load_trade_events p ↔
  trade ∈ mjoin (data_ingestion p) ∧
  ∀ markets, markets_of_interest p = Some markets → market_id trade ∈ markets.
Proof.
  unfold Inference._load_trade_events, Inference.get_recent_trades.
  destruct (markets_of_interest p) as [markets|].
  - rewrite list_elem_of_filter. split.
    + intros [Hm Hin]. split; [done|]. by intros ? [= <-].
    + intros [Hin Hm]. split; [|done]. by apply Hm.
  - split; [|by intros [? _]]. intros Hin. split; [done|]. by intros ? [=].
Qed.

Lemma enrich_with_sequences_entities (p : InsiderDetectionPipeline)
    (trades : list TradeEvent) (fvs : list FeatureVector) :
  entity_id <$> Pipeline._enrich_with_sequences libm p trades fvs = entity_id <$> fvs.
Proof.
  unfold Pipeline._enrich_with_sequences. destruct (sequence_module p); [|done].
  unfold SequenceModule.enrich_features. rewrite <-list_fmap_compose.
  apply list_fmap_ext. intros i v _. simpl. by destruct (dget _ _).
Qed.

Lemma inference_vectors_entities (p : InsiderDetectionPipeline) :
  entity_id <$> inference_vectors libm p = account_id <$> Inference._load_trade_events p.
Proof.
  unfold inference_vectors.
  by rewrite enrich_with_sequences_entities, compute_features_entities.
Qed.

Lemma generate_predictions_entities (p : InsiderDetectionPipeline)
    (fvs : list FeatureVector) (q : ModelPrediction) :
  q ∈ Pipeline._generate_predictions p fvs → mp_entity_id q ∈ entity_id <$> fvs.
Proof.
  unfold Pipeline._generate_predictions.
  intros (fv & Hq & Hfv)%list_elem_of_bind.
  apply list_elem_of_bind in Hq as (m & Hq & _).
  apply list_elem_of_singleton in Hq as ->. simpl. by apply list_elem_of_fmap_2.
Qed.

(** Every combined score of a run is about the account of a loaded trade. *)
Lemma inference_scores_entities (p : InsiderDetectionPipeline) (es : EnsembleScore) :
  es ∈ inference_scores libm p →
  es_entity_id es ∈ entity_id <$> inference_vectors libm p.
Proof.
  unfold inference_scores. intros [Hin _]%elem_of_combine.
  assert (es_entity_id es ∈ dkeys (EnsembleCombiner.group
            (Pipeline._generate_predictions p (inference_vectors libm p)))) as Hkey.
  { unfold dkeys. by apply (list_elem_of_fmap_2 fst) in Hin. }
  apply elem_of_group_keys in Hkey as (q & Hq & <-).
  by apply generate_predictions_entities in Hq.
Qed.

Lemma run_inference_unfold (p : InsiderDetectionPipeline) :
  Inference.run_inference libm format_2f sorted_by_abs_desc p =
  (create_alerts format_2f (alert_dispatcher p) (inference_scores libm p),
   {| data_ingestion := data_ingestion p;
      feature_store :=
        (FeatureStore.compute_features (feature_store p)
           (Inference._load_trade_events p)).2;
      model_zoo := model_zoo p;
      ensemble := ensemble p;
      alert_dispatcher :=
        dispatch (alert_dispatcher p)
          (create_alerts format_2f (alert_dispatcher p) (inference_scores libm p));
      sequence_module := sequence_module p;
      graph_module := graph_module p;
      anomaly_module := anomaly_module p;
      explainability := explainability p;
      markets_of_interest := markets_of_interest p;
      alerts := create_alerts format_2f (alert_dispatcher p) (inference_scores libm p);
      explanations :=
        Inference._build_explanations format_2f sorted_by_abs_desc p
          (inference_vectors libm p) (inference_scores libm p);
      anomaly_scores := Pipeline._run_anomaly_detectors p (inference_vectors libm p) |}).
Proof.
  unfold Inference.run_inference, inference_scores, inference_vectors.
  by destruct (FeatureStore.compute_features _ _).
Qed.

Lemma feature_lookup_last (fvs : list FeatureVector) (a : string) :
  dget (Inference.feature_lookup fvs) a = last (filter (λ v, entity_id v = a) fvs).
Proof.
  unfold Inference.feature_lookup.
  induction fvs as [|v l IH] using rev_ind; [done|].
  rewrite fold_left_app, filter_app, filter_cons, filter_nil. simpl.
  rewrite dget_dset. destruct (decide (entity_id v = a)) as [<-|Hne].
  - by rewrite last_snoc.
  - by rewrite app_nil_r.
Qed.

Lemma last_filter_is_Some {A} (P : A → Prop) `{∀ x, Decision (P x)} (l : list A) (x : A) :
  x ∈ l → P x → is_Some (last (filter P l)).
Proof.
  intros Hin HP. destruct (filter P l) as [|y k] eqn:Hf using rev_ind.
  - assert (x ∈ filter P l) as Hx by (by apply list_elem_of_filter).
    rewrite Hf in Hx. by apply elem_of_nil in Hx.
  - rewrite last_snoc. by eexists.
Qed.

Lemma explanations_per_score (fvs : list FeatureVector) (scores : list EnsembleScore) :
  Forall (λ es, es_entity_id es ∈ entity_id <$> fvs) scores →
  Forall2
    (λ es ex, ∃ v, last (filter (λ v, entity_id v = es_entity_id es) fvs) = Some v ∧
                   ex = Explainability.build_explanations format_2f sorted_by_abs_desc
                          (features v) es)
    scores
    (omap (λ score,
             vector ← dget (Inference.feature_lookup fvs) (es_entity_id score);
             Some (Explainability.build_explanations format_2f sorted_by_abs_desc
                     (features vector) score))
          scores).
Proof.
  induction 1 as [|es l Hes _ IH]; [constructor|]. csimpl.
  rewrite feature_lookup_last.
  apply list_elem_of_fmap in Hes as (v & Hv & Hin).
  destruct (last_filter_is_Some (λ v, entity_id v = es_entity_id es) fvs v Hin)
    as [v' Hv']; [done|].
  rewrite Hv'. simpl. constructor; [|done]. by exists v'.
Qed.

End inference_facts.

(** X23: [run_inference] returns the alerts it stores in [alerts]: the alerts
    of the run's combined scores; it appends them to the dispatcher's sink;
    it raises at most one alert per account; and every alert is about the
    account of a trade that the ingestion delivered, in a market of interest
    when markets of interest are configured. *)
Theorem run_inference_alerts (libm : Libm) (format_2f : float → string)
    (sorted_by_abs_desc : list (string * float) → list (string * float))
    (p : InsiderDetectionPipeline) :
  let r := Inference.run_inference libm format_2f sorted_by_abs_desc p in
  r.1 = create_alerts format_2f (alert_dispatcher p) (inference_scores libm p) ∧
  alerts r.2 = r.1 ∧
  sent_alerts (alert_dispatcher r.2) = sent_alerts (alert_dispatcher p) ++ r.1 ∧
  NoDup (al_entity_id <$> r.1) ∧
  ∀ a, a ∈ r.1 →
    ∃ trade, trade ∈ mjoin (data_ingestion p) ∧
             account_id trade = al_entity_id a ∧
             ∀ markets, markets_of_interest p = Some markets → market_id trade ∈ markets.
Proof.
  intros r. unfold r. rewrite run_inference_unfold. simpl.
  pose proof (create_alerts_sublist format_2f (alert_dispatcher p)
                (inference_scores libm p)) as Hsub.
  split_and!; [done..| |].
  - eapply sublist_NoDup; [|exact Hsub].
    unfold inference_scores. rewrite combine_keys.
    apply group_keys_NoDup.
  - intros a Ha.
    assert (al_entity_id a ∈ es_entity_id <$> inference_scores libm p) as Hin.
    { eapply elem_of_sublist; [|exact Hsub]. by apply list_elem_of_fmap_2. }
    apply list_elem_of_fmap in Hin as (es & Hes & Hin).
    apply inference_scores_entities in Hin.
    rewrite inference_vectors_entities in Hin.
    apply list_elem_of_fmap in Hin as (trade & Ht & Hin).
    apply elem_of_load_trade_events in Hin as [Hin Hm].
    exists trade. split_and!; [done|congruence|done].
Qed.

Lemma run_inference_alerts_witness :
  ∃ trade, trade ∈ [Ex.s2; Ex.bob1] ∧ account_id trade = "alice" ∧
           market_id trade ∈ ["m1"].
Proof.
  destruct (proj2 (proj2 (proj2 (proj2
              (run_inference_alerts Ex.libm (λ _, "2.00") (λ l, l)
                 {| data_ingestion := [[Ex.s2; Ex.bob1]]; feature_store := ∅;
                    model_zoo := [("size", Ex.size_model)]; ensemble := ∅;
                    alert_dispatcher := default_dispatcher; sequence_module := None;
                    graph_module := None; anomaly_module := None;
                    explainability := None; markets_of_interest := Some ["m1"];
                    alerts := []; explanations := []; anomaly_scores := [] |}))))
              {| al_entity_id := "alice"; al_score := 2; severity := "critical";
                 message := "Account alice flagged with severity critical (score=2.00)." |})
    as (trade & Hin & Hacc & Hm).
  - vm_compute. left.
  - exists trade. split_and!; [exact Hin|exact Hacc|exact (Hm ["m1"] eq_refl)].
Defined.

(** X24: without an explainability module [run_inference] stores no
    explanation; with one it stores exactly one explanation per combined
    score, in order, each built from the score and from the features of the
    last vector that the run computed for the score's account. *)
Theorem run_inference_explanations (libm : Libm) (format_2f : float → string)
    (sorted_by_abs_desc : list (string * float) → list (string * float))
    (p : InsiderDetectionPipeline) :
  match explainability p with
  | None =>
      explanations (Inference.run_inference libm format_2f sorted_by_abs_desc p).2 = []
  | Some _ =>
      Forall2
        (λ es ex,
           ∃ v, last (filter (λ v, entity_id v = es_entity_id es)
                        (inference_vectors libm p)) = Some v ∧
                ex = Explainability.build_explanations format_2f sorted_by_abs_desc
                       (features v) es)
        (inference_scores libm p)
        (explanations (Inference.run_inference libm format_2f sorted_by_abs_desc p).2)
  end.
Proof.
  rewrite run_inference_unfold. simpl. unfold Inference._build_explanations.
  destruct (explainability p); [|done].
  apply explanations_per_score, Forall_forall.
  intros es Hes. by apply inference_scores_entities.
Qed.

(** ** Alerts: the order of the severities *)

Section float_order_facts.

Lemma SFleb_trans (x y z : spec_float) :
  SFleb x y = true → SFleb y z = true → SFleb x z = true.
Proof.
  unfold SFleb.
  destruct x as [sx|sx| |sx mx ex], y as [sy|sy| |sy my ey], z as [sz|sz| |sz mz ez];
    simpl; try done;
    try destruct sx; try destruct sy; try destruct sz; simpl; try done.
  all: change (Pos.compare_cont Eq) with Pos.compare.
  all: destruct (Z.compare_spec ex ey), (Z.compare_spec ey ez), (Z.compare_spec ex ez);
    try done; try lia; subst.
  all: destruct (Pos.compare_spec mx my), (Pos.compare_spec my mz),
         (Pos.compare_spec mx mz); simpl; try done; try lia.
Qed.

Lemma leb_trans (x y z : float) :
  (x <=? y)%float = true → (y <=? z)%float = true → (x <=? z)%float = true.
Proof. rewrite !FloatAxioms.leb_spec. apply SFleb_trans. Qed.

End float_order_facts.

(** X25: whatever the dispatcher's thresholds, a score that is at least
    another score never gets a lower severity than it. *)
Theorem severity_monotone (d : AlertDispatcher) (s1 s2 : float) :
  (s1 <=? s2)%float = true →
  (severity_rank (_determine_severity d s1) ≤ severity_rank (_determine_severity d s2))%nat.
Proof.
  intros Hle. unfold _determine_severity.
  destruct (critical_threshold d <=? s1)%float eqn:H1.
  { rewrite (leb_trans _ _ _ H1 Hle). done. }
  destruct (high_threshold d <=? s1)%float eqn:H2.
  { rewrite (leb_trans _ _ _ H2 Hle).
    destruct (critical_threshold d <=? s2)%float; vm_compute; lia. }
  destruct (0.5 <=? s1)%float eqn:H3.
  { rewrite (leb_trans _ _ _ H3 Hle).
    destruct (critical_threshold d <=? s2)%float, (high_threshold d <=? s2)%float;
      vm_compute; lia. }
  change (severity_rank "info") with 0%nat. lia.
Qed.

Lemma severity_monotone_witness :
  (severity_rank (_determine_severity default_dispatcher 0.6) ≤
   severity_rank (_determine_severity default_dispatcher 0.95))%nat.
Proof. apply (severity_monotone default_dispatcher 0.6 0.95). reflexivity. Defined.

(** ** Coordination graph: the order of the trades *)

Section weight_symmetry_facts.

Lemma SFabs_opp (x : spec_float) : SFabs (SFopp x) = SFabs x.
Proof. by destruct x. Qed.

Lemma SFopp_involutive (x : spec_float) : SFopp (SFopp x) = x.
Proof. destruct x as [[]|[]| |[] m e]; done. Qed.

Lemma opp_involutive (x : float) : (- - x)%float = x.
Proof. apply Prim2SF_inj. by rewrite !FloatAxioms.opp_spec, SFopp_involutive. Qed.

Lemma abs_opp (x : float) : abs (- x) = abs x.
Proof.
  apply Prim2SF_inj. by rewrite !FloatAxioms.abs_spec, FloatAxioms.opp_spec, SFabs_opp.
Qed.

Lemma binary_normalize_abs_opp (m e : Z) :
  SFabs (binary_normalize prec emax (- m) e false) =
  SFabs (binary_normalize prec emax m e false).
Proof.
  destruct m as [|p|p]; simpl; [done|..]; unfold binary_round;
    destruct (shl_align _ _ _) as [mz ez].
  - by rewrite (binary_round_aux_opp false), SFabs_opp.
  - by rewrite (binary_round_aux_opp false), SFabs_opp.
Qed.

Lemma SFabs_sub_comm (x y : spec_float) :
  SFabs (SFsub prec emax x y) = SFabs (SFsub prec emax y x).
Proof.
  destruct x as [sx|sx| |sx mx ex], y as [sy|sy| |sy my ey]; simpl; try done.
  - by destruct sx, sy.
  - by destruct sx, sy.
  - rewrite (Z.min_comm ey ex), <-binary_normalize_abs_opp. f_equal. f_equal. lia.
Qed.

Lemma abs_sub_comm (x y : float) : abs (x - y) = abs (y - x).
Proof.
  apply Prim2SF_inj. rewrite !FloatAxioms.abs_spec, !FloatAxioms.sub_spec.
  apply SFabs_sub_comm.
Qed.

Lemma SFcompare_Eq (x y : spec_float) :
  SFcompare x y = Some Eq →
  x = y ∨ ((∃ s, x = S754_zero s) ∧ (∃ s, y = S754_zero s)).
Proof.
  destruct x as [sx|sx| |sx mx ex], y as [sy|sy| |sy my ey]; simpl;
    try destruct sx; try destruct sy; try done.
  all: try (intros _; right; split; by eexists).
  all: try (intros _; by left).
  all: change (Pos.compare_cont Eq) with Pos.compare.
  all: destruct (Z.compare_spec ex ey); try done; subst.
  all: destruct (Pos.compare_spec mx my); try done; subst; by left.
Qed.

Lemma max3_comm (x y : float) :
  Prim2SF x ≠ S754_nan → Prim2SF y ≠ S754_nan → Py.max3 x y 1 = Py.max3 y x 1.
Proof.
  intros Hx Hy. unfold Py.max3, Py.max2 at 2 4.
  rewrite !(FloatAxioms.ltb_spec x y), !(FloatAxioms.ltb_spec y x). unfold SFltb.
  rewrite (SFcompare_antisym (Prim2SF x) (Prim2SF y)).
  destruct (SFcompare (Prim2SF x) (Prim2SF y)) as [[]|] eqn:Hcmp; simpl; try done.
  - apply SFcompare_Eq in Hcmp as [Heq|[[sx Hsx] [sy Hsy]]].
    + by rewrite (Prim2SF_inj _ _ Heq).
    + unfold Py.max2. rewrite !FloatAxioms.ltb_spec, Hsx, Hsy. done.
  - by destruct (Prim2SF x), (Prim2SF y).
Qed.

Lemma div_nan_l (x y : float) : Prim2SF x = S754_nan → Prim2SF (x / y) = S754_nan.
Proof. intros Hx. by rewrite FloatAxioms.div_spec, Hx. Qed.

Lemma abs_sub_nan (x y : float) :
  Prim2SF x = S754_nan ∨ Prim2SF y = S754_nan → Prim2SF (abs (x - y)) = S754_nan.
Proof.
  intros Hxy. rewrite FloatAxioms.abs_spec, FloatAxioms.sub_spec.
  destruct Hxy as [-> | ->]; [done|]. by destruct (Prim2SF x).
Qed.

(** The relative size difference of two trades does not depend on their
    order. *)
Lemma size_difference_comm (x y : float) :
  (abs (x - y) / Py.max3 x y 1)%float = (abs (y - x) / Py.max3 y x 1)%float.
Proof.
  assert (∀ s : spec_float, s = S754_nan ∨ s ≠ S754_nan) as Hdec
    by (intros s; destruct s; auto).
  destruct (Hdec (Prim2SF x)) as [Hx|Hx], (Hdec (Prim2SF y)) as [Hy|Hy].
  4: by rewrite abs_sub_comm, max3_comm.
  all: apply Prim2SF_inj; rewrite !div_nan_l; [done|apply abs_sub_nan; tauto..].
Qed.

Lemma Z2SF_opp (z e : Z) : z ≠ 0 → Py.Z2SF (- z) e = SFopp (Py.Z2SF z e).
Proof. by destruct z. Qed.

Lemma SFdiv_opp_l (x y : spec_float) :
  SFdiv prec emax (SFopp x) y = SFopp (SFdiv prec emax x y).
Proof.
  destruct x as [sx|sx| |sx mx ex], y as [sy|sy| |sy my ey]; simpl; try done.
  all: try (by destruct sx, sy).
  destruct (SFdiv_core_binary _ _ _ _ _ _) as [[mz ez] lz].
  rewrite <-binary_round_aux_opp. by destruct sx, sy.
Qed.

Lemma SF2Prim_opp (x : spec_float) : SF2Prim (SFopp x) = (- SF2Prim x)%float.
Proof.
  destruct x as [[]|[]| |[] m e]; try reflexivity.
  simpl. by rewrite opp_involutive.
Qed.

Lemma int_truediv_opp_l (a b : Z) :
  a ≠ 0 → Py.int_truediv (- a) b = (- Py.int_truediv a b)%float.
Proof.
  intros Ha. unfold Py.int_truediv. by rewrite Z2SF_opp, SFdiv_opp_l, SF2Prim_opp.
Qed.

Lemma abs_int_truediv_opp (a b : Z) :
  abs (Py.int_truediv (- a) b) = abs (Py.int_truediv a b).
Proof.
  destruct (decide (a = 0)) as [->|Ha]; [done|].
  by rewrite int_truediv_opp_l, abs_opp.
Qed.

Lemma co_trading_weight_sym (a b : TradeEvent) :
  GraphModule._co_trading_weight a b = GraphModule._co_trading_weight b a.
Proof.
  unfold GraphModule._co_trading_weight, Py.total_seconds.
  rewrite (size_difference_comm (size a) (size b)).
  replace (timestamp a - timestamp b) with (- (timestamp b - timestamp a)) by lia.
  rewrite abs_int_truediv_opp.
  by rewrite (bool_decide_ext (outcome a = outcome b) (outcome b = outcome a)).
Qed.

End weight_symmetry_facts.

(** X26: the weight of a pair of trades does not depend on which of the two
    trades comes first, whatever their sizes and timestamps. *)
Theorem co_trading_weight_unordered (a b : TradeEvent) :
  GraphModule._co_trading_weight a b = GraphModule._co_trading_weight b a.
Proof. apply co_trading_weight_sym. Qed.

Section reordering_facts.
Import GraphModule.

Lemma elem_of_pairs_of_lookup {A} (l : list A) (x y : A) :
  (x, y) ∈ pairs_of l ↔ ∃ i j, (i < j)%nat ∧ l !! i = Some x ∧ l !! j = Some y.
Proof.
  induction l as [|a rest IH]; simpl.
  { rewrite elem_of_nil. split; [done|]. by intros (i & j & _ & ? & _). }
  rewrite elem_of_app, list_elem_of_fmap, IH. split.
  - intros [(z & [= -> ->] & Hz)|(i & j & Hij & Hi & Hj)].
    + apply list_elem_of_lookup in Hz as [k Hk].
      exists 0%nat, (S k). split_and!; [lia|done..].
    + exists (S i), (S j). split_and!; [lia|done..].
  - intros (i & j & Hij & Hi & Hj). destruct j as [|j]; [lia|].
    destruct i as [|i]; simplify_eq/=.
    + left. exists y. split; [done|]. by eapply list_elem_of_lookup_2.
    + right. exists i, j. split_and!; [lia|done..].
Qed.

Lemma pairs_of_Permutation {A} (l l' : list A) (x y : A) :
  l ≡ₚ l' → (x, y) ∈ pairs_of l → (x, y) ∈ pairs_of l' ∨ (y, x) ∈ pairs_of l'.
Proof.
  intros (_ & f & Hinj & Hf)%Permutation_inj.
  rewrite !elem_of_pairs_of_lookup. intros (i & j & Hij & Hi & Hj).
  rewrite Hf in Hi, Hj.
  destruct (decide (f i < f j)%nat) as [Hlt|Hge].
  - left. by exists (f i), (f j).
  - right. exists (f j), (f i). split_and!; [|done..].
    assert (f i ≠ f j) by (intros Heq%Hinj; lia). lia.
Qed.

Lemma weighed_Permutation (trades trades' : list TradeEvent) (ti tj : TradeEvent) :
  trades ≡ₚ trades' → weighed trades ti tj →
  weighed trades' ti tj ∨ weighed trades' tj ti.
Proof.
  intros Hperm [m Hpair].
  assert (filter (λ t, market_id t = m) trades ≡ₚ filter (λ t, market_id t = m) trades')
    as Hf by (by rewrite Hperm).
  destruct (pairs_of_Permutation _ _ _ _ Hf Hpair); [left|right]; by exists m.
Qed.

Lemma has_edge_Permutation threshold (trades trades' : list TradeEvent) (a b : string) :
  trades ≡ₚ trades' →
  has_edge (build_wallet_graph threshold trades) a b →
  has_edge (build_wallet_graph threshold trades') a b.
Proof.
  intros Hperm. rewrite !wallet_graph_has_edge_iff.
  intros (ti & tj & Hw & Hthr & Hab).
  destruct (weighed_Permutation _ _ _ _ Hperm Hw) as [Hw'|Hw'].
  - by exists ti, tj.
  - exists tj, ti. rewrite <-co_trading_weight_sym. split_and!; [done..|tauto].
Qed.

Lemma tc_has_edge_Permutation threshold (trades trades' : list TradeEvent) (x y : string) :
  trades ≡ₚ trades' →
  tc (has_edge (build_wallet_graph threshold trades)) x y →
  tc (has_edge (build_wallet_graph threshold trades')) x y.
Proof.
  intros Hperm. induction 1 as [x y Hxy|x y z Hxy _ IH].
  - apply tc_once. by eapply has_edge_Permutation.
  - eapply tc_l; [|done]. by eapply has_edge_Permutation.
Qed.

(** A community of a wallet graph is the set of accounts joined to any one
    of its members. *)
Lemma wallet_community_class threshold (trades : list TradeEvent)
    (cs : list (gset string)) (c : gset string) (x : string) :
  detect_communities (build_wallet_graph threshold trades) = Some cs →
  c ∈ cs → x ∈ c →
  ∀ y, y ∈ c ↔ tc (has_edge (build_wallet_graph threshold trades)) x y.
Proof.
  intros Hcs Hc Hx y. rewrite <-(wallet_same_community _ _ _ _ _ Hcs). split.
  - intros Hy. by exists c.
  - intros (c' & Hc' & Hx' & Hy').
    destruct (detect_communities_inv _ _ Hcs) as [(_ & Hdisj & _) _].
    apply list_elem_of_lookup in Hc as [i Hi], Hc' as [j Hj].
    destruct (decide (i = j)) as [->|Hne]; [congruence|].
    specialize (Hdisj i j c c' Hi Hj Hne). set_solver.
Qed.

Lemma wallet_communities_NoDup threshold (trades : list TradeEvent)
    (cs : list (gset string)) :
  detect_communities (build_wallet_graph threshold trades) = Some cs → NoDup cs.
Proof.
  intros Hcs. destruct (detect_communities_inv _ _ Hcs) as [Hfound _].
  pose proof Hfound as (_ & Hdisj & _).
  apply NoDup_alt. intros i j c Hi Hj.
  destruct (decide (i = j)) as [|Hne]; [done|]. exfalso.
  destruct (community_sound _ _ _ _ Hfound (list_elem_of_lookup_2 _ _ _ Hi))
    as (s & _ & Hs & _).
  specialize (Hdisj i j c c Hi Hj Hne). set_solver.
Qed.

Lemma wallet_communities_subset threshold (trades trades' : list TradeEvent)
    (cs cs' : list (gset string)) (c : gset string) :
  trades ≡ₚ trades' →
  detect_communities (build_wallet_graph threshold trades) = Some cs →
  detect_communities (build_wallet_graph threshold trades') = Some cs' →
  c ∈ cs → c ∈ cs'.
Proof.
  intros Hperm Hcs Hcs' Hc.
  destruct (detect_communities_inv _ _ Hcs) as [Hfound _].
  destruct (community_sound _ _ _ _ Hfound Hc) as (s & _ & Hs & _).
  assert (tc (has_edge (build_wallet_graph threshold trades)) s s) as Hss
    by (by apply (wallet_community_class _ _ _ _ _ Hcs Hc Hs)).
  apply (tc_has_edge_Permutation _ _ _ _ _ Hperm) in Hss.
  apply (wallet_same_community _ _ _ _ _ Hcs') in Hss as (c' & Hc' & Hs' & _).
  assert (c = c') as ->; [|done].
  apply set_eq. intros y.
  rewrite (wallet_community_class _ _ _ _ _ Hcs Hc Hs),
    (wallet_community_class _ _ _ _ _ Hcs' Hc' Hs').
  split; apply tc_has_edge_Permutation; [done|by symmetry].
Qed.

End reordering_facts.

(** X27: reordering the trades of a batch does not change which accounts
    the wallet graph links. *)
Theorem wallet_graph_edges_reordering (threshold : float)
    (trades trades' : list TradeEvent) (a b : string) :
  trades ≡ₚ trades' →
  has_edge (GraphModule.build_wallet_graph threshold trades) a b ↔
  has_edge (GraphModule.build_wallet_graph threshold trades') a b.
Proof.
  intros Hperm. split; apply has_edge_Permutation; [done|by symmetry].
Qed.

Lemma wallet_graph_edges_reordering_witness :
  has_edge (GraphModule.build_wallet_graph GraphModule.default_threshold
              [Ex.a1; Ex.b1; Ex.c1]) "A" "B" ↔
  has_edge (GraphModule.build_wallet_graph GraphModule.default_threshold
              [Ex.b1; Ex.a1; Ex.c1]) "A" "B".
Proof.
  apply (wallet_graph_edges_reordering GraphModule.default_threshold
           [Ex.a1; Ex.b1; Ex.c1] [Ex.b1; Ex.a1; Ex.c1] "A" "B").
  apply (perm_swap Ex.b1 Ex.a1 [Ex.c1]).
Defined.

(** X28: reordering the trades of a batch does not change the communities
    found on its wallet graph: the same sets of accounts are returned,
    possibly in another order, so their number is the same. *)
Theorem communities_reordering (threshold : float) (trades trades' : list TradeEvent) :
  trades ≡ₚ trades' →
  ∃ cs cs',
    GraphModule.detect_communities (GraphModule.build_wallet_graph threshold trades)
      = Some cs ∧
    GraphModule.detect_communities (GraphModule.build_wallet_graph threshold trades')
      = Some cs' ∧
    cs ≡ₚ cs' ∧ length cs = length cs'.
Proof.
  intros Hperm.
  destruct (wallet_graph_communities threshold trades) as (cs & Hcs & _).
  destruct (wallet_graph_communities threshold trades') as (cs' & Hcs' & _).
  assert (cs ≡ₚ cs') as Hcs_perm.
  { apply NoDup_Permutation; [by eapply wallet_communities_NoDup..|].
    intros c. split.
    - by apply (wallet_communities_subset threshold trades trades' cs cs' c).
    - by apply (wallet_communities_subset threshold trades' trades cs' cs c). }
  exists cs, cs'. split_and!; [done..|]. by apply Permutation_length.
Qed.

Lemma communities_reordering_witness :
  ∃ cs cs',
    GraphModule.detect_communities
      (GraphModule.build_wallet_graph GraphModule.default_threshold [Ex.a1; Ex.b1; Ex.c1])
      = Some cs ∧
    GraphModule.detect_communities
      (GraphModule.build_wallet_graph GraphModule.default_threshold [Ex.b1; Ex.a1; Ex.c1])
      = Some cs' ∧
    cs ≡ₚ cs' ∧ length cs = length cs'.
Proof.
  apply (communities_reordering GraphModule.default_threshold
           [Ex.a1; Ex.b1; Ex.c1] [Ex.b1; Ex.a1; Ex.c1]).
  apply (perm_swap Ex.b1 Ex.a1 [Ex.c1]).
Defined.
